(** * TradingEngine: a shallow embedding of the matching engine of engine1.cpp

    The development follows the layout of the source file: the data
    structures, the memory arena, the price-level tree (an AVL tree of
    [Limit] nodes), the stop-trigger pass, the matching path, and the
    public entry points [processOrder], [cancelOrder] and [modifyOrder].

    Representation choices.
    - [uint64_t] and [uint32_t] values are [N]; the two counters that are
      incremented wrap at 2^64.  [int64_t] prices and the [int] height are
      [Z]; no arithmetic is performed on prices.
    - The order pool [oPool] is a list of [Order] records addressed by slot
      index; an [Order*] is a slot index, shared between the price-level
      FIFOs and the two id indices, so that a write through one alias is
      seen through the others.  The free list [fOrder] is the chain of
      [nextFree] links, head first.
    - A tree of [Limit] nodes linked by [left]/[right] is an inductive
      tree; the intrusive [head]/[tail]/[next]/[prev] list of a level is
      the list of the slots of its orders, head first.  The back pointer
      [parentLimit] of an order is the level holding it: the level of the
      order's own [price] (or [stopPrice] for an armed stop) in the tree of
      its [side].  Limit nodes carry no identity, so the free list of the
      limit pool is represented by its length [fLimit].
    - [tradeBuffer] is the sequence of records handed to
      [RingBuffer::push], oldest first; whether the ring accepts a record
      depends on the concurrent consumer, which is outside the engine. *)

From stdpp Require Import gmap list fin_maps sorting.
From Stdlib Require Import ZArith NArith Lia.

Local Open Scope Z_scope.

(** ** 1. Data structures *)

Module Side.
Inductive t := Buy | Sell.
End Side.

Module OrderType.
Inductive t := Market | Limit | Stop | StopLimit.
End OrderType.

#[global] Instance Side_eq_dec : EqDecision Side.t.
Proof. solve_decision. Defined.

#[global] Instance OrderType_eq_dec : EqDecision OrderType.t.
Proof. solve_decision. Defined.

Definition INT64_MAX : Z := 9223372036854775807.
Definition U64_MOD : N := 18446744073709551616%N.

Record TradeReport := mkTrade {
  takerId : N;
  makerId : N;
  qty : N;
  tprice : Z;
  timestamp : N
}.

Record Order := mkOrder {
  id : N;
  side : Side.t;
  type : OrderType.t;
  shares : N;
  price : Z;
  stopPrice : Z
}.

#[global] Instance Order_inhabited : Inhabited Order :=
  populate (mkOrder 0 Side.Buy OrderType.Market 0 0 0).

(** A [Limit*]: [Null] is [nullptr]; a node holds the level price, the FIFO
    of its orders (head first), the two children and the recorded height. *)
Inductive Limit :=
| Null
| Node (lprice : Z) (fifo : list nat) (left right : Limit) (height : Z).

Record TriggeredStop := mkTriggered {
  originalId : N;
  tside : Side.t;
  convertToType : OrderType.t;
  tshares : N;
  limitPrice : Z
}.

(** ** 4. Memory arena *)

Record MemoryManager := mkMM {
  oPool : list Order;
  fOrder : list nat;
  fLimit : nat
}.

(** [MemoryManager(n)]: [n] order slots and [n / 5] limit slots, all free.
    The constructor takes the addresses of [oPool[0]] and [lPool[0]], so
    the source is run with [n >= 5]; the definition is total in [n]. *)
Definition newMemoryManager (n : nat) : MemoryManager :=
  mkMM (replicate n inhabitant) (seq 0 n) (n / 5)%nat.

Definition getOrder (m : MemoryManager) (i : N) (s : Side.t) (t : OrderType.t)
    (q : N) (p sp : Z) : option (nat * MemoryManager) :=
  match fOrder m with
  | [] => None
  | o :: rest =>
      Some (o, mkMM (<[o := mkOrder i s t q p sp]> (oPool m)) rest (fLimit m))
  end.

Definition recycleOrder (m : MemoryManager) (o : nat) : MemoryManager :=
  mkMM (oPool m) (o :: fOrder m) (fLimit m).

Definition getLimit (m : MemoryManager) (p : Z) : option (Limit * MemoryManager) :=
  match fLimit m with
  | O => None
  | S k => Some (Node p [] Null Null 1, mkMM (oPool m) (fOrder m) k)
  end.

Definition recycleLimit (m : MemoryManager) : MemoryManager :=
  mkMM (oPool m) (fOrder m) (S (fLimit m)).

(** Reading and writing the [shares] field through an [Order*]. *)
Definition deref (m : MemoryManager) (o : nat) : Order := oPool m !!! o.

Definition setShares (m : MemoryManager) (o : nat) (q : N) : MemoryManager :=
  let r := deref m o in
  mkMM (<[o := mkOrder (id r) (side r) (type r) q (price r) (stopPrice r)]> (oPool m))
       (fOrder m) (fLimit m).

Definition setPriceShares (m : MemoryManager) (o : nat) (p : Z) (q : N) : MemoryManager :=
  let r := deref m o in
  mkMM (<[o := mkOrder (id r) (side r) (type r) q p (stopPrice r)]> (oPool m))
       (fOrder m) (fLimit m).

(** ** 5. The price-level tree *)

Definition h (n : Limit) : Z :=
  match n with Null => 0 | Node _ _ _ _ ht => ht end.

Definition up (n : Limit) : Limit :=
  match n with
  | Null => Null
  | Node p q l r _ => Node p q l r (1 + Z.max (h l) (h r))
  end.

Definition getBal (n : Limit) : Z :=
  match n with Null => 0 | Node _ _ l r _ => h l - h r end.

Definition left_of (n : Limit) : Limit :=
  match n with Null => Null | Node _ _ l _ _ => l end.

Definition right_of (n : Limit) : Limit :=
  match n with Null => Null | Node _ _ _ r _ => r end.

Definition setLeft (n l : Limit) : Limit :=
  match n with Null => Null | Node p q _ r ht => Node p q l r ht end.

Definition setRight (n r : Limit) : Limit :=
  match n with Null => Null | Node p q l _ ht => Node p q l r ht end.

(** [rotR y]: [x = y->left; y->left = x->right; x->right = y; up(y); up(x)]. *)
Definition rotR (y : Limit) : Limit :=
  match y with
  | Node yp yq (Node xp xq xl xr xh) yr yh =>
      up (Node xp xq xl (up (Node yp yq xr yr yh)) xh)
  | _ => y
  end.

(** [rotL x]: [y = x->right; x->right = y->left; y->left = x; up(x); up(y)]. *)
Definition rotL (x : Limit) : Limit :=
  match x with
  | Node xp xq xl (Node yp yq yl yr yh) xh =>
      up (Node yp yq (up (Node xp xq xl yl xh)) yr yh)
  | _ => x
  end.

(** [p < n->price] and [p > n->price] on a child that the balance factor
    guarantees to exist. *)
Definition ltPrice (p : Z) (n : Limit) : bool :=
  match n with Null => false | Node np _ _ _ _ => p <? np end.

Definition gtPrice (p : Z) (n : Limit) : bool :=
  match n with Null => false | Node np _ _ _ _ => p >? np end.

(** The tail of [insert]: [up(n)] and the four rotation cases. *)
Definition insertFix (p : Z) (n0 : Limit) : Limit :=
  let n := up n0 in
  let b := getBal n in
  if (b >? 1) && ltPrice p (left_of n) then rotR n
  else if (b <? -1) && gtPrice p (right_of n) then rotL n
  else if (b >? 1) && gtPrice p (left_of n) then rotR (setLeft n (rotL (left_of n)))
  else if (b <? -1) && ltPrice p (right_of n) then rotL (setRight n (rotR (right_of n)))
  else n.

(** [insert(n, p, target)]: the new root, whether [target] is non-null, and
    the arena after the call. *)
Fixpoint insert (n : Limit) (p : Z) (m : MemoryManager) : Limit * bool * MemoryManager :=
  match n with
  | Null =>
      match getLimit m p with
      | None => (Null, false, m)
      | Some (l, m') => (l, true, m')
      end
  | Node np q l r ht =>
      if p <? np then
        let '(l', tg, m') := insert l p m in
        (insertFix p (Node np q l' r ht), tg, m')
      else if p >? np then
        let '(r', tg, m') := insert r p m in
        (insertFix p (Node np q l r' ht), tg, m')
      else (n, true, m)
  end.

Fixpoint getMin (n : Limit) : Limit :=
  match n with
  | Node _ _ (Node _ _ _ _ _ as l) _ _ => getMin l
  | _ => n
  end.

Fixpoint getMax (n : Limit) : Limit :=
  match n with
  | Node _ _ _ (Node _ _ _ _ _ as r) _ => getMax r
  | _ => n
  end.

Definition lprice_of (n : Limit) : Z :=
  match n with Null => 0 | Node p _ _ _ _ => p end.

Definition fifo_of (n : Limit) : list nat :=
  match n with Null => [] | Node _ q _ _ _ => q end.

(** The tail of [removeLimit]: [up(root)] and the four rotation cases. *)
Definition removeFix (root0 : Limit) : Limit :=
  let root := up root0 in
  let b := getBal root in
  if (b >? 1) && (getBal (left_of root) >=? 0) then rotR root
  else if (b >? 1) && (getBal (left_of root) <? 0) then
    rotR (setLeft root (rotL (left_of root)))
  else if (b <? -1) && (getBal (right_of root) <=? 0) then rotL root
  else if (b <? -1) && (getBal (right_of root) >? 0) then
    rotL (setRight root (rotR (right_of root)))
  else root.

Fixpoint removeLimit (root : Limit) (p : Z) (m : MemoryManager) : Limit * MemoryManager :=
  match root with
  | Null => (Null, m)
  | Node rp q l r ht =>
      if p <? rp then
        let '(l', m') := removeLimit l p m in
        (removeFix (Node rp q l' r ht), m')
      else if p >? rp then
        let '(r', m') := removeLimit r p m in
        (removeFix (Node rp q l r' ht), m')
      else
        match l, r with
        | Null, _ => (r, recycleLimit m)
        | _, Null => (l, recycleLimit m)
        | _, _ =>
            let successor := getMin r in
            let '(r', m') := removeLimit r (lprice_of successor) m in
            (removeFix (Node (lprice_of successor) (fifo_of successor) l r' ht), m')
        end
  end.

(** Writes through a [Limit*] held by the caller.  [best] is the leftmost
    or the rightmost node of its tree; a level reached through [target] or
    [parentLimit] is the node of that price. *)
Fixpoint updMin (f : list nat → list nat) (n : Limit) : Limit :=
  match n with
  | Null => Null
  | Node p q Null r ht => Node p (f q) Null r ht
  | Node p q l r ht => Node p q (updMin f l) r ht
  end.

Fixpoint updMax (f : list nat → list nat) (n : Limit) : Limit :=
  match n with
  | Null => Null
  | Node p q l Null ht => Node p (f q) l Null ht
  | Node p q l r ht => Node p q l (updMax f r) ht
  end.

Fixpoint updLevel (p : Z) (f : list nat → list nat) (n : Limit) : Limit :=
  match n with
  | Null => Null
  | Node np q l r ht =>
      if p <? np then Node np q (updLevel p f l) r ht
      else if p >? np then Node np q l (updLevel p f r) ht
      else Node np (f q) l r ht
  end.

Fixpoint findLevel (p : Z) (n : Limit) : option (list nat) :=
  match n with
  | Null => None
  | Node np q l r _ =>
      if p <? np then findLevel p l
      else if p >? np then findLevel p r
      else Some q
  end.

Fixpoint nodes (n : Limit) : nat :=
  match n with
  | Null => O
  | Node _ _ l r _ => S (nodes l + nodes r)
  end.

(** ** 5. The matching engine *)

Record OrderBook := mkBook {
  mm : MemoryManager;
  buyRoot : Limit;
  sellRoot : Limit;
  stopBuyRoot : Limit;
  stopSellRoot : Limit;
  orderMap : gmap N nat;
  stopOrderMap : gmap N nat;
  tradeBuffer : list TradeReport;
  timestampCounter : N;
  generatedIdCounter : N;
  (** Ghost field: the arguments of every call of [checkStopOrders],
      oldest first.  It is written by [checkStopOrders] and read by no
      function of the engine. *)
  stopChecks : list (Z * Side.t)
}.

(** [OrderBook(mm, rb)]. *)
Definition newOrderBook (m : MemoryManager) : OrderBook :=
  mkBook m Null Null Null Null ∅ ∅ [] 0 1000000000 [].

Definition with_mm (b : OrderBook) (m : MemoryManager) : OrderBook :=
  mkBook m (buyRoot b) (sellRoot b) (stopBuyRoot b) (stopSellRoot b)
    (orderMap b) (stopOrderMap b) (tradeBuffer b) (timestampCounter b)
    (generatedIdCounter b) (stopChecks b).

Definition with_orderMap (b : OrderBook) (om : gmap N nat) : OrderBook :=
  mkBook (mm b) (buyRoot b) (sellRoot b) (stopBuyRoot b) (stopSellRoot b)
    om (stopOrderMap b) (tradeBuffer b) (timestampCounter b)
    (generatedIdCounter b) (stopChecks b).

Definition with_stopOrderMap (b : OrderBook) (sm : gmap N nat) : OrderBook :=
  mkBook (mm b) (buyRoot b) (sellRoot b) (stopBuyRoot b) (stopSellRoot b)
    (orderMap b) sm (tradeBuffer b) (timestampCounter b)
    (generatedIdCounter b) (stopChecks b).

(** The resting tree of a side, and the tree an aggressor of that side
    matches against. *)
Definition restRoot (b : OrderBook) (s : Side.t) : Limit :=
  match s with Side.Buy => buyRoot b | Side.Sell => sellRoot b end.

Definition with_restRoot (b : OrderBook) (s : Side.t) (t : Limit) : OrderBook :=
  match s with
  | Side.Buy =>
      mkBook (mm b) t (sellRoot b) (stopBuyRoot b) (stopSellRoot b)
        (orderMap b) (stopOrderMap b) (tradeBuffer b) (timestampCounter b)
        (generatedIdCounter b) (stopChecks b)
  | Side.Sell =>
      mkBook (mm b) (buyRoot b) t (stopBuyRoot b) (stopSellRoot b)
        (orderMap b) (stopOrderMap b) (tradeBuffer b) (timestampCounter b)
        (generatedIdCounter b) (stopChecks b)
  end.

Definition stopRoot (b : OrderBook) (s : Side.t) : Limit :=
  match s with Side.Buy => stopBuyRoot b | Side.Sell => stopSellRoot b end.

Definition with_stopRoot (b : OrderBook) (s : Side.t) (t : Limit) : OrderBook :=
  match s with
  | Side.Buy =>
      mkBook (mm b) (buyRoot b) (sellRoot b) t (stopSellRoot b)
        (orderMap b) (stopOrderMap b) (tradeBuffer b) (timestampCounter b)
        (generatedIdCounter b) (stopChecks b)
  | Side.Sell =>
      mkBook (mm b) (buyRoot b) (sellRoot b) (stopBuyRoot b) t
        (orderMap b) (stopOrderMap b) (tradeBuffer b) (timestampCounter b)
        (generatedIdCounter b) (stopChecks b)
  end.

Definition opposite (s : Side.t) : Side.t :=
  match s with Side.Buy => Side.Sell | Side.Sell => Side.Buy end.

(** [tradeBuffer.push({taker, maker, traded, price, timestampCounter++})]. *)
Definition pushTrade (b : OrderBook) (tk mk : N) (traded : N) (p : Z) : OrderBook :=
  mkBook (mm b) (buyRoot b) (sellRoot b) (stopBuyRoot b) (stopSellRoot b)
    (orderMap b) (stopOrderMap b)
    (tradeBuffer b ++ [mkTrade tk mk traded p (timestampCounter b)])
    ((timestampCounter b + 1) mod U64_MOD)%N
    (generatedIdCounter b) (stopChecks b).

Definition logStopCheck (b : OrderBook) (p : Z) (s : Side.t) : OrderBook :=
  mkBook (mm b) (buyRoot b) (sellRoot b) (stopBuyRoot b) (stopSellRoot b)
    (orderMap b) (stopOrderMap b) (tradeBuffer b) (timestampCounter b)
    (generatedIdCounter b) (stopChecks b ++ [(p, s)]).

Definition nextGeneratedId (b : OrderBook) : N * OrderBook :=
  (generatedIdCounter b,
   mkBook (mm b) (buyRoot b) (sellRoot b) (stopBuyRoot b) (stopSellRoot b)
     (orderMap b) (stopOrderMap b) (tradeBuffer b) (timestampCounter b)
     ((generatedIdCounter b + 1) mod U64_MOD)%N (stopChecks b)).

(** FIFO surgery.  [linkTail] is the append at [L->tail]; [unlink] removes
    one order from the doubly linked list. *)
Definition linkTail (o : nat) (q : list nat) : list nat := q ++ [o].

Definition unlink (o : nat) (q : list nat) : list nat :=
  filter (λ x, x ≠ o) q.

(** *** checkStopOrders *)

(** The inner [while (stopOrder)] loop over the FIFO of a triggered level. *)
Fixpoint collectStops (b : OrderBook) (q : list nat) (triggered : list TriggeredStop)
    : OrderBook * list TriggeredStop :=
  match q with
  | [] => (b, triggered)
  | stopOrder :: next =>
      let r := deref (mm b) stopOrder in
      let triggered' :=
        triggered ++
          [mkTriggered (id r) (side r)
             (if decide (type r = OrderType.Stop) then OrderType.Market
              else OrderType.Limit)
             (shares r) (price r)] in
      let b1 := with_stopOrderMap b (delete (id r) (stopOrderMap b)) in
      let b2 := with_mm b1 (recycleOrder (mm b1) stopOrder) in
      collectStops b2 next triggered'
  end.

(** The outer loop for a sell aggressor: from the highest stop-sell level
    downward while [executedPrice <= highest->price].  Each turn removes a
    level; [fuel] bounds the number of turns. *)
Fixpoint stopLoopSell (fuel : nat) (b : OrderBook) (executedPrice : Z)
    (triggered : list TriggeredStop) : option (OrderBook * list TriggeredStop) :=
  match getMax (stopSellRoot b) with
  | Null => Some (b, triggered)
  | Node hp hq _ _ _ =>
      if executedPrice <=? hp then
        match fuel with
        | O => None
        | S fuel' =>
            let '(b1, triggered') := collectStops b hq triggered in
            let '(t, m) := removeLimit (stopSellRoot b1) hp (mm b1) in
            stopLoopSell fuel' (with_mm (with_stopRoot b1 Side.Sell t) m)
              executedPrice triggered'
        end
      else Some (b, triggered)
  end.

Fixpoint stopLoopBuy (fuel : nat) (b : OrderBook) (executedPrice : Z)
    (triggered : list TriggeredStop) : option (OrderBook * list TriggeredStop) :=
  match getMin (stopBuyRoot b) with
  | Null => Some (b, triggered)
  | Node lp lq _ _ _ =>
      if executedPrice >=? lp then
        match fuel with
        | O => None
        | S fuel' =>
            let '(b1, triggered') := collectStops b lq triggered in
            let '(t, m) := removeLimit (stopBuyRoot b1) lp (mm b1) in
            stopLoopBuy fuel' (with_mm (with_stopRoot b1 Side.Buy t) m)
              executedPrice triggered'
        end
      else Some (b, triggered)
  end.

Definition checkStopOrders (b : OrderBook) (executedPrice : Z) (executedSide : Side.t)
    (triggered : list TriggeredStop) : option (OrderBook * list TriggeredStop) :=
  let b0 := logStopCheck b executedPrice executedSide in
  match executedSide with
  | Side.Sell => stopLoopSell (nodes (stopSellRoot b0)) b0 executedPrice triggered
  | Side.Buy => stopLoopBuy (nodes (stopBuyRoot b0)) b0 executedPrice triggered
  end.

(** *** processOrderInternal *)

(** The arming or resting step shared by the stop path and the residual
    path: [insert] the level, then append the order at its tail.  [None]
    is the early [return] on a null [L]. *)
Definition placeOrder (root : Limit) (key : Z) (o : nat) (m : MemoryManager)
    : Limit * MemoryManager * bool :=
  let '(root', found, m') := insert root key m in
  if found then (updLevel key (linkTail o) root', m', true)
  else (root', m', false).

(** The inner loop [while (maker && taker->shares > 0)] over the FIFO of
    [best].  Returns the book, what is left of the FIFO, and
    [lastExecutedPrice]. *)
Fixpoint matchLevel (b : OrderBook) (taker : nat) (bestPrice : Z) (q : list nat)
    (lastExecutedPrice : Z) : OrderBook * list nat * Z :=
  match q with
  | [] => (b, [], lastExecutedPrice)
  | maker :: rest =>
      if (0 <? shares (deref (mm b) taker))%N then
        let tk := deref (mm b) taker in
        let mk := deref (mm b) maker in
        let traded := N.min (shares tk) (shares mk) in
        let b1 := pushTrade b (id tk) (id mk) traded bestPrice in
        let b2 := with_mm b1 (setShares (mm b1) taker (shares (deref (mm b1) taker) - traded)) in
        let b3 := with_mm b2 (setShares (mm b2) maker (shares (deref (mm b2) maker) - traded)) in
        if (shares (deref (mm b3) maker) =? 0)%N then
          let b4 := with_orderMap b3 (delete (id (deref (mm b3) maker)) (orderMap b3)) in
          let b5 := with_mm b4 (recycleOrder (mm b4) maker) in
          matchLevel b5 taker bestPrice rest bestPrice
        else (b3, q, bestPrice)
      else (b, q, lastExecutedPrice)
  end.

(** The outer loop [while (taker->shares > 0)].  A turn that does not leave
    the loop either empties and removes a level or brings the taker to
    zero; [fuel] bounds the number of turns. *)
Fixpoint matchLoop (fuel : nat) (b : OrderBook) (taker : nat) (sd : Side.t) (prc : Z)
    (lastExecutedPrice : Z) : option (OrderBook * Z) :=
  if (0 <? shares (deref (mm b) taker))%N then
    let best :=
      match sd with
      | Side.Buy => getMin (sellRoot b)
      | Side.Sell => getMax (buyRoot b)
      end in
    match best with
    | Null => Some (b, lastExecutedPrice)
    | Node bp bq _ _ _ =>
        if match sd with Side.Buy => prc <? bp | Side.Sell => prc >? bp end
        then Some (b, lastExecutedPrice)
        else
          match fuel with
          | O => None
          | S fuel' =>
              let '(b1, q', last') := matchLevel b taker bp bq lastExecutedPrice in
              let opp := opposite sd in
              let root1 :=
                match sd with
                | Side.Buy => updMin (λ _, q') (sellRoot b1)
                | Side.Sell => updMax (λ _, q') (buyRoot b1)
                end in
              let b2 := with_restRoot b1 opp root1 in
              let b3 :=
                match q' with
                | [] =>
                    let '(t, m) := removeLimit root1 bp (mm b2) in
                    with_mm (with_restRoot b2 opp t) m
                | _ => b2
                end in
              matchLoop fuel' b3 taker sd prc last'
          end
    end
  else Some (b, lastExecutedPrice).

Definition isStopType (t : OrderType.t) : bool :=
  match t with
  | OrderType.Stop | OrderType.StopLimit => true
  | _ => false
  end.

(** [depth] bounds the nesting of the re-entrant calls made for the
    triggered stops; they pass [checkStops = false], so two levels are all
    that can occur (see [processOrder]). *)
Fixpoint processOrderInternal (depth : nat) (b : OrderBook) (i : N) (sd : Side.t)
    (ty : OrderType.t) (q : N) (prc stopPrc : Z) (checkStops : bool)
    : option OrderBook :=
  match depth with
  | O => None
  | S depth' =>
      if isStopType ty then
        match getOrder (mm b) i sd ty q prc stopPrc with
        | None => Some b
        | Some (stopOrder, m1) =>
            let '(t, m2, found) := placeOrder (stopRoot b sd) stopPrc stopOrder m1 in
            let b1 := with_mm (with_stopRoot b sd t) m2 in
            if found then
              Some (with_stopOrderMap b1 (<[i := stopOrder]> (stopOrderMap b1)))
            else Some b1
        end
      else
        match getOrder (mm b) i sd ty q prc stopPrc with
        | None => Some b
        | Some (taker, m1) =>
            match matchLoop (nodes (restRoot b (opposite sd))) (with_mm b m1)
                    taker sd prc 0 with
            | None => None
            | Some (b1, lastExecutedPrice) =>
                match
                  (if checkStops && (lastExecutedPrice >? 0)
                   then checkStopOrders b1 lastExecutedPrice sd []
                   else Some (b1, []))
                with
                | None => None
                | Some (b2, triggeredStops) =>
                    let resubmit (start : option OrderBook) :=
                      foldl
                        (λ (acc : option OrderBook) (ts : TriggeredStop),
                           match acc with
                           | None => None
                           | Some bk =>
                               let '(newId, bk') := nextGeneratedId bk in
                               processOrderInternal depth' bk' newId (tside ts)
                                 (convertToType ts) (tshares ts) (limitPrice ts) 0 false
                           end) start triggeredStops in
                    if (0 <? shares (deref (mm b2) taker))%N
                       && bool_decide (ty = OrderType.Limit) then
                      let '(t, m2, found) := placeOrder (restRoot b2 sd) prc taker (mm b2) in
                      let b3 := with_mm (with_restRoot b2 sd t) m2 in
                      if found then
                        resubmit (Some (with_orderMap b3 (<[i := taker]> (orderMap b3))))
                      else Some b3
                    else
                      resubmit (Some (with_mm b2 (recycleOrder (mm b2) taker)))
                end
            end
        end
  end.

Definition processOrder (b : OrderBook) (i : N) (sd : Side.t) (ty : OrderType.t)
    (q : N) (prc stopPrc : Z) : option OrderBook :=
  processOrderInternal 2 b i sd ty q prc stopPrc true.

(** *** cancelOrder and modifyOrder *)

(** Unlinking [o] from the level [key] of [root], and removing the level
    when its FIFO has become empty. *)
Definition unlinkOrder (root : Limit) (key : Z) (o : nat) (m : MemoryManager)
    : Limit * MemoryManager :=
  let root1 := updLevel key (unlink o) root in
  match findLevel key root1 with
  | Some [] => removeLimit root1 key m
  | _ => (root1, m)
  end.

Definition cancelOrder (b : OrderBook) (orderId : N) : bool * OrderBook :=
  match orderMap b !! orderId with
  | Some o =>
      let r := deref (mm b) o in
      let '(t, m) := unlinkOrder (restRoot b (side r)) (price r) o (mm b) in
      let b1 := with_mm (with_restRoot b (side r) t) m in
      let b2 := with_orderMap b1 (delete orderId (orderMap b1)) in
      (true, with_mm b2 (recycleOrder (mm b2) o))
  | None =>
      match stopOrderMap b !! orderId with
      | Some o =>
          let r := deref (mm b) o in
          let '(t, m) := unlinkOrder (stopRoot b (side r)) (stopPrice r) o (mm b) in
          let b1 := with_mm (with_stopRoot b (side r) t) m in
          let b2 := with_stopOrderMap b1 (delete orderId (stopOrderMap b1)) in
          (true, with_mm b2 (recycleOrder (mm b2) o))
      | None => (false, b)
      end
  end.

(** On the path that returns [false] after a null [newLimit] the source
    leaves the order unlinked from its old level, carrying the new price
    and quantity, and still present in [orderMap]. *)
Definition modifyOrder (b : OrderBook) (orderId : N) (newQty : N) (newPrice : Z)
    : bool * OrderBook :=
  match orderMap b !! orderId with
  | None => (false, b)
  | Some o =>
      let r := deref (mm b) o in
      if newPrice =? price r then
        (true, with_mm b (setShares (mm b) o newQty))
      else
        let sd := side r in
        let '(t1, m1) := unlinkOrder (restRoot b sd) (price r) o (mm b) in
        let m2 := setPriceShares m1 o newPrice newQty in
        let '(t2, m3, found) := placeOrder t1 newPrice o m2 in
        (found, with_mm (with_restRoot b sd t2) m3)
  end.

Definition getOrderCount (b : OrderBook) : nat := size (orderMap b).
Definition getStopOrderCount (b : OrderBook) : nat := size (stopOrderMap b).

(** * Properties of the price-level tree *)

(** ** Balance *)

(** Every node records [1 + max(h(left), h(right))] and has a balance
    factor in {-1, 0, 1}. *)
Fixpoint avl (t : Limit) : Prop :=
  match t with
  | Null => True
  | Node _ _ l r ht =>
      avl l ∧ avl r ∧ ht = 1 + Z.max (h l) (h r) ∧ -1 ≤ h l - h r ≤ 1
  end.

Lemma avl_h_nonneg t : avl t → 0 ≤ h t.
Proof.
  induction t as [|p q l IHl r IHr ht]; simpl; [lia|].
  intros (Hl & Hr & -> & _). specialize (IHl Hl). specialize (IHr Hr). lia.
Qed.

Lemma avl_h_zero t : avl t → h t = 0 → t = Null.
Proof.
  destruct t as [|p q l r ht]; [done|]. simpl.
  intros (Hl & Hr & -> & _) Hz.
  pose proof (avl_h_nonneg _ Hl). pose proof (avl_h_nonneg _ Hr). lia.
Qed.

(** The shape of a subtree whose height has just grown by an insertion of
    [p]: it was not rotated, and the side [p] went to is the taller one. *)
Definition grown (p : Z) (t : Limit) : Prop :=
  match t with
  | Null => False
  | Node np _ l r _ =>
      (p < np ∧ h l = h r + 1) ∨ (np < p ∧ h r = h l + 1) ∨ (h l = 0 ∧ h r = 0)
  end.

Ltac bool_cases :=
  repeat match goal with
  | |- context [Z.ltb ?a ?b] => destruct (Z.ltb_spec a b)
  | |- context [Z.gtb ?a ?b] => rewrite (Z.gtb_ltb a b)
  | |- context [Z.leb ?a ?b] => destruct (Z.leb_spec a b)
  | |- context [Z.geb ?a ?b] => rewrite (Z.geb_leb a b)
  end.

Ltac avl_nonneg :=
  repeat match goal with
  | H : avl ?t |- _ =>
      lazymatch goal with
      | _ : 0 ≤ h t |- _ => fail
      | _ => pose proof (avl_h_nonneg t H)
      end
  end.

Lemma insertFix_avl_left p np q l l' r ht :
  avl (Node np q l r ht) → p < np → avl l' →
  (h l' = h l ∨ (h l' = h l + 1 ∧ grown p l')) →
  let t' := insertFix p (Node np q l' r ht) in
  avl t' ∧ (h t' = ht ∨ (h t' = ht + 1 ∧ grown p t')).
Proof.
  simpl. intros (Hl & Hr & Hht & Hb) Hp Hl' Hh.
  avl_nonneg.
  unfold insertFix; simpl.
  destruct Hh as [Hh|[Hh Hg]].
  - bool_cases; simpl; try lia. all: repeat split; try done; try lia.
    all: destruct l'; simpl in *; bool_cases; simpl; repeat split; try done; lia.
  - destruct l' as [|lp lq ll lr lh]; [done|].
    simpl in Hl'. destruct Hl' as (Hll & Hlr & Hlh & Hlb).
    avl_nonneg. simpl in *.
    destruct Hg as [[Hg1 Hg2]|[[Hg1 Hg2]|[Hg1 Hg2]]].
    + bool_cases; simpl; try lia; repeat split; try done; try lia.
    + bool_cases; simpl; try lia; try (repeat split; try done; lia).
      destruct lr as [|lrp lrq lrl lrr lrh]; simpl in *; [lia|].
      destruct Hlr as (Hlrl & Hlrr & Hlrh & Hlrb). avl_nonneg.
      repeat split; try done; lia.
    + bool_cases; simpl; try lia; repeat split; try done; try lia.
Qed.

Lemma insertFix_avl_right p np q l r r' ht :
  avl (Node np q l r ht) → np < p → avl r' →
  (h r' = h r ∨ (h r' = h r + 1 ∧ grown p r')) →
  let t' := insertFix p (Node np q l r' ht) in
  avl t' ∧ (h t' = ht ∨ (h t' = ht + 1 ∧ grown p t')).
Proof.
  simpl. intros (Hl & Hr & Hht & Hb) Hp Hr' Hh.
  avl_nonneg.
  unfold insertFix; simpl.
  destruct Hh as [Hh|[Hh Hg]].
  - bool_cases; simpl; try lia. all: repeat split; try done; try lia.
    all: destruct r'; simpl in *; bool_cases; simpl; repeat split; try done; lia.
  - destruct r' as [|rp rq rl rr rh]; [done|].
    simpl in Hr'. destruct Hr' as (Hrl & Hrr & Hrh & Hrb).
    avl_nonneg. simpl in *.
    destruct Hg as [[Hg1 Hg2]|[[Hg1 Hg2]|[Hg1 Hg2]]].
    + bool_cases; simpl; try lia; try (repeat split; try done; lia).
      destruct rl as [|rlp rlq rll rlr rlh]; simpl in *; [lia|].
      destruct Hrl as (Hrll & Hrlr & Hrlh & Hrlb). avl_nonneg.
      repeat split; try done; lia.
    + bool_cases; simpl; try lia; repeat split; try done; try lia.
    + bool_cases; simpl; try lia; repeat split; try done; try lia.
Qed.

Lemma insert_avl_grown t p m :
  avl t →
  let t' := (insert t p m).1.1 in
  avl t' ∧ (h t' = h t ∨ (h t' = h t + 1 ∧ grown p t')).
Proof.
  revert m. induction t as [|np q l IHl r IHr ht]; intros m Ht.
  - simpl. unfold getLimit. destruct (fLimit m); simpl; [tauto|].
    repeat split; try done; lia.
  - cbn [insert].
    destruct (Z.ltb_spec p np) as [Hlt|Hge].
    + specialize (IHl m). destruct (insert l p m) as [[l' tg] m'].
      simpl in IHl. cbn [fst].
      destruct Ht as (Hl & Hr & Hht & Hb).
      destruct (IHl Hl) as [Hl' Hh].
      apply (insertFix_avl_left p np q l l' r ht); simpl; auto.
    + rewrite Z.gtb_ltb. destruct (Z.ltb_spec np p) as [Hgt|Hle].
      * specialize (IHr m). destruct (insert r p m) as [[r' tg] m'].
        simpl in IHr. cbn [fst].
        destruct Ht as (Hl & Hr & Hht & Hb).
        destruct (IHr Hr) as [Hr' Hh].
        apply (insertFix_avl_right p np q l r r' ht); simpl; auto.
      * simpl. split; [done|]. lia.
Qed.

Lemma insert_avl t p m : avl t → avl (insert t p m).1.1.
Proof. intros Ht. apply (insert_avl_grown t p m Ht). Qed.

Lemma removeFix_avl p q l r ht l0 r0 :
  avl l → avl r →
  avl l0 → avl r0 → -1 ≤ h l0 - h r0 ≤ 1 →
  ((l = l0 ∧ (h r = h r0 ∨ h r = h r0 - 1)) ∨
   (r = r0 ∧ (h l = h l0 ∨ h l = h l0 - 1))) →
  let t' := removeFix (Node p q l r ht) in
  let old := 1 + Z.max (h l0) (h r0) in
  avl t' ∧ (h t' = old ∨ h t' = old - 1).
Proof.
  simpl. intros Hl Hr Hl0 Hr0 Hb Hcase.
  avl_nonneg. unfold removeFix; simpl.
  destruct Hcase as [[-> Hh]|[-> Hh]].
  - (* the right subtree may have shrunk: left-heavy cases *)
    bool_cases; simpl; try lia; try (repeat split; try done; lia).
    all: destruct l0 as [|lp lq ll lr lh]; simpl in *; try lia.
    all: destruct Hl0 as (Hll & Hlr & Hlh & Hlb); avl_nonneg.
    all: bool_cases; simpl; try lia; try (repeat split; try done; lia).
    all: destruct lr as [|lrp lrq lrl lrr lrh]; simpl in *; try lia.
    all: destruct Hlr as (Hlrl & Hlrr & Hlrh & Hlrb); avl_nonneg.
    all: repeat split; try done; lia.
  - bool_cases; simpl; try lia; try (repeat split; try done; lia).
    all: destruct r0 as [|rp rq rl rr rh]; simpl in *; try lia.
    all: destruct Hr0 as (Hrl & Hrr & Hrh & Hrb); avl_nonneg.
    all: bool_cases; simpl; try lia; try (repeat split; try done; lia).
    all: destruct rl as [|rlp rlq rll rlr rlh]; simpl in *; try lia.
    all: destruct Hrl as (Hrll & Hrlr & Hrlh & Hrlb); avl_nonneg.
    all: repeat split; try done; lia.
Qed.

Lemma removeLimit_avl_height t p m :
  avl t →
  let t' := (removeLimit t p m).1 in
  avl t' ∧ (h t' = h t ∨ h t' = h t - 1).
Proof.
  revert p m. induction t as [|rp q l IHl r IHr ht]; intros p m Ht.
  - simpl. split; [done|lia].
  - cbn [removeLimit]. destruct Ht as (Hl & Hr & Hht & Hb).
    destruct (Z.ltb_spec p rp) as [Hlt|Hge].
    + specialize (IHl p m Hl). destruct (removeLimit l p m) as [l' m'].
      simpl in IHl. destruct IHl as [Hl' Hh]. cbn [fst].
      cbn [h]. rewrite Hht.
      apply (removeFix_avl rp q l' r ht l r); auto.
    + rewrite Z.gtb_ltb. destruct (Z.ltb_spec rp p) as [Hgt|Hle].
      * specialize (IHr p m Hr). destruct (removeLimit r p m) as [r' m'].
        simpl in IHr. destruct IHr as [Hr' Hh]. cbn [fst].
        cbn [h]. rewrite Hht.
        apply (removeFix_avl rp q l r' ht l r); auto.
      * destruct l as [|lp lq ll lr lh].
        { clear IHl IHr. cbn [fst h]. pose proof (avl_h_nonneg _ Hr).
          simpl in *. split; [done|]. lia. }
        destruct r as [|rp' rq rl rr rh].
        { clear IHl IHr. cbn [fst]. split; [done|].
          pose proof (avl_h_nonneg _ Hl). simpl in *. lia. }
        set (s := getMin (Node rp' rq rl rr rh)).
        specialize (IHr (lprice_of s) m Hr).
        destruct (removeLimit (Node rp' rq rl rr rh) (lprice_of s) m) as [r' m'].
        simpl in IHr. destruct IHr as [Hr' Hh]. cbn [fst].
        cbn [h]. rewrite Hht.
        apply (removeFix_avl (lprice_of s) (fifo_of s) _ r' ht
                 (Node lp lq ll lr lh) (Node rp' rq rl rr rh)); auto.
Qed.

Lemma removeLimit_avl t p m : avl t → avl (removeLimit t p m).1.
Proof. intros Ht. apply (removeLimit_avl_height t p m Ht). Qed.







(** ** Contents and search order *)

(** The levels of a tree in increasing position: price and FIFO. *)
Fixpoint levels (t : Limit) : list (Z * list nat) :=
  match t with
  | Null => []
  | Node p q l r _ => levels l ++ (p, q) :: levels r
  end.

Definition keys (t : Limit) : list Z := (levels t).*1.

(** Price keys are unique and ordered along the tree. *)
Definition bst (t : Limit) : Prop := StronglySorted Z.lt (keys t).

(** The same operations on the sorted list of levels. *)
Fixpoint linsert (p : Z) (L : list (Z * list nat)) : list (Z * list nat) :=
  match L with
  | [] => [(p, [])]
  | (k, q) :: L' =>
      if p <? k then (p, []) :: L
      else if k <? p then (k, q) :: linsert p L'
      else L
  end.

Definition lalter (p : Z) (f : list nat → list nat) (L : list (Z * list nat))
    : list (Z * list nat) :=
  (λ kq, if decide (kq.1 = p) then (kq.1, f kq.2) else kq) <$> L.

Definition ldelete (p : Z) (L : list (Z * list nat)) : list (Z * list nat) :=
  filter (λ kq, kq.1 ≠ p) L.

Fixpoint lfind (p : Z) (L : list (Z * list nat)) : option (list nat) :=
  match L with
  | [] => None
  | (k, q) :: L' => if decide (k = p) then Some q else lfind p L'
  end.

Lemma keys_node p q l r ht : keys (Node p q l r ht) = keys l ++ p :: keys r.
Proof. unfold keys. simpl. by rewrite fmap_app. Qed.

Lemma bst_node p q l r ht :
  bst (Node p q l r ht) ↔
  bst l ∧ bst r ∧ Forall (λ k, k < p) (keys l) ∧ Forall (λ k, p < k) (keys r).
Proof.
  unfold bst. rewrite keys_node, StronglySorted_app, StronglySorted_cons.
  rewrite !Forall_forall. split.
  - intros (H1 & H2 & H3 & H4). repeat split; auto.
    intros k Hk. apply H1; [done|]. by left.
  - intros (H1 & H2 & H3 & H4). repeat split; auto.
    intros k1 k2 Hk1 Hk2. apply elem_of_cons in Hk2 as [->|Hk2]; [auto|].
    specialize (H3 _ Hk1). specialize (H4 _ Hk2). lia.
Qed.

Lemma bst_Null : bst Null.
Proof. constructor. Qed.

(** *** Sorted lists of levels *)

Section sorted_levels.
Implicit Types (L A B : list (Z * list nat)) (p k : Z) (q : list nat).

Lemma linsert_app_lt p k q A B :
  p < k → linsert p (A ++ (k, q) :: B) = linsert p A ++ (k, q) :: B.
Proof.
  intros Hp. induction A as [|[k' q'] A IH]; simpl.
  - destruct (Z.ltb_spec p k); [done|lia].
  - destruct (Z.ltb_spec p k'); [done|].
    destruct (Z.ltb_spec k' p); [|done]. by rewrite IH.
Qed.

Lemma linsert_app_gt p k q A B :
  Forall (λ x, x < p) A.*1 → k < p →
  linsert p (A ++ (k, q) :: B) = A ++ (k, q) :: linsert p B.
Proof.
  intros HA Hp. induction A as [|[k' q'] A IH]; simpl.
  - destruct (Z.ltb_spec p k); [lia|]. destruct (Z.ltb_spec k p); [done|lia].
  - apply Forall_cons in HA as [Hk' HA]. simpl in Hk'.
    destruct (Z.ltb_spec p k'); [lia|].
    destruct (Z.ltb_spec k' p); [|lia]. by rewrite IH.
Qed.

Lemma linsert_present p L :
  StronglySorted Z.lt L.*1 → p ∈ L.*1 → linsert p L = L.
Proof.
  induction L as [|[k q] L IH]; simpl; intros Hs Hin.
  - by apply elem_of_nil in Hin.
  - apply StronglySorted_cons in Hs as [Hall Hs].
    apply elem_of_cons in Hin as [->|Hin].
    + destruct (Z.ltb_spec k k); [lia|done].
    + rewrite Forall_forall in Hall. specialize (Hall _ Hin).
      destruct (Z.ltb_spec p k); [lia|].
      destruct (Z.ltb_spec k p); [|done]. by rewrite IH.
Qed.

Lemma linsert_keys p L x : x ∈ (linsert p L).*1 ↔ x = p ∨ x ∈ L.*1.
Proof.
  induction L as [|[k q] L IH]; simpl.
  - rewrite list_elem_of_singleton, elem_of_nil. tauto.
  - destruct (Z.ltb_spec p k); simpl.
    { rewrite !elem_of_cons. tauto. }
    destruct (Z.ltb_spec k p); simpl.
    { rewrite !elem_of_cons, IH. tauto. }
    assert (p = k) as -> by lia. rewrite !elem_of_cons. tauto.
Qed.

Lemma linsert_sorted p L :
  StronglySorted Z.lt L.*1 → StronglySorted Z.lt (linsert p L).*1.
Proof.
  induction L as [|[k q] L IH]; simpl; intros Hs.
  - repeat constructor.
  - pose proof Hs as Hs0. apply StronglySorted_cons in Hs as [Hall Hs].
    destruct (Z.ltb_spec p k); simpl.
    { apply StronglySorted_cons. split; [|done].
      constructor; [done|]. eapply Forall_impl; [exact Hall|].
      simpl. intros; lia. }
    destruct (Z.ltb_spec k p); simpl; [|done].
    apply StronglySorted_cons. split; [|by apply IH].
    apply Forall_forall. intros x Hx. apply linsert_keys in Hx as [->|Hx]; [done|].
    rewrite Forall_forall in Hall. by apply Hall.
Qed.

Lemma ldelete_absent p L : p ∉ L.*1 → ldelete p L = L.
Proof.
  unfold ldelete. induction L as [|[k q] L IH]; simpl; intros Hn; [done|].
  rewrite not_elem_of_cons in Hn. destruct Hn as [Hn1 Hn2].
  rewrite filter_cons_True by (simpl; congruence). by rewrite IH.
Qed.

Lemma ldelete_app p A B : ldelete p (A ++ B) = ldelete p A ++ ldelete p B.
Proof. apply filter_app. Qed.

Lemma ldelete_cons_eq p q L : ldelete p ((p, q) :: L) = ldelete p L.
Proof. unfold ldelete. by rewrite filter_cons_False by (simpl; tauto). Qed.

Lemma ldelete_cons_ne p k q L :
  k ≠ p → ldelete p ((k, q) :: L) = (k, q) :: ldelete p L.
Proof. intros. unfold ldelete. by rewrite filter_cons_True. Qed.

Lemma ldelete_keys p L x : x ∈ (ldelete p L).*1 ↔ x ≠ p ∧ x ∈ L.*1.
Proof.
  unfold ldelete. rewrite !list_elem_of_fmap. split.
  - intros ([k q] & -> & Hin). apply list_elem_of_filter in Hin as [Hne Hin].
    split; [done|]. exists (k, q). done.
  - intros (Hne & [k q] & -> & Hin). exists (k, q). split; [done|].
    apply list_elem_of_filter. done.
Qed.

Lemma ldelete_sorted p L :
  StronglySorted Z.lt L.*1 → StronglySorted Z.lt (ldelete p L).*1.
Proof.
  induction L as [|[k q] L IH]; simpl; intros Hs; [constructor|].
  apply StronglySorted_cons in Hs as [Hall Hs].
  destruct (decide (k = p)) as [->|Hne].
  - rewrite ldelete_cons_eq. by apply IH.
  - rewrite ldelete_cons_ne by done. simpl.
    apply StronglySorted_cons. split; [|by apply IH].
    apply Forall_forall. intros x Hx. apply ldelete_keys in Hx as [_ Hx].
    rewrite Forall_forall in Hall. by apply Hall.
Qed.

Lemma lalter_absent p f L : p ∉ L.*1 → lalter p f L = L.
Proof.
  induction L as [|[k q] L IH]; intros Hn; [done|].
  rewrite fmap_cons, not_elem_of_cons in Hn. destruct Hn as [Hn1 Hn2].
  unfold lalter in *. rewrite fmap_cons. simpl in *.
  rewrite decide_False by congruence. by rewrite IH.
Qed.

Lemma lalter_app p f A B : lalter p f (A ++ B) = lalter p f A ++ lalter p f B.
Proof. apply fmap_app. Qed.

Lemma lalter_keys p f L : (lalter p f L).*1 = L.*1.
Proof.
  induction L as [|[k q] L IH]; [done|].
  unfold lalter in *. rewrite !fmap_cons, IH. simpl.
  by destruct (decide (k = p)).
Qed.

Lemma lfind_absent p L : p ∉ L.*1 → lfind p L = None.
Proof.
  induction L as [|[k q] L IH]; simpl; intros Hn; [done|].
  rewrite not_elem_of_cons in Hn. destruct Hn as [Hn1 Hn2].
  rewrite decide_False by congruence. by apply IH.
Qed.

Lemma lfind_app_l p A B : p ∉ B.*1 → lfind p (A ++ B) = lfind p A.
Proof.
  intros HB. induction A as [|[k q] A IH]; simpl.
  - by apply lfind_absent.
  - by destruct (decide (k = p)).
Qed.

Lemma lfind_app_r p A B : p ∉ A.*1 → lfind p (A ++ B) = lfind p B.
Proof.
  induction A as [|[k q] A IH]; simpl; intros Hn; [done|].
  rewrite not_elem_of_cons in Hn. destruct Hn as [Hn1 Hn2].
  rewrite decide_False by congruence. by apply IH.
Qed.

Lemma lfind_Some p q L : lfind p L = Some q → (p, q) ∈ L.
Proof.
  induction L as [|[k q'] L IH]; simpl; [done|].
  destruct (decide (k = p)) as [->|].
  - intros [= ->]. by left.
  - intros H. right. by apply IH.
Qed.

Lemma lfind_elem p q L :
  StronglySorted Z.lt L.*1 → (p, q) ∈ L → lfind p L = Some q.
Proof.
  induction L as [|[k q'] L IH]; simpl; intros Hs Hin.
  - by apply elem_of_nil in Hin.
  - apply StronglySorted_cons in Hs as [Hall Hs].
    apply elem_of_cons in Hin as [[= <- <-]|Hin].
    + by rewrite decide_True.
    + rewrite decide_False; [by apply IH|].
      intros ->. rewrite Forall_forall in Hall.
      assert (p ∈ L.*1) as Hp.
      { apply list_elem_of_fmap. by exists (p, q). }
      specialize (Hall _ Hp). lia.
Qed.
End sorted_levels.

(** *** Rotations keep the sequence of levels *)

Lemma levels_up t : levels (up t) = levels t.
Proof. by destruct t. Qed.

Lemma levels_rotR t : levels (rotR t) = levels t.
Proof.
  destruct t as [|p q [|xp xq xl xr xh] r ht]; simpl; try done.
  by rewrite <- app_assoc.
Qed.

Lemma levels_rotL t : levels (rotL t) = levels t.
Proof.
  destruct t as [|p q l [|yp yq yl yr yh] ht]; simpl; try done.
  by rewrite <- app_assoc.
Qed.

Lemma levels_setLeft t l : levels l = levels (left_of t) → levels (setLeft t l) = levels t.
Proof. destruct t; simpl; [done|]. by intros ->. Qed.

Lemma levels_setRight t r : levels r = levels (right_of t) → levels (setRight t r) = levels t.
Proof. destruct t; simpl; [done|]. by intros ->. Qed.

Lemma levels_insertFix p n : levels (insertFix p n) = levels n.
Proof.
  unfold insertFix.
  repeat case_match;
    rewrite ?levels_rotR, ?levels_rotL, ?levels_setLeft, ?levels_setRight,
      ?levels_up; try done;
    by rewrite ?levels_rotR, ?levels_rotL.
Qed.

Lemma levels_removeFix n : levels (removeFix n) = levels n.
Proof.
  unfold removeFix.
  repeat case_match;
    rewrite ?levels_rotR, ?levels_rotL, ?levels_setLeft, ?levels_setRight,
      ?levels_up; try done;
    by rewrite ?levels_rotR, ?levels_rotL.
Qed.

Lemma nodes_levels t : nodes t = length (levels t).
Proof.
  induction t as [|p q l IHl r IHr ht]; simpl; [done|].
  rewrite length_app. simpl. lia.
Qed.

(** *** insert *)

Lemma insert_pools t p m :
  oPool (insert t p m).2 = oPool m ∧ fOrder (insert t p m).2 = fOrder m.
Proof.
  revert m. induction t as [|np q l IHl r IHr ht]; intros m; simpl.
  - unfold getLimit. by destruct (fLimit m).
  - repeat case_match; simpl; subst; auto.
    + specialize (IHl m). by rewrite H0 in IHl.
    + specialize (IHr m). by rewrite H1 in IHr.
Qed.

(** The three outcomes of [insert]: the level exists, a level is created
    from the pool, or the pool is exhausted and nothing changes. *)
Lemma insert_spec t p m :
  bst t →
  let '(t', found, m') := insert t p m in
  ((p ∈ keys t) ∧ levels t' = levels t ∧ found = true ∧ m' = m) ∨
  ((p ∉ keys t) ∧ fLimit m = S (fLimit m') ∧ found = true ∧
     levels t' = linsert p (levels t)) ∨
  ((p ∉ keys t) ∧ fLimit m = O ∧ found = false ∧ m' = m ∧ levels t' = levels t).
Proof.
  revert m. induction t as [|np q l IHl r IHr ht]; intros m Hb.
  - simpl. unfold getLimit. destruct (fLimit m) eqn:Hf; simpl.
    + right; right. repeat split; try done. apply not_elem_of_nil.
    + right; left. repeat split; try done. apply not_elem_of_nil.
  - apply bst_node in Hb as (Hbl & Hbr & Hl & Hr).
    rewrite Forall_forall in Hl, Hr.
    cbn [insert]. rewrite keys_node.
    destruct (Z.ltb_spec p np) as [Hlt|Hge].
    + specialize (IHl m Hbl). destruct (insert l p m) as [[l' tg] m'].
      rewrite levels_insertFix. simpl.
      assert (p ∉ keys r) as Hnr by (intros Hin; specialize (Hr _ Hin); lia).
      rewrite elem_of_app, elem_of_cons.
      destruct IHl as [(H1&H2&H3&H4)|[(H1&H2&H3&H4)|(H1&H2&H3&H4&H5)]].
      * left. rewrite H2. tauto.
      * right; left. rewrite H4, linsert_app_lt by done.
        repeat split; try done. intros [?|[?|?]]; try done; lia.
      * right; right. rewrite H5.
        repeat split; try done. intros [?|[?|?]]; try done; lia.
    + rewrite Z.gtb_ltb. destruct (Z.ltb_spec np p) as [Hgt|Hle].
      * specialize (IHr m Hbr). destruct (insert r p m) as [[r' tg] m'].
        rewrite levels_insertFix. simpl.
        assert (p ∉ keys l) as Hnl by (intros Hin; specialize (Hl _ Hin); lia).
        rewrite elem_of_app, elem_of_cons.
        destruct IHr as [(H1&H2&H3&H4)|[(H1&H2&H3&H4)|(H1&H2&H3&H4&H5)]].
        -- left. rewrite H2. tauto.
        -- right; left. rewrite H4, linsert_app_gt; [| |done].
           ++ repeat split; try done. intros [?|[?|?]]; try done; lia.
           ++ apply Forall_forall. intros x Hx. specialize (Hl _ Hx). lia.
        -- right; right. rewrite H5.
           repeat split; try done. intros [?|[?|?]]; try done; lia.
      * left. assert (p = np) as -> by lia.
        repeat split; try done. rewrite elem_of_app, elem_of_cons. tauto.
Qed.

Lemma insert_bst t p m : bst t → bst (insert t p m).1.1.
Proof.
  intros Hb. pose proof (insert_spec t p m Hb) as Hs.
  destruct (insert t p m) as [[t' tg] m']. simpl.
  unfold bst, keys in *.
  destruct Hs as [(H1&H2&H3&H4)|[(H1&H2&H3&H4)|(H1&H2&H3&H4&H5)]].
  - by rewrite H2.
  - rewrite H4. by apply linsert_sorted.
  - by rewrite H5.
Qed.

(** *** getMin, getMax and the writes through [best] *)

Lemma getMin_levels t :
  match getMin t with
  | Null => t = Null
  | Node p q _ _ _ => ∃ rest, levels t = (p, q) :: rest
  end.
Proof.
  induction t as [|p q l IHl r IHr ht]; [done|].
  destruct l as [|lp lq ll lr lh].
  - simpl. eauto.
  - change (getMin (Node p q (Node lp lq ll lr lh) r ht))
      with (getMin (Node lp lq ll lr lh)).
    destruct (getMin (Node lp lq ll lr lh)); [done|].
    destruct IHl as [rest Hrest].
    change (levels (Node p q (Node lp lq ll lr lh) r ht))
      with (levels (Node lp lq ll lr lh) ++ (p, q) :: levels r).
    rewrite Hrest. eauto.
Qed.

Lemma getMax_levels t :
  match getMax t with
  | Null => t = Null
  | Node p q _ _ _ => ∃ front, levels t = front ++ [(p, q)]
  end.
Proof.
  induction t as [|p q l IHl r IHr ht]; [done|].
  destruct r as [|rp rq rl rr rh].
  - simpl. eauto.
  - change (getMax (Node p q l (Node rp rq rl rr rh) ht))
      with (getMax (Node rp rq rl rr rh)).
    destruct (getMax (Node rp rq rl rr rh)); [done|].
    destruct IHr as [front Hfront].
    change (levels (Node p q l (Node rp rq rl rr rh) ht))
      with (levels l ++ (p, q) :: levels (Node rp rq rl rr rh)).
    rewrite Hfront. exists (levels l ++ (p, q) :: front).
    by rewrite <- app_assoc.
Qed.

Lemma updMin_levels f t p q rest :
  levels t = (p, q) :: rest → levels (updMin f t) = (p, f q) :: rest.
Proof.
  revert p q rest. induction t as [|np nq l IHl r IHr ht]; intros p q rest; [done|].
  destruct l as [|lp lq ll lr lh].
  - simpl. by intros [= -> -> ->].
  - change (levels (Node np nq (Node lp lq ll lr lh) r ht))
      with (levels (Node lp lq ll lr lh) ++ (np, nq) :: levels r).
    change (updMin f (Node np nq (Node lp lq ll lr lh) r ht))
      with (Node np nq (updMin f (Node lp lq ll lr lh)) r ht).
    destruct (levels (Node lp lq ll lr lh)) as [|[k0 q0] rest0] eqn:Hl.
    { apply (f_equal length) in Hl. simpl in Hl.
      rewrite length_app in Hl. simpl in Hl. lia. }
    intros H. cbn [levels]. rewrite (IHl _ _ _ eq_refl).
    rewrite <- app_comm_cons in H. by injection H as -> -> <-.
Qed.

Lemma updMax_levels f t p q front :
  levels t = front ++ [(p, q)] → levels (updMax f t) = front ++ [(p, f q)].
Proof.
  revert p q front. induction t as [|np nq l IHl r IHr ht]; intros p q front.
  { simpl. by destruct front. }
  destruct r as [|rp rq rl rr rh].
  - simpl. intros H. apply app_inj_tail in H as [-> [= -> ->]]. done.
  - change (levels (Node np nq l (Node rp rq rl rr rh) ht))
      with (levels l ++ (np, nq) :: levels (Node rp rq rl rr rh)).
    change (updMax f (Node np nq l (Node rp rq rl rr rh) ht))
      with (Node np nq l (updMax f (Node rp rq rl rr rh)) ht).
    pose proof (getMax_levels (Node rp rq rl rr rh)) as Hm.
    destruct (getMax (Node rp rq rl rr rh)) as [|mp mq ? ? ?]; [done|].
    destruct Hm as [fr Hfr]. rewrite Hfr.
    intros H.
    replace (levels l ++ (np, nq) :: fr ++ [(mp, mq)])
      with ((levels l ++ (np, nq) :: fr) ++ [(mp, mq)]) in H
      by (by rewrite <- app_assoc).
    apply app_inj_tail in H as [<- [= <- <-]].
    cbn [levels]. rewrite (IHr _ _ _ Hfr). by rewrite <- app_assoc.
Qed.

(** *** removeLimit *)

Lemma removeLimit_spec t p m :
  bst t →
  let '(t', m') := removeLimit t p m in
  levels t' = ldelete p (levels t) ∧
  oPool m' = oPool m ∧ fOrder m' = fOrder m ∧
  fLimit m' = (if decide (p ∈ keys t) then S (fLimit m) else fLimit m).
Proof.
  revert p m. induction t as [|np q l IHl r IHr ht]; intros p m Hb.
  - simpl. repeat split; done.
  - apply bst_node in Hb as (Hbl & Hbr & Hl & Hr).
    rewrite Forall_forall in Hl, Hr.
    cbn [removeLimit]. rewrite keys_node. cbn [levels].
    destruct (Z.ltb_spec p np) as [Hlt|Hge].
    + specialize (IHl p m Hbl). destruct (removeLimit l p m) as [l' m'].
      destruct IHl as (H1 & H2 & H3 & H4).
      rewrite levels_removeFix. cbn [levels].
      assert (p ∉ keys r) as Hnr by (intros Hin; specialize (Hr _ Hin); lia).
      rewrite ldelete_app, ldelete_cons_ne, (ldelete_absent p (levels r)), H1 by (done || lia).
      repeat split; try done. rewrite H4.
      destruct (decide (p ∈ keys l)) as [Hin|Hnin].
      * rewrite decide_True; [done|]. apply elem_of_app. by left.
      * rewrite decide_False; [done|].
        rewrite elem_of_app, elem_of_cons. intros [?|[?|?]]; try done; lia.
    + rewrite Z.gtb_ltb. destruct (Z.ltb_spec np p) as [Hgt|Hle].
      * specialize (IHr p m Hbr). destruct (removeLimit r p m) as [r' m'].
        destruct IHr as (H1 & H2 & H3 & H4).
        rewrite levels_removeFix. cbn [levels].
        assert (p ∉ keys l) as Hnl by (intros Hin; specialize (Hl _ Hin); lia).
        rewrite ldelete_app, ldelete_cons_ne, (ldelete_absent p (levels l)), H1 by (done || lia).
        repeat split; try done. rewrite H4.
        destruct (decide (p ∈ keys r)) as [Hin|Hnin].
        -- rewrite decide_True; [done|]. apply elem_of_app. right. by right.
        -- rewrite decide_False; [done|].
           rewrite elem_of_app, elem_of_cons. intros [?|[?|?]]; try done; lia.
      * assert (p = np) as -> by lia.
        assert (np ∉ keys l) as Hnl by (intros Hin; specialize (Hl _ Hin); lia).
        assert (np ∉ keys r) as Hnr by (intros Hin; specialize (Hr _ Hin); lia).
        rewrite ldelete_app, ldelete_cons_eq, !ldelete_absent by done.
        rewrite (decide_True (P := np ∈ keys l ++ np :: keys r))
          by (apply elem_of_app; right; by left).
        destruct l as [|lp lq ll lr lh].
        { simpl. done. }
        destruct r as [|rp rq rl rr rh].
        { simpl. by rewrite app_nil_r. }
        set (R := Node rp rq rl rr rh) in *. set (Lt := Node lp lq ll lr lh) in *.
        pose proof (getMin_levels R) as Hmin.
        destruct (getMin R) as [|sp sq sl sr sh] eqn:Hs; [done|].
        destruct Hmin as [rest Hrest]. cbn [lprice_of fifo_of].
        specialize (IHr sp m Hbr). destruct (removeLimit R sp m) as [r' m'].
        destruct IHr as (H1 & H2 & H3 & H4).
        rewrite levels_removeFix. cbn [levels]. fold Lt.
        rewrite H1, Hrest, ldelete_cons_eq.
        assert (sp ∉ rest.*1) as Hsp.
        { unfold bst, keys in Hbr. rewrite Hrest in Hbr. simpl in Hbr.
          apply StronglySorted_cons in Hbr as [Hall _].
          rewrite Forall_forall in Hall. intros Hin. specialize (Hall _ Hin). lia. }
        rewrite ldelete_absent by done.
        repeat split; try done. rewrite H4.
        rewrite decide_True; [done|]. unfold keys. rewrite Hrest. by left.
Qed.

Lemma removeLimit_bst t p m : bst t → bst (removeLimit t p m).1.
Proof.
  intros Hb. pose proof (removeLimit_spec t p m Hb) as Hs.
  destruct (removeLimit t p m) as [t' m']. simpl.
  destruct Hs as [Hs _]. unfold bst, keys in *. rewrite Hs.
  by apply ldelete_sorted.
Qed.

(** *** Reads and writes through a level pointer *)

Lemma updLevel_levels p f t :
  bst t → levels (updLevel p f t) = lalter p f (levels t).
Proof.
  induction t as [|np q l IHl r IHr ht]; intros Hb; [done|].
  apply bst_node in Hb as (Hbl & Hbr & Hl & Hr).
  rewrite Forall_forall in Hl, Hr.
  simpl. rewrite lalter_app.
  assert (lalter p f ((np, q) :: levels r) =
          (if decide (np = p) then (np, f q) else (np, q)) :: lalter p f (levels r))
    as -> by (unfold lalter; rewrite fmap_cons; simpl; by destruct (decide (np = p))).
  destruct (Z.ltb_spec p np) as [Hlt|Hge].
  - simpl. rewrite IHl by done. rewrite decide_False by lia.
    rewrite (lalter_absent p f (levels r)); [done|].
    intros Hin. specialize (Hr _ Hin). lia.
  - rewrite Z.gtb_ltb. destruct (Z.ltb_spec np p) as [Hgt|Hle]; simpl.
    + rewrite IHr by done. rewrite decide_False by lia.
      rewrite (lalter_absent p f (levels l)); [done|].
      intros Hin. specialize (Hl _ Hin). lia.
    + assert (p = np) as -> by lia. rewrite decide_True by done.
      rewrite !lalter_absent; [done| |].
      * intros Hin. specialize (Hr _ Hin). lia.
      * intros Hin. specialize (Hl _ Hin). lia.
Qed.

Lemma updLevel_bst p f t : bst t → bst (updLevel p f t).
Proof.
  intros Hb. unfold bst, keys. rewrite updLevel_levels by done.
  by rewrite lalter_keys.
Qed.

Lemma findLevel_levels p t : bst t → findLevel p t = lfind p (levels t).
Proof.
  induction t as [|np q l IHl r IHr ht]; intros Hb; [done|].
  apply bst_node in Hb as (Hbl & Hbr & Hl & Hr).
  rewrite Forall_forall in Hl, Hr. simpl.
  destruct (Z.ltb_spec p np) as [Hlt|Hge].
  - rewrite IHl by done. rewrite lfind_app_l; [done|].
    simpl. rewrite not_elem_of_cons. split; [lia|].
    intros Hin. specialize (Hr _ Hin). lia.
  - assert (p ∉ (levels l).*1) as Hnl.
    { intros Hin. specialize (Hl _ Hin). lia. }
    rewrite lfind_app_r by done. simpl.
    rewrite Z.gtb_ltb. destruct (Z.ltb_spec np p) as [Hgt|Hle].
    + rewrite decide_False by lia. by apply IHr.
    + rewrite decide_True by lia. done.
Qed.

Lemma updMin_bst f t : bst t → bst (updMin f t).
Proof.
  intros Hb. pose proof (getMin_levels t) as Hm.
  destruct (getMin t) as [|p q ? ? ?].
  - by subst.
  - destruct Hm as [rest Hrest]. unfold bst, keys in *.
    rewrite (updMin_levels f t p q rest Hrest). by rewrite Hrest in Hb.
Qed.

Lemma updMax_bst f t : bst t → bst (updMax f t).
Proof.
  intros Hb. pose proof (getMax_levels t) as Hm.
  destruct (getMax t) as [|p q ? ? ?].
  - by subst.
  - destruct Hm as [front Hfront]. unfold bst, keys in *.
    rewrite (updMax_levels f t p q front Hfront).
    rewrite Hfront in Hb. by rewrite fmap_app in *.
Qed.

(** * The book as four sorted lists of levels *)

(** [placeOrder] and [unlinkOrder] on the list of levels of a tree. *)
Definition addL (p : Z) (o : nat) (L : list (Z * list nat)) : list (Z * list nat) :=
  lalter p (linkTail o) (linsert p L).

Definition unlinkL (p : Z) (o : nat) (L : list (Z * list nat)) : list (Z * list nat) :=
  let L1 := lalter p (unlink o) L in
  match lfind p L1 with
  | Some [] => ldelete p L1
  | _ => L1
  end.

Section level_lists.
Implicit Types (L : list (Z * list nat)) (p k : Z) (q : list nat) (a o : nat).


Lemma elem_keys L k q : (k, q) ∈ L → k ∈ L.*1.
Proof. intros H. apply list_elem_of_fmap. by exists (k, q). Qed.


Lemma lfind_None L p : lfind p L = None → p ∉ L.*1.
Proof.
  induction L as [|[k q] L IH]; [intros _; apply not_elem_of_nil|].
  rewrite fmap_cons. cbn [lfind fst].
  destruct (decide (k = p)); [intros [=]|]. intros H.
  apply not_elem_of_cons. split; [congruence|by apply IH].
Qed.

Lemma elem_lalter L p f k q' :
  (k, q') ∈ lalter p f L ↔
  ∃ q, (k, q) ∈ L ∧ q' = if decide (k = p) then f q else q.
Proof.
  unfold lalter. rewrite list_elem_of_fmap. split.
  - intros ([k0 q0] & Heq & Hin). simpl in Heq.
    destruct (decide (k0 = p)) as [He|He]; injection Heq as -> ->;
      exists q0; (split; [done|]);
      [by rewrite decide_True|by rewrite decide_False].
  - intros (q & Hin & ->). exists (k, q). split; [|done]. simpl.
    by destruct (decide (k = p)).
Qed.

Lemma elem_linsert L p k q :
  StronglySorted Z.lt L.*1 →
  (k, q) ∈ linsert p L ↔ (k, q) ∈ L ∨ (k = p ∧ q = [] ∧ p ∉ L.*1).
Proof.
  induction L as [|[k0 q0] L IH]; intros Hs.
  - cbn [linsert]. rewrite list_elem_of_singleton, elem_of_nil. split.
    + intros [= -> ->]. right. repeat split. apply not_elem_of_nil.
    + intros [[]|(-> & -> & _)]. done.
  - rewrite fmap_cons in Hs. cbn [fst] in Hs.
    apply StronglySorted_cons in Hs as [Hall Hs]. rewrite Forall_forall in Hall.
    specialize (IH Hs). cbn [linsert].
    assert (p ∉ (k0, q0).1 :: L.*1 ↔ p ≠ k0 ∧ p ∉ L.*1) as Hn
      by apply not_elem_of_cons.
    rewrite fmap_cons.
    destruct (Z.ltb_spec p k0).
    + rewrite Hn, !elem_of_cons. split.
      * intros [[= -> ->]|[[= -> ->]|Hin]]; auto.
        right. repeat split; [lia|].
        intros Hin. specialize (Hall _ Hin). lia.
      * intros [[?|?]|(-> & -> & _)]; auto.
    + destruct (Z.ltb_spec k0 p).
      * rewrite Hn, !elem_of_cons, IH.
        split; [intros [?|[?|(?&?&?)]]|intros [[?|?]|(?&?&?&?)]]; auto.
        right. repeat split; auto. lia.
      * assert (p = k0) as -> by lia. split; [auto|].
        intros [?|(_ & _ & Hn')]; [done|].
        exfalso. apply Hn'. by left.
Qed.

Lemma elem_ldelete L p k q : (k, q) ∈ ldelete p L ↔ k ≠ p ∧ (k, q) ∈ L.
Proof. unfold ldelete. by rewrite list_elem_of_filter. Qed.


Lemma lfind_linsert_self L p :
  StronglySorted Z.lt L.*1 →
  lfind p (linsert p L) = Some (default [] (lfind p L)).
Proof.
  induction L as [|[k q] L IH]; intros Hs.
  - simpl. by rewrite decide_True.
  - rewrite fmap_cons in Hs. cbn [fst] in Hs.
    apply StronglySorted_cons in Hs as [Hall Hs].
    specialize (IH Hs). cbn [linsert lfind].
    destruct (Z.ltb_spec p k).
    + cbn [lfind]. rewrite decide_True by done.
      destruct (decide (k = p)); [lia|].
      rewrite lfind_absent; [done|]. rewrite Forall_forall in Hall.
      intros Hin. specialize (Hall _ Hin). lia.
    + destruct (Z.ltb_spec k p); cbn [lfind].
      * destruct (decide (k = p)); [lia|]. done.
      * destruct (decide (k = p)); [done|lia].
Qed.

Lemma elem_addL L p o k q' :
  StronglySorted Z.lt L.*1 →
  (k, q') ∈ addL p o L ↔
  (k ≠ p ∧ (k, q') ∈ L) ∨ (k = p ∧ q' = default [] (lfind p L) ++ [o]).
Proof.
  intros Hs. unfold addL. rewrite elem_lalter. split.
  - intros (q & Hin & ->). destruct (decide (k = p)) as [->|Hne].
    + right. split; [done|]. unfold linkTail. f_equal.
      apply lfind_elem in Hin; [|by apply linsert_sorted].
      rewrite lfind_linsert_self in Hin by done. congruence.
    + left. split; [done|]. apply elem_linsert in Hin as [?|(?&?&?)]; done.
  - intros [[Hne Hin]|[-> ->]].
    + exists q'. rewrite decide_False by done. split; [|done].
      apply elem_linsert; auto.
    + exists (default [] (lfind p L)). rewrite decide_True by done.
      split; [|done]. apply lfind_Some. by apply lfind_linsert_self.
Qed.

Lemma addL_sorted L p o :
  StronglySorted Z.lt L.*1 → StronglySorted Z.lt (addL p o L).*1.
Proof.
  intros Hs. unfold addL. rewrite lalter_keys. by apply linsert_sorted.
Qed.

Lemma elem_unlinkL L p o k q' :
  StronglySorted Z.lt L.*1 →
  (k, q') ∈ unlinkL p o L ↔
  (k ≠ p ∧ (k, q') ∈ L) ∨
  (k = p ∧ q' ≠ [] ∧ ∃ q, (p, q) ∈ L ∧ q' = unlink o q).
Proof.
  intros Hs. unfold unlinkL.
  assert (StronglySorted Z.lt (lalter p (unlink o) L).*1) as Hs1
    by (by rewrite lalter_keys).
  assert (∀ k q', (k, q') ∈ lalter p (unlink o) L ↔
            (k ≠ p ∧ (k, q') ∈ L) ∨ (k = p ∧ ∃ q, (p, q) ∈ L ∧ q' = unlink o q))
    as Hal.
  { intros k0 q0. rewrite elem_lalter. split.
    - intros (q & Hin & ->). destruct (decide (k0 = p)) as [->|]; eauto.
    - intros [[Hne Hin]|[-> (q & Hin & ->)]].
      + exists q0. by rewrite decide_False.
      + exists q. by rewrite decide_True. }
  destruct (lfind p (lalter p (unlink o) L)) as [[|x q1]|] eqn:Hf.
  - rewrite elem_ldelete, Hal. split.
    + intros [Hne [[_ Hin]|[-> _]]]; [auto|done].
    + intros [[Hne Hin]|(-> & Hq' & q & Hin & ->)]; [auto|].
      exfalso. apply Hq'.
      assert ((p, unlink o q) ∈ lalter p (unlink o) L) as Hin'
        by (apply Hal; right; eauto).
      apply (lfind_elem _ _ _ Hs1) in Hin'. congruence.
  - rewrite Hal. split.
    + intros [?|[-> (q & Hin & ->)]]; [auto|]. right. split; [done|].
      split; [|eauto].
      assert ((p, unlink o q) ∈ lalter p (unlink o) L) as Hin'
        by (apply Hal; right; eauto).
      apply (lfind_elem _ _ _ Hs1) in Hin'. rewrite Hf in Hin'.
      injection Hin' as <-. done.
    + intros [?|(-> & _ & ?)]; auto.
  - rewrite Hal. split.
    + intros [?|[-> (q & Hin & ->)]]; [auto|]. exfalso.
      apply lfind_None in Hf. apply Hf. rewrite lalter_keys.
      by eapply elem_keys.
    + intros [?|(-> & _ & ?)]; auto.
Qed.

Lemma unlinkL_sorted L p o :
  StronglySorted Z.lt L.*1 → StronglySorted Z.lt (unlinkL p o L).*1.
Proof.
  intros Hs. unfold unlinkL.
  assert (StronglySorted Z.lt (lalter p (unlink o) L).*1) as Hs1
    by (by rewrite lalter_keys).
  repeat case_match; auto using ldelete_sorted.
Qed.

Lemma elem_unlink o q x : x ∈ unlink o q ↔ x ≠ o ∧ x ∈ q.
Proof. unfold unlink. by rewrite list_elem_of_filter. Qed.

Lemma unlink_absent o q : o ∉ q → unlink o q = q.
Proof.
  unfold unlink. induction q as [|x q IH]; [done|].
  rewrite not_elem_of_cons. intros [Hne Hn].
  rewrite filter_cons_True by done. by rewrite IH.
Qed.

Lemma unlink_head o q : o ∉ q → unlink o (o :: q) = q.
Proof.
  intros Hn. unfold unlink. rewrite filter_cons_False by tauto.
  by apply unlink_absent.
Qed.

Lemma NoDup_unlink o q : NoDup q → NoDup (unlink o q).
Proof. apply NoDup_filter. Qed.
End level_lists.

(** * The representation invariant *)

(** The two kinds of tree: resting orders keyed by [price], and armed
    stops keyed by [stopPrice]. *)
Inductive Cat := Rest | Armed.

#[global] Instance Cat_eq_dec : EqDecision Cat.
Proof. solve_decision. Defined.

Definition otherCat (c : Cat) : Cat :=
  match c with Rest => Armed | Armed => Rest end.

Definition keyOf (c : Cat) (o : Order) : Z :=
  match c with Rest => price o | Armed => stopPrice o end.

Definition Trees : Type := Cat → Side.t → list (Z * list nat).

(** Slot [a] is linked in some FIFO of category [c]. *)
Definition holds (T : Trees) (c : Cat) (a : nat) : Prop :=
  ∃ s k q, (k, q) ∈ T c s ∧ a ∈ q.

(** [st] asks for strictly positive shares on resting orders; [ex] are the
    slots taken from the free list and not yet linked or returned. *)
Record InvL (st : bool) (ex : list nat) (T : Trees) (pool : list Order)
    (free : list nat) (I : Cat → gmap N nat) : Prop := mkInvL {
  il_sorted : ∀ c s, StronglySorted Z.lt (T c s).*1;
  il_fifo : ∀ c s k q, (k, q) ∈ T c s → q ≠ [] ∧ NoDup q;
  il_loc : ∀ c s k q a, (k, q) ∈ T c s → a ∈ q →
    side (pool !!! a) = s ∧ keyOf c (pool !!! a) = k ∧
    (c = Rest → st = true → (0 < shares (pool !!! a))%N);
  il_sep : ∀ a, holds T Rest a → holds T Armed a → False;
  il_free : ∀ a c, a ∈ ex ++ free → ¬ holds T c a;
  il_nodup : NoDup (ex ++ free);
  il_bound : ∀ a, (a ∈ ex ++ free ∨ ∃ c, holds T c a) → (a < length pool)%nat;
  il_index : ∀ c i a, I c !! i = Some a →
    id (pool !!! a) = i ∧ (a < length pool)%nat ∧ (a ∉ ex ++ free) ∧
    ¬ holds T (otherCat c) a;
  il_cross : ∀ i j a, I Rest !! i = Some a → I Armed !! j = Some a → False
}.

Section moves.
Context {st : bool}.
Implicit Types (T : Trees) (pool : list Order) (free ex : list nat)
  (I : Cat → gmap N nat) (a : nat) (c : Cat) (s : Side.t).

Lemma holds_sep T pool free ex I a c :
  InvL st ex T pool free I → holds T c a → ¬ holds T (otherCat c) a.
Proof.
  intros HI H1 H2. destruct c; simpl in *; eauto using il_sep.
Qed.

Lemma index_cross T pool free ex I c i j a :
  InvL st ex T pool free I → I c !! i = Some a → I (otherCat c) !! j ≠ Some a.
Proof.
  intros HI H1 H2. destruct c; simpl in *; eauto using il_cross.
Qed.

(** Trees whose FIFOs are sub-lists of the old ones. *)
Lemma InvL_shrink T T' pool free ex I :
  InvL st ex T pool free I →
  (∀ c s, StronglySorted Z.lt (T' c s).*1) →
  (∀ c s k q', (k, q') ∈ T' c s →
     q' ≠ [] ∧ NoDup q' ∧ ∃ q, (k, q) ∈ T c s ∧ q' ⊆ q) →
  InvL st ex T' pool free I.
Proof.
  intros HI Hs Hsub.
  assert (∀ c a, holds T' c a → holds T c a) as Hh.
  { intros c a (s & k & q' & Hin & Ha).
    destruct (Hsub _ _ _ _ Hin) as (_ & _ & q & Hq & Hqq).
    exists s, k, q. split; [done|]. by apply Hqq. }
  split.
  - done.
  - intros c s k q Hin. destruct (Hsub _ _ _ _ Hin) as (? & ? & _). done.
  - intros c s k q' a Hin Ha.
    destruct (Hsub _ _ _ _ Hin) as (_ & _ & q & Hq & Hqq).
    eapply (il_loc _ _ _ _ _ _ HI); [exact Hq|by apply Hqq].
  - intros a H1 H2. eapply (il_sep _ _ _ _ _ _ HI); eauto.
  - intros a c Ha H. eapply (il_free _ _ _ _ _ _ HI); eauto.
  - eapply il_nodup; eauto.
  - intros a [Ha|[c Ha]]; eapply (il_bound _ _ _ _ _ _ HI); eauto.
  - intros c i a Hi. destruct (il_index _ _ _ _ _ _ HI _ _ _ Hi) as (?&?&?&Hn).
    repeat split; auto.
  - eapply il_cross; eauto.
Qed.

(** Dropping an in-flight slot: it is no longer tracked. *)
Lemma InvL_drop T pool free ex I a :
  InvL st (a :: ex) T pool free I → InvL st ex T pool free I.
Proof.
  intros HI. split.
  - eapply il_sorted; eauto.
  - eapply il_fifo; eauto.
  - eapply il_loc; eauto.
  - eapply il_sep; eauto.
  - intros x c Hx. eapply (il_free _ _ _ _ _ _ HI). simpl. by right.
  - pose proof (il_nodup _ _ _ _ _ _ HI) as Hn. simpl in Hn.
    by apply NoDup_cons in Hn as [_ ?].
  - intros x [Hx|Hx]; eapply (il_bound _ _ _ _ _ _ HI); eauto.
    left. simpl. by right.
  - intros c i x Hi. destruct (il_index _ _ _ _ _ _ HI _ _ _ Hi) as (?&?&Hn&?).
    repeat split; auto. intros Hx. apply Hn. simpl. by right.
  - eapply il_cross; eauto.
Qed.

(** [getOrder]: the head of the free list becomes in-flight and its
    record is overwritten. *)
Lemma InvL_alloc T pool free ex I a o :
  InvL st ex T pool (a :: free) I →
  InvL st (a :: ex) T (<[a := o]> pool) free I.
Proof.
  intros HI.
  assert (a ∈ ex ++ a :: free) as Ha by (apply elem_of_app; right; by left).
  assert (∀ x, x ∈ (a :: ex) ++ free ↔ x ∈ ex ++ a :: free) as Hperm.
  { intros x. simpl. rewrite !elem_of_cons, !elem_of_app, elem_of_cons. tauto. }
  assert (∀ c x, holds T c x → <[a:=o]> pool !!! x = pool !!! x) as Hrd.
  { intros c x Hx. apply list_lookup_total_insert_ne. intros <-.
    by eapply (il_free _ _ _ _ _ _ HI). }
  split.
  - eapply il_sorted; eauto.
  - eapply il_fifo; eauto.
  - intros c s k q x Hin Hx.
    rewrite (Hrd c x) by (exists s, k, q; done).
    eapply il_loc; eauto.
  - eapply il_sep; eauto.
  - intros x c Hx. eapply (il_free _ _ _ _ _ _ HI). by apply Hperm.
  - pose proof (il_nodup _ _ _ _ _ _ HI) as Hn.
    eapply NoDup_Permutation_proper; [|exact Hn].
    simpl. by rewrite Permutation_middle.
  - intros x Hx. rewrite length_insert. eapply (il_bound _ _ _ _ _ _ HI).
    destruct Hx as [Hx|Hx]; [left; by apply Hperm|by right].
  - intros c i x Hi. destruct (il_index _ _ _ _ _ _ HI _ _ _ Hi) as (?&?&Hn&?).
    rewrite length_insert. rewrite list_lookup_total_insert_ne by (intros <-; done).
    repeat split; auto. intros Hx. apply Hn. by apply Hperm.
  - eapply il_cross; eauto.
Qed.

(** [recycleOrder] of a slot that is linked nowhere and indexed nowhere. *)
Lemma InvL_free T pool free ex I a :
  InvL st ex T pool free I →
  (∀ c, ¬ holds T c a) → a ∉ ex ++ free → (a < length pool)%nat →
  (∀ c i, I c !! i ≠ Some a) →
  InvL st ex T pool (a :: free) I.
Proof.
  intros HI Hh Hf Hb Hi.
  assert (∀ x, x ∈ ex ++ a :: free ↔ x = a ∨ x ∈ ex ++ free) as Hperm.
  { intros x. rewrite !elem_of_app, elem_of_cons. tauto. }
  split.
  - eapply il_sorted; eauto.
  - eapply il_fifo; eauto.
  - eapply il_loc; eauto.
  - eapply il_sep; eauto.
  - intros x c [->|Hx]%Hperm; [apply Hh|]. by eapply (il_free _ _ _ _ _ _ HI).
  - pose proof (il_nodup _ _ _ _ _ _ HI) as Hn.
    eapply NoDup_Permutation_proper; [symmetry; apply Permutation_middle|].
    apply NoDup_cons. done.
  - intros x [[->|Hx]%Hperm|Hx]; [done| |];
      eapply (il_bound _ _ _ _ _ _ HI); eauto.
  - intros c i x Hix. destruct (il_index _ _ _ _ _ _ HI _ _ _ Hix) as (?&?&Hn&?).
    repeat split; auto. intros [->|Hx]%Hperm; [|done]. by eapply Hi.
  - eapply il_cross; eauto.
Qed.

(** Overwriting a record with one that keeps the id and fits every FIFO
    the slot is linked in. *)
Lemma InvL_write T pool free ex I a o :
  InvL st ex T pool free I →
  id o = id (pool !!! a) →
  (∀ c s k q, (k, q) ∈ T c s → a ∈ q →
     side o = s ∧ keyOf c o = k ∧ (c = Rest → st = true → (0 < shares o)%N)) →
  InvL st ex T (<[a := o]> pool) free I.
Proof.
  intros HI Hid Hfit.
  split.
  - eapply il_sorted; eauto.
  - eapply il_fifo; eauto.
  - intros c s k q x Hin Hx.
    assert (x < length pool)%nat as Hb.
    { eapply (il_bound _ _ _ _ _ _ HI). right. exists c, s, k, q. done. }
    destruct (decide (a = x)) as [->|Hne].
    + rewrite list_lookup_total_insert_eq by done. eauto.
    + rewrite list_lookup_total_insert_ne by done. eapply il_loc; eauto.
  - eapply il_sep; eauto.
  - eapply il_free; eauto.
  - eapply il_nodup; eauto.
  - intros x Hx. rewrite length_insert. eapply il_bound; eauto.
  - intros c i x Hi. destruct (il_index _ _ _ _ _ _ HI _ _ _ Hi) as (Hi'&?&?&?).
    rewrite length_insert. repeat split; auto.
    destruct (decide (a = x)) as [->|Hne].
    + rewrite list_lookup_total_insert_eq by done. congruence.
    + by rewrite list_lookup_total_insert_ne by done.
  - eapply il_cross; eauto.
Qed.

Lemma InvL_index_delete T pool free ex I I' c0 i :
  InvL st ex T pool free I →
  I' c0 = delete i (I c0) → I' (otherCat c0) = I (otherCat c0) →
  InvL st ex T pool free I'.
Proof.
  intros HI H1 H2.
  assert (∀ c j x, I' c !! j = Some x → I c !! j = Some x) as Hsub.
  { intros c j x. destruct (decide (c = c0)) as [->|Hne].
    - rewrite H1. intros [_ ?]%lookup_delete_Some. done.
    - replace c with (otherCat c0) by (destruct c, c0; done). by rewrite H2. }
  split; try (by destruct HI).
  - intros c j x Hx. eapply (il_index _ _ _ _ _ _ HI); eauto.
  - intros j1 j2 x Hx1 Hx2. eapply (il_cross _ _ _ _ _ _ HI); eauto.
Qed.

Lemma InvL_index_insert T pool free ex I I' c0 i a :
  InvL st ex T pool free I →
  id (pool !!! a) = i → (a < length pool)%nat → a ∉ ex ++ free →
  ¬ holds T (otherCat c0) a → (∀ j, I (otherCat c0) !! j ≠ Some a) →
  I' c0 = <[i := a]> (I c0) → I' (otherCat c0) = I (otherCat c0) →
  InvL st ex T pool free I'.
Proof.
  intros HI Hid Hb Hf Hh Hx H1 H2.
  assert (∀ j x, I' c0 !! j = Some x → (j = i ∧ x = a) ∨ I c0 !! j = Some x) as Hsub.
  { intros j x. rewrite H1. intros [[-> ->]|[_ ?]]%lookup_insert_Some; auto. }
  split; try (by destruct HI).
  - intros c j x. destruct (decide (c = c0)) as [->|Hne].
    + intros [[-> ->]|Hj]%Hsub; [done|]. eapply (il_index _ _ _ _ _ _ HI); eauto.
    + replace c with (otherCat c0) by (destruct c, c0; done). rewrite H2.
      eapply (il_index _ _ _ _ _ _ HI); eauto.
  - intros j1 j2 x Hx1 Hx2. destruct c0; simpl in *.
    + rewrite H2 in Hx2. apply Hsub in Hx1 as [[-> ->]|Hx1].
      * by eapply Hx.
      * eapply (il_cross _ _ _ _ _ _ HI); eauto.
    + rewrite H2 in Hx1. apply Hsub in Hx2 as [[-> ->]|Hx2].
      * by eapply Hx.
      * eapply (il_cross _ _ _ _ _ _ HI); eauto.
Qed.

(** Linking a slot at the tail of the level of its key. *)
Lemma InvL_add T T' pool free ex I a c0 s0 p :
  InvL st ex T pool free I →
  (∀ c, ¬ holds T c a) → a ∉ ex ++ free → (a < length pool)%nat →
  side (pool !!! a) = s0 → keyOf c0 (pool !!! a) = p →
  (c0 = Rest → st = true → (0 < shares (pool !!! a))%N) →
  (∀ j, I (otherCat c0) !! j ≠ Some a) →
  T' c0 s0 = addL p a (T c0 s0) →
  (∀ c s, (c, s) ≠ (c0, s0) → T' c s = T c s) →
  InvL st ex T' pool free I.
Proof.
  intros HI Hh Hf Hb Hside Hkey Hpos Hidx HT' Hoth.
  pose proof (il_sorted _ _ _ _ _ _ HI c0 s0) as Hs0.
  assert (∀ c s k q', (k, q') ∈ T' c s →
            (k, q') ∈ T c s ∨
            (c = c0 ∧ s = s0 ∧ k = p ∧ ∃ q, q' = q ++ [a] ∧
               (q = [] ∨ (p, q) ∈ T c0 s0))) as Hel.
  { intros c s k q' Hin.
    destruct (decide ((c, s) = (c0, s0))) as [[= -> ->]|Hne].
    - rewrite HT' in Hin. apply elem_addL in Hin; [|done].
      destruct Hin as [[_ ?]|[-> ->]]; [by left|].
      right. repeat split. eexists. split; [done|].
      destruct (lfind p (T c0 s0)) eqn:Hf0; simpl; [|by left].
      right. by apply lfind_Some.
    - rewrite Hoth in Hin by done. by left. }
  assert (∀ c x, holds T' c x → holds T c x ∨ (c = c0 ∧ x = a)) as Hh'.
  { intros c x (s & k & q' & Hin & Hx).
    apply Hel in Hin as [Hin|(-> & -> & -> & q & -> & Hq)].
    - left. exists s, k, q'. done.
    - apply elem_of_app in Hx as [Hx|Hx%list_elem_of_singleton]; [|by right].
      destruct Hq as [->|Hq]; [by apply elem_of_nil in Hx|].
      left. exists s0, p, q. done. }
  split.
  - intros c s. destruct (decide ((c, s) = (c0, s0))) as [[= -> ->]|Hne].
    + rewrite HT'. by apply addL_sorted.
    + rewrite Hoth by done. eapply il_sorted; eauto.
  - intros c s k q' Hin.
    apply Hel in Hin as [Hin|(-> & -> & -> & q & -> & Hq)].
    + eapply il_fifo; eauto.
    + split; [by destruct q|]. apply NoDup_app. split; [|split].
      * destruct Hq as [->|Hq]; [constructor|].
        by eapply (il_fifo _ _ _ _ _ _ HI).
      * intros x Hx ->%list_elem_of_singleton.
        destruct Hq as [->|Hq]; [by apply elem_of_nil in Hx|].
        apply (Hh c0). exists s0, p, q. done.
      * apply NoDup_singleton.
  - intros c s k q' x Hin Hx.
    apply Hel in Hin as [Hin|(-> & -> & -> & q & -> & Hq)].
    + eapply il_loc; eauto.
    + apply elem_of_app in Hx as [Hx|Hx%list_elem_of_singleton]; [|by subst].
      destruct Hq as [->|Hq]; [by apply elem_of_nil in Hx|].
      eapply il_loc; eauto.
  - intros x H1 H2. apply Hh' in H1, H2.
    destruct H1 as [H1|[Hc1 Hx1]], H2 as [H2|[Hc2 Hx2]]; subst.
    + eapply il_sep; eauto.
    + by eapply Hh.
    + by eapply Hh.
    + done.
  - intros x c Hx [H|[_ ->]]%Hh'; [|done]. by eapply (il_free _ _ _ _ _ _ HI).
  - eapply il_nodup; eauto.
  - intros x [Hx|[c [H|[_ ->]]%Hh']]; [| |done];
      eapply (il_bound _ _ _ _ _ _ HI); eauto.
  - intros c i x Hi. destruct (il_index _ _ _ _ _ _ HI _ _ _ Hi) as (?&?&?&Hn).
    repeat split; auto. intros [Hold|[Hc ->]]%Hh'; [done|].
    apply (Hidx i). rewrite <- Hc. by destruct c.
  - eapply il_cross; eauto.
Qed.

(** Unlinking a slot from the level of its key; the level goes when its
    FIFO becomes empty.  Afterwards the slot is linked nowhere. *)
Lemma InvL_del T T' pool free ex I a c0 s0 p :
  InvL st ex T pool free I →
  side (pool !!! a) = s0 → keyOf c0 (pool !!! a) = p →
  ¬ holds T (otherCat c0) a →
  T' c0 s0 = unlinkL p a (T c0 s0) →
  (∀ c s, (c, s) ≠ (c0, s0) → T' c s = T c s) →
  InvL st ex T' pool free I ∧ ∀ c, ¬ holds T' c a.
Proof.
  intros HI Hside Hkey Hoc HT' Hoth.
  pose proof (il_sorted _ _ _ _ _ _ HI c0 s0) as Hs0.
  assert (∀ c s k q', (k, q') ∈ T' c s →
            q' ≠ [] ∧ NoDup q' ∧ (a ∉ q') ∧ ∃ q, (k, q) ∈ T c s ∧ q' ⊆ q) as Hel.
  { intros c s k q' Hin.
    destruct (decide ((c, s) = (c0, s0))) as [[= -> ->]|Hne].
    - rewrite HT' in Hin.
      apply elem_unlinkL in Hin; [|done].
      destruct Hin as [[Hk Hin]|(-> & Hne & q & Hin & ->)].
      + destruct (il_fifo _ _ _ _ _ _ HI _ _ _ _ Hin) as [? ?].
        repeat split; auto; [|exists q'; done].
        intros Ha. destruct (il_loc _ _ _ _ _ _ HI _ _ _ _ _ Hin Ha) as (_ & ? & _).
        congruence.
      + destruct (il_fifo _ _ _ _ _ _ HI _ _ _ _ Hin) as [? ?].
        repeat split; auto using NoDup_unlink.
        * rewrite elem_unlink. tauto.
        * exists q. split; [done|]. intros x [_ ?]%elem_unlink. done.
    - rewrite Hoth in Hin by done.
      destruct (il_fifo _ _ _ _ _ _ HI _ _ _ _ Hin) as [? ?].
      repeat split; auto; [|exists q'; done].
      intros Ha. destruct (il_loc _ _ _ _ _ _ HI _ _ _ _ _ Hin Ha) as (Hs' & Hk' & _).
      destruct (decide (c = c0)) as [->|Hc].
      + apply Hne. congruence.
      + apply Hoc. replace (otherCat c0) with c by (destruct c, c0; done).
        exists s, k, q'. done. }
  split.
  - eapply InvL_shrink; [exact HI| |].
    + intros c s. destruct (decide ((c, s) = (c0, s0))) as [[= -> ->]|Hne].
      * rewrite HT'. by apply unlinkL_sorted.
      * rewrite Hoth by done. eapply il_sorted; eauto.
    + intros c s k q' Hin. destruct (Hel _ _ _ _ Hin) as (?&?&?&?). auto.
  - intros c (s & k & q' & Hin & Ha).
    destruct (Hel _ _ _ _ Hin) as (?&?&?&?). done.
Qed.
End moves.

Lemma InvL_proper st ex T T' pool free I I' :
  (∀ c s, T' c s = T c s) → (∀ c, I' c = I c) →
  InvL st ex T pool free I → InvL st ex T' pool free I'.
Proof.
  intros HT HIx HI.
  assert (∀ c a, holds T' c a ↔ holds T c a) as Hh.
  { intros c a. unfold holds. by setoid_rewrite HT. }
  split.
  - intros c s. rewrite HT. eapply il_sorted; eauto.
  - intros c s k q. rewrite HT. eapply il_fifo; eauto.
  - intros c s k q a. rewrite HT. eapply il_loc; eauto.
  - intros a. rewrite !Hh. eapply il_sep; eauto.
  - intros a c. rewrite Hh. eapply il_free; eauto.
  - eapply il_nodup; eauto.
  - intros a Ha. eapply (il_bound _ _ _ _ _ _ HI).
    destruct Ha as [?|[c Ha]]; [by left|]. right. exists c. by apply Hh.
  - intros c i a. rewrite HIx, Hh. eapply il_index; eauto.
  - intros i j a. rewrite !HIx. eapply il_cross; eauto.
Qed.

(** ** The invariant on a book *)

Definition bookTree (b : OrderBook) (c : Cat) (s : Side.t) : Limit :=
  match c with Rest => restRoot b s | Armed => stopRoot b s end.

Definition with_bookTree (b : OrderBook) (c : Cat) (s : Side.t) (t : Limit) : OrderBook :=
  match c with Rest => with_restRoot b s t | Armed => with_stopRoot b s t end.

Definition bookIndex (b : OrderBook) (c : Cat) : gmap N nat :=
  match c with Rest => orderMap b | Armed => stopOrderMap b end.

Definition with_bookIndex (b : OrderBook) (c : Cat) (ix : gmap N nat) : OrderBook :=
  match c with Rest => with_orderMap b ix | Armed => with_stopOrderMap b ix end.

Definition bookLevels (b : OrderBook) : Trees := λ c s, levels (bookTree b c s).

Definition Inv (st : bool) (ex : list nat) (b : OrderBook) : Prop :=
  InvL st ex (bookLevels b) (oPool (mm b)) (fOrder (mm b)) (bookIndex b).

Lemma bookTree_with_same b c s t : bookTree (with_bookTree b c s t) c s = t.
Proof. by destruct c, s. Qed.

Lemma bookTree_with_other b c s t c' s' :
  (c', s') ≠ (c, s) → bookTree (with_bookTree b c s t) c' s' = bookTree b c' s'.
Proof. by destruct c, s, c', s'. Qed.

Lemma bookLevels_with_same b c s t : bookLevels (with_bookTree b c s t) c s = levels t.
Proof. unfold bookLevels. by rewrite bookTree_with_same. Qed.

Lemma bookLevels_with_other b c s t c' s' :
  (c', s') ≠ (c, s) → bookLevels (with_bookTree b c s t) c' s' = bookLevels b c' s'.
Proof. intros. unfold bookLevels. by rewrite bookTree_with_other. Qed.

(** Two books that agree on everything the invariant looks at. *)
Definition sameView (b b' : OrderBook) : Prop :=
  (∀ c s, bookLevels b' c s = bookLevels b c s) ∧
  oPool (mm b') = oPool (mm b) ∧ fOrder (mm b') = fOrder (mm b) ∧
  (∀ c, bookIndex b' c = bookIndex b c).

Lemma Inv_sameView st ex b b' : sameView b b' → Inv st ex b → Inv st ex b'.
Proof.
  intros (HT & Hp & Hf & Hi) HI. unfold Inv. rewrite Hp, Hf.
  eapply InvL_proper; eauto.
Qed.

(** ** The arena and the tree steps of the engine *)

Lemma getOrder_Some m i s t q p sp o m1 :
  getOrder m i s t q p sp = Some (o, m1) →
  ∃ rest, fOrder m = o :: rest ∧ fOrder m1 = rest ∧ fLimit m1 = fLimit m ∧
          oPool m1 = <[o := mkOrder i s t q p sp]> (oPool m).
Proof.
  unfold getOrder. destruct (fOrder m) as [|o' rest]; [done|].
  intros [= <- <-]. by exists rest.
Qed.

Lemma placeOrder_spec root key o m :
  bst root →
  let '(root', m', found) := placeOrder root key o m in
  oPool m' = oPool m ∧ fOrder m' = fOrder m ∧ bst root' ∧
  (if found then
     levels root' = addL key o (levels root) ∧
     fLimit m = (if decide (key ∈ keys root) then fLimit m' else S (fLimit m'))
   else levels root' = levels root ∧ m' = m ∧ fLimit m = O ∧ key ∉ keys root).
Proof.
  intros Hb. unfold placeOrder.
  pose proof (insert_spec root key m Hb) as Hs.
  pose proof (insert_bst root key m Hb) as Hb'.
  pose proof (insert_pools root key m) as [Hp Hf].
  destruct (insert root key m) as [[root' found] m']. simpl in *.
  destruct Hs as [(H1&H2&H3&H4)|[(H1&H2&H3&H4)|(H1&H2&H3&H4&H5)]]; subst.
  - repeat split; auto using updLevel_bst.
    + rewrite updLevel_levels by done. unfold addL. rewrite H2.
      by rewrite linsert_present.
    + by rewrite decide_True.
  - repeat split; auto using updLevel_bst.
    + rewrite updLevel_levels by done. unfold addL. by rewrite H4.
    + by rewrite decide_False.
  - repeat split; auto.
Qed.

Lemma unlinkOrder_spec root key o m :
  bst root →
  let '(root', m') := unlinkOrder root key o m in
  oPool m' = oPool m ∧ fOrder m' = fOrder m ∧ bst root' ∧
  levels root' = unlinkL key o (levels root) ∧
  fLimit m' =
    (if decide (lfind key (lalter key (unlink o) (levels root)) = Some [])
     then S (fLimit m) else fLimit m).
Proof.
  intros Hb. unfold unlinkOrder, unlinkL.
  pose proof (updLevel_bst key (unlink o) root Hb) as Hb1.
  rewrite findLevel_levels by done. rewrite updLevel_levels by done.
  set (L1 := lalter key (unlink o) (levels root)).
  assert (levels (updLevel key (unlink o) root) = L1) as HL1
    by (by apply updLevel_levels).
  destruct (lfind key L1) as [[|x q]|] eqn:Hf.
  - pose proof (removeLimit_spec (updLevel key (unlink o) root) key m Hb1) as Hr.
    pose proof (removeLimit_bst (updLevel key (unlink o) root) key m Hb1) as Hb2.
    destruct (removeLimit (updLevel key (unlink o) root) key m) as [t' m'].
    destruct Hr as (H1 & H2 & H3 & H4). simpl in Hb2.
    rewrite decide_True by done. rewrite HL1 in H1.
    repeat split; auto. rewrite H4. rewrite decide_True; [done|].
    unfold keys. rewrite HL1. apply lfind_Some in Hf. by eapply elem_keys.
  - rewrite decide_False by done. repeat split; auto.
  - rewrite decide_False by done. repeat split; auto.
Qed.

(** * The invariant along the engine's steps *)

Lemma bookTree_with_mm b m c s : bookTree (with_mm b m) c s = bookTree b c s.
Proof. by destruct c, s. Qed.

Lemma bookLevels_with_mm b m : bookLevels (with_mm b m) = bookLevels b.
Proof. done. Qed.

Lemma bookIndex_with_mm b m c : bookIndex (with_mm b m) c = bookIndex b c.
Proof. by destruct c. Qed.

Lemma bookIndex_with_bookTree b c s t c' :
  bookIndex (with_bookTree b c s t) c' = bookIndex b c'.
Proof. by destruct c, s, c'. Qed.

Lemma mm_with_bookTree b c s t : mm (with_bookTree b c s t) = mm b.
Proof. by destruct c, s. Qed.

Lemma mm_with_bookIndex b c ix : mm (with_bookIndex b c ix) = mm b.
Proof. by destruct c. Qed.

Lemma bookLevels_with_bookIndex b c ix : bookLevels (with_bookIndex b c ix) = bookLevels b.
Proof. by destruct c. Qed.

Lemma bookIndex_with_same b c ix : bookIndex (with_bookIndex b c ix) c = ix.
Proof. by destruct c. Qed.

Lemma bookIndex_with_other b c ix :
  bookIndex (with_bookIndex b c ix) (otherCat c) = bookIndex b (otherCat c).
Proof. by destruct c. Qed.

Lemma Inv_bst st ex b c s : Inv st ex b → bst (bookTree b c s).
Proof. intros HI. exact (il_sorted _ _ _ _ _ _ HI c s). Qed.

Section engine_steps.
Context {st : bool}.
Implicit Types (b : OrderBook) (ex : list nat) (a o : nat) (c : Cat) (s : Side.t).

Lemma Inv_getOrder ex b i s ty q p sp o m1 :
  Inv st ex b → getOrder (mm b) i s ty q p sp = Some (o, m1) →
  Inv st (o :: ex) (with_mm b m1) ∧
  deref m1 o = mkOrder i s ty q p sp ∧
  fLimit m1 = fLimit (mm b) ∧ fOrder (mm b) = o :: fOrder m1.
Proof.
  intros HI Hg. apply getOrder_Some in Hg as (rest & Hf & Hf1 & Hl & Hp).
  assert (o < length (oPool (mm b)))%nat as Hb.
  { eapply (il_bound _ _ _ _ _ _ HI). left. rewrite Hf.
    apply elem_of_app. right. by left. }
  split; [|split; [|split]]; try done.
  - unfold Inv in *. simpl. rewrite Hp, Hf1.
    apply InvL_alloc. by rewrite <- Hf.
  - unfold deref. rewrite Hp. by apply list_lookup_total_insert_eq.
  - by rewrite Hf, Hf1.
Qed.

Lemma Inv_drop ex b a : Inv st (a :: ex) b → Inv st ex b.
Proof. apply InvL_drop. Qed.

(** An in-flight slot is linked nowhere and indexed nowhere. *)
Lemma inflight_dangling ex b a :
  Inv st (a :: ex) b →
  (∀ c, ¬ holds (bookLevels b) c a) ∧ (∀ c i, bookIndex b c !! i ≠ Some a) ∧
  (a ∉ ex ++ fOrder (mm b)) ∧ (a < length (oPool (mm b)))%nat.
Proof.
  intros HI. repeat split.
  - intros c. eapply (il_free _ _ _ _ _ _ HI). by left.
  - intros c i Hi. destruct (il_index _ _ _ _ _ _ HI _ _ _ Hi) as (_&_&Hn&_).
    apply Hn. by left.
  - pose proof (il_nodup _ _ _ _ _ _ HI) as Hn. simpl in Hn.
    by apply NoDup_cons in Hn as [? _].
  - eapply (il_bound _ _ _ _ _ _ HI). left. by left.
Qed.

Lemma Inv_recycle_inflight ex b a :
  Inv st (a :: ex) b → Inv st ex (with_mm b (recycleOrder (mm b) a)).
Proof.
  intros HI. destruct (inflight_dangling _ _ _ HI) as (Hh & Hi & Hf & Hb).
  unfold Inv. simpl. apply InvL_free; auto. by apply InvL_drop in HI.
Qed.

Lemma Inv_place ex b c s key a t m' found :
  Inv st ex b →
  (∀ c', ¬ holds (bookLevels b) c' a) → a ∉ ex ++ fOrder (mm b) →
  (a < length (oPool (mm b)))%nat →
  side (deref (mm b) a) = s → keyOf c (deref (mm b) a) = key →
  (c = Rest → st = true → (0 < shares (deref (mm b) a))%N) →
  (∀ j, bookIndex b (otherCat c) !! j ≠ Some a) →
  placeOrder (bookTree b c s) key a (mm b) = (t, m', found) →
  Inv st ex (with_mm (with_bookTree b c s t) m') ∧
  (found = true → holds (bookLevels (with_bookTree b c s t)) c a) ∧
  oPool m' = oPool (mm b) ∧ fOrder m' = fOrder (mm b).
Proof.
  intros HI Hh Hf Hb Hs Hk Hpos Hix Hpl.
  pose proof (placeOrder_spec (bookTree b c s) key a (mm b) (Inv_bst _ _ _ c s HI)) as Hsp.
  rewrite Hpl in Hsp. destruct Hsp as (Hp & Hfo & _ & Hlv).
  split; [|split; [|done]].
  - unfold Inv. rewrite bookLevels_with_mm. simpl. rewrite Hp, Hfo.
    eapply InvL_proper; [done|intros c'; apply bookIndex_with_bookTree|].
    destruct found.
    + destruct Hlv as [Hlv _].
      eapply (InvL_add (bookLevels b)); eauto.
      * rewrite bookLevels_with_same. exact Hlv.
      * intros c' s' Hne. by apply bookLevels_with_other.
    + destruct Hlv as (Hlv & _).
      eapply InvL_proper; [|done|exact HI].
      intros c' s'. destruct (decide ((c', s') = (c, s))) as [[= -> ->]|Hne].
      * by rewrite bookLevels_with_same.
      * by apply bookLevels_with_other.
  - intros ->. destruct Hlv as [Hlv _].
    exists s, key, (default [] (lfind key (levels (bookTree b c s))) ++ [a]).
    split; [|apply elem_of_app; right; by left].
    rewrite bookLevels_with_same, Hlv. apply elem_addL; [|by right].
    exact (il_sorted _ _ _ _ _ _ HI c s).
Qed.

Lemma Inv_unlink ex b c s key a t m' :
  Inv st ex b →
  side (deref (mm b) a) = s → keyOf c (deref (mm b) a) = key →
  ¬ holds (bookLevels b) (otherCat c) a →
  unlinkOrder (bookTree b c s) key a (mm b) = (t, m') →
  Inv st ex (with_mm (with_bookTree b c s t) m') ∧
  (∀ c', ¬ holds (bookLevels (with_bookTree b c s t)) c' a) ∧
  oPool m' = oPool (mm b) ∧ fOrder m' = fOrder (mm b).
Proof.
  intros HI Hs Hk Hoc Hun.
  pose proof (unlinkOrder_spec (bookTree b c s) key a (mm b) (Inv_bst _ _ _ c s HI)) as Hsp.
  rewrite Hun in Hsp. destruct Hsp as (Hp & Hfo & _ & Hlv & _).
  destruct (InvL_del (bookLevels b) (bookLevels (with_bookTree b c s t))
              _ _ _ _ a c s key HI Hs Hk Hoc) as [HI' Hd].
  - rewrite bookLevels_with_same. exact Hlv.
  - intros c' s' Hne. by apply bookLevels_with_other.
  - split; [|by auto].
    unfold Inv. rewrite bookLevels_with_mm. simpl. rewrite Hp, Hfo.
    eapply InvL_proper; [done|intros c'; apply bookIndex_with_bookTree|done].
Qed.

(** The common part of the two branches of [cancelOrder]. *)
Lemma Inv_cancel_at b c orderId a t m :
  Inv st [] b → bookIndex b c !! orderId = Some a →
  unlinkOrder (bookTree b c (side (deref (mm b) a)))
    (keyOf c (deref (mm b) a)) a (mm b) = (t, m) →
  let b1 := with_mm (with_bookTree b c (side (deref (mm b) a)) t) m in
  let b2 := with_bookIndex b1 c (delete orderId (bookIndex b1 c)) in
  Inv st [] (with_mm b2 (recycleOrder (mm b2) a)).
Proof.
  intros HI Hix Hun b1 b2.
  destruct (il_index _ _ _ _ _ _ HI _ _ _ Hix) as (Hid & Hb & Hf & Hoc).
  destruct (Inv_unlink [] b c _ _ a t m HI eq_refl eq_refl Hoc Hun)
    as (HI1 & Hd & Hp & Hfo).
  fold b1 in HI1.
  assert (Inv st [] b2) as HI2.
  { unfold Inv, b2. rewrite bookLevels_with_bookIndex, mm_with_bookIndex.
    eapply (InvL_index_delete _ _ _ _ _ _ c orderId); [exact HI1| |].
    - by rewrite bookIndex_with_same.
    - by rewrite bookIndex_with_other. }
  unfold Inv. rewrite bookLevels_with_mm. simpl.
  eapply InvL_proper; [done|intros c'; apply bookIndex_with_mm|].
  apply InvL_free; auto.
  - intros c'. unfold b2. rewrite bookLevels_with_bookIndex. unfold b1.
    rewrite bookLevels_with_mm. apply Hd.
  - unfold b2. rewrite mm_with_bookIndex. unfold b1. simpl. by rewrite Hfo.
  - unfold b2. rewrite mm_with_bookIndex. unfold b1. simpl. by rewrite Hp.
  - intros c' i Hi. destruct (decide (c' = c)) as [->|Hne].
    + unfold b2 in Hi. rewrite bookIndex_with_same in Hi.
      apply lookup_delete_Some in Hi as [Hne Hi].
      unfold b1 in Hi. rewrite bookIndex_with_mm, bookIndex_with_bookTree in Hi.
      destruct (il_index _ _ _ _ _ _ HI _ _ _ Hi) as (Hid' & _). congruence.
    + replace c' with (otherCat c) in Hi by (destruct c, c'; done).
      unfold b2 in Hi. rewrite bookIndex_with_other in Hi.
      unfold b1 in Hi. rewrite bookIndex_with_mm, bookIndex_with_bookTree in Hi.
      exact (index_cross _ _ _ _ _ _ _ _ _ HI Hix Hi).
Qed.

Lemma Inv_cancelOrder b orderId : Inv st [] b → Inv st [] (cancelOrder b orderId).2.
Proof.
  intros HI. unfold cancelOrder.
  destruct (orderMap b !! orderId) as [a|] eqn:Ho.
  - pose proof (Inv_cancel_at b Rest orderId a) as H. simpl in H.
    destruct (unlinkOrder _ _ _ _) as [t m]. simpl. by apply H.
  - destruct (stopOrderMap b !! orderId) as [a|] eqn:Hs; [|done].
    pose proof (Inv_cancel_at b Armed orderId a) as H. simpl in H.
    destruct (unlinkOrder _ _ _ _) as [t m]. simpl. by apply H.
Qed.

Lemma deref_setShares_eq m a q :
  (a < length (oPool m))%nat →
  deref (setShares m a q) a =
    mkOrder (id (deref m a)) (side (deref m a)) (type (deref m a)) q
      (price (deref m a)) (stopPrice (deref m a)).
Proof. intros Hb. unfold deref, setShares. simpl. by rewrite list_lookup_total_insert_eq. Qed.

Lemma deref_setShares_ne m a x q : a ≠ x → deref (setShares m a q) x = deref m x.
Proof. intros Hne. unfold deref, setShares. simpl. by rewrite list_lookup_total_insert_ne. Qed.

Lemma Inv_modifyOrder b orderId newQty newPrice :
  Inv st [] b → (st = true → (0 < newQty)%N) →
  Inv st [] (modifyOrder b orderId newQty newPrice).2.
Proof.
  intros HI Hq. unfold modifyOrder.
  destruct (orderMap b !! orderId) as [a|] eqn:Ho; [|done].
  destruct (il_index _ _ _ _ _ _ HI Rest _ _ Ho) as (Hid & Hb & Hf & Hoc).
  destruct (Z.eqb_spec newPrice (price (deref (mm b) a))) as [Heq|Hne]; simpl.
  - unfold Inv. simpl. apply InvL_write; [exact HI|done|].
    intros c s k q Hin Ha. simpl.
    destruct (il_loc _ _ _ _ _ _ HI _ _ _ _ _ Hin Ha) as (Hs & Hk & _).
    repeat split; auto.
  - set (sd := side (deref (mm b) a)).
    destruct (unlinkOrder (restRoot b sd) (price (deref (mm b) a)) a (mm b))
      as [t1 m1] eqn:Hun.
    destruct (Inv_unlink [] b Rest sd _ a t1 m1 HI eq_refl eq_refl Hoc Hun)
      as (HI1 & Hd & Hp & Hfo).
    set (m2 := setPriceShares m1 a newPrice newQty).
    set (b2 := with_mm (with_bookTree b Rest sd t1) m2).
    assert (Inv st [] b2) as HI2.
    { unfold Inv, b2. rewrite bookLevels_with_mm. simpl.
      eapply InvL_proper; [done|intros c'; symmetry; apply bookIndex_with_mm|].
      apply (InvL_write (bookLevels (with_bookTree b Rest sd t1)) (oPool m1)
               (fOrder m1) [] _ a); [exact HI1|done|].
      intros c s k q Hin Ha. exfalso. apply (Hd c). exists s, k, q. done. }
    assert (deref m2 a = mkOrder (id (deref (mm b) a)) sd (type (deref (mm b) a))
                           newQty newPrice (stopPrice (deref (mm b) a))) as Hrec.
    { unfold deref, m2, setPriceShares. simpl.
      rewrite list_lookup_total_insert_eq by (by rewrite Hp).
      unfold deref. by rewrite Hp. }
    destruct (placeOrder t1 newPrice a m2) as [[t2 m3] found] eqn:Hpl.
    simpl.
    assert (length (oPool m2) = length (oPool (mm b))) as Hlen.
    { unfold m2, setPriceShares. simpl. by rewrite length_insert, Hp. }
    destruct (Inv_place [] b2 Rest sd newPrice a t2 m3 found HI2) as (HI3 & _).
    + intros c'. unfold b2. rewrite bookLevels_with_mm. apply Hd.
    + change (a ∉ [] ++ fOrder m1). by rewrite Hfo.
    + change (a < length (oPool m2))%nat. by rewrite Hlen.
    + change (side (deref m2 a) = sd). by rewrite Hrec.
    + change (keyOf Rest (deref m2 a) = newPrice). by rewrite Hrec.
    + intros _ Hst. change (0 < shares (deref m2 a))%N. rewrite Hrec. simpl. auto.
    + intros j. unfold b2. rewrite bookIndex_with_mm, bookIndex_with_bookTree.
      exact (index_cross _ _ _ _ _ Rest _ _ _ HI Ho).
    + unfold b2. rewrite bookTree_with_mm, bookTree_with_same. exact Hpl.
    + replace (with_mm (with_restRoot b sd t2) m3)
        with (with_mm (with_bookTree b2 Rest sd t2) m3); [done|].
      unfold b2. by destruct sd.
Qed.
End engine_steps.

(** * The matching loop *)

(** A level as it appears in the list of levels: absent once empty. *)
Definition optL (k : Z) (q : list nat) : list (Z * list nat) :=
  match q with [] => [] | _ => [(k, q)] end.

Lemma unlinkL_at A B bp maker rest :
  StronglySorted Z.lt (A ++ (bp, maker :: rest) :: B).*1 → maker ∉ rest →
  unlinkL bp maker (A ++ (bp, maker :: rest) :: B) = A ++ optL bp rest ++ B.
Proof.
  intros Hs Hn.
  rewrite fmap_app, fmap_cons in Hs. cbn [fst] in Hs.
  apply StronglySorted_app in Hs as (HAB & HA & HB).
  apply StronglySorted_cons in HB as [HB1 HB].
  assert (bp ∉ A.*1) as HnA.
  { intros Hin. specialize (HAB _ _ Hin (list_elem_of_here _ _)). lia. }
  assert (bp ∉ B.*1) as HnB.
  { intros Hin. rewrite Forall_forall in HB1. specialize (HB1 _ Hin). lia. }
  unfold unlinkL.
  assert (lalter bp (unlink maker) (A ++ (bp, maker :: rest) :: B)
          = A ++ (bp, rest) :: B) as ->.
  { rewrite lalter_app, (lalter_absent _ _ A) by done.
    unfold lalter at 1. rewrite fmap_cons. cbn [fst snd].
    rewrite decide_True by done. rewrite unlink_head by done.
    fold (lalter bp (unlink maker) B). by rewrite lalter_absent. }
  rewrite lfind_app_r by done. cbn [lfind]. rewrite decide_True by done.
  destruct rest as [|x rest']; [|done].
  rewrite ldelete_app, ldelete_cons_eq, !ldelete_absent by done. done.
Qed.

(** What the matching loops leave alone: the trees themselves (the FIFO
    of [best] is written back by the caller), the stop side, and every
    field of every order except [shares]. *)
Record levelFrame (b b1 : OrderBook) : Prop := mkLevelFrame {
  lf_buy : buyRoot b1 = buyRoot b;
  lf_sell : sellRoot b1 = sellRoot b;
  lf_sbuy : stopBuyRoot b1 = stopBuyRoot b;
  lf_ssell : stopSellRoot b1 = stopSellRoot b;
  lf_smap : stopOrderMap b1 = stopOrderMap b;
  lf_checks : stopChecks b1 = stopChecks b;
  lf_gen : generatedIdCounter b1 = generatedIdCounter b;
  lf_flimit : fLimit (mm b1) = fLimit (mm b);
  lf_len : length (oPool (mm b1)) = length (oPool (mm b));
  lf_fields : ∀ x,
    id (deref (mm b1) x) = id (deref (mm b) x) ∧
    side (deref (mm b1) x) = side (deref (mm b) x) ∧
    type (deref (mm b1) x) = type (deref (mm b) x) ∧
    price (deref (mm b1) x) = price (deref (mm b) x) ∧
    stopPrice (deref (mm b1) x) = stopPrice (deref (mm b) x)
}.

Lemma levelFrame_refl b : levelFrame b b.
Proof. by split. Qed.

Lemma levelFrame_trans b1 b2 b3 : levelFrame b1 b2 → levelFrame b2 b3 → levelFrame b1 b3.
Proof.
  intros [] []. split; try congruence.
  intros x. destruct (lf_fields0 x) as (?&?&?&?&?).
  destruct (lf_fields1 x) as (?&?&?&?&?). repeat split; congruence.
Qed.

Lemma setShares_fields m a q x :
  id (deref (setShares m a q) x) = id (deref m x) ∧
  side (deref (setShares m a q) x) = side (deref m x) ∧
  type (deref (setShares m a q) x) = type (deref m x) ∧
  price (deref (setShares m a q) x) = price (deref m x) ∧
  stopPrice (deref (setShares m a q) x) = stopPrice (deref m x).
Proof.
  destruct (decide (a = x)) as [->|Hne].
  - destruct (decide (x < length (oPool m))%nat) as [Hlt|Hge].
    + by rewrite deref_setShares_eq.
    + unfold deref, setShares. simpl. rewrite list_insert_ge by lia. done.
  - by rewrite deref_setShares_ne.
Qed.

Lemma levelFrame_setShares b a q : levelFrame b (with_mm b (setShares (mm b) a q)).
Proof.
  split; try done.
  - simpl. by rewrite length_insert.
  - intros x. simpl. apply setShares_fields.
Qed.

Lemma matchLevel_frame q : ∀ b taker bp last b1 q' last',
  matchLevel b taker bp q last = (b1, q', last') → levelFrame b b1.
Proof.
  induction q as [|maker rest IH]; intros b taker bp last b1 q' last';
    cbn [matchLevel].
  - intros [= <- _ _]. apply levelFrame_refl.
  - destruct (0 <? shares (deref (mm b) taker))%N; [|intros [= <- _ _]; apply levelFrame_refl].
    set (b1' := pushTrade b _ _ _ _).
    set (b2 := with_mm b1' _). set (b3 := with_mm b2 _).
    assert (levelFrame b b3) as H3.
    { eapply levelFrame_trans; [|apply levelFrame_setShares].
      eapply levelFrame_trans; [|apply levelFrame_setShares].
      by split. }
    destruct (shares (deref (mm b3) maker) =? 0)%N.
    + intros Hrec. apply IH in Hrec.
      eapply levelFrame_trans; [exact H3|].
      eapply levelFrame_trans; [|exact Hrec]. by split.
    + by intros [= <- _ _].
Qed.

Lemma oPool_setShares m a q :
  oPool (setShares m a q) =
  <[a := mkOrder (id (deref m a)) (side (deref m a)) (type (deref m a)) q
           (price (deref m a)) (stopPrice (deref m a))]> (oPool m).
Proof. done. Qed.

Lemma matchLevel_Inv st ex so q : ∀ b taker bp last T A B b1 q' last',
  InvL st (taker :: ex) T (oPool (mm b)) (fOrder (mm b)) (bookIndex b) →
  T Rest so = A ++ optL bp q ++ B →
  matchLevel b taker bp q last = (b1, q', last') →
  ∃ T', InvL st (taker :: ex) T' (oPool (mm b1)) (fOrder (mm b1)) (bookIndex b1) ∧
        T' Rest so = A ++ optL bp q' ++ B ∧
        (∀ c s, (c, s) ≠ (Rest, so) → T' c s = T c s) ∧
        (q' ≠ [] → shares (deref (mm b1) taker) = 0%N).
Proof.
  induction q as [|maker rest IH]; intros b taker bp last T A B b1 q' last' HI HT;
    cbn [matchLevel].
  { intros Heq. simplify_eq. exists T. done. }
  destruct (0 <? shares (deref (mm b) taker))%N eqn:Hpos.
  2:{ intros Heq. simplify_eq. exists T.
      split; [done|split; [done|split; [done|]]].
      intros _. apply N.ltb_ge in Hpos. lia. }
  (* the facts about the two slots *)
  assert ((bp, maker :: rest) ∈ T Rest so) as Hin.
  { rewrite HT. simpl. apply elem_of_app. right. by left. }
  assert (holds T Rest maker) as Hheld.
  { exists so, bp, (maker :: rest). split; [done|by left]. }
  assert (¬ holds T Armed maker) as Hnarmed
    by (exact (holds_sep (st := st) _ _ _ _ _ _ Rest HI Hheld)).
  assert (∀ c, ¬ holds T c taker) as Htk
    by (intros c; apply (il_free _ _ _ _ _ _ HI); by left).
  assert (taker ≠ maker) as Hne by (intros ->; by apply (Htk Rest)).
  assert (taker < length (oPool (mm b)))%nat as Hbt
    by (apply (il_bound _ _ _ _ _ _ HI); left; by left).
  assert (maker < length (oPool (mm b)))%nat as Hbm
    by (apply (il_bound _ _ _ _ _ _ HI); right; by exists Rest).
  assert (maker ∉ (taker :: ex) ++ fOrder (mm b)) as Hmf
    by (intros Hm; by apply (il_free _ _ _ _ _ _ HI _ Rest Hm)).
  destruct (il_fifo _ _ _ _ _ _ HI _ _ _ _ Hin) as [_ Hnd].
  apply NoDup_cons in Hnd as [Hmr Hnd].
  destruct (il_loc _ _ _ _ _ _ HI _ _ _ _ maker Hin (list_elem_of_here _ _))
    as (Hms & Hmk & Hmp).
  set (tk := deref (mm b) taker) in *. set (mk := deref (mm b) maker) in *.
  set (traded := (shares tk `min` shares mk)%N).
  set (b1' := pushTrade b (id tk) (id mk) traded bp).
  set (m1 := setShares (mm b1') taker (shares (deref (mm b1') taker) - traded)).
  set (b2 := with_mm b1' m1).
  set (m2 := setShares (mm b2) maker (shares (deref (mm b2) maker) - traded)).
  set (b3 := with_mm b2 m2).
  assert (deref m1 maker = mk) as Hm1m by (by apply deref_setShares_ne).
  assert (length (oPool m1) = length (oPool (mm b))) as Hl1
    by (unfold m1; rewrite oPool_setShares; apply length_insert).
  assert (shares (deref m2 taker) = (shares tk - traded)%N) as Htk2.
  { unfold m2. rewrite deref_setShares_ne by done.
    change (mm b2) with m1. unfold m1. rewrite deref_setShares_eq by done. done. }
  assert (deref m2 maker = mkOrder (id mk) (side mk) (type mk) (shares mk - traded)
                             (price mk) (stopPrice mk)) as Hm2m.
  { unfold m2. change (mm b2) with m1. rewrite deref_setShares_eq by lia.
    by rewrite Hm1m. }
  assert (InvL st (taker :: ex) T (oPool m1) (fOrder (mm b)) (bookIndex b)) as HI1.
  { unfold m1. rewrite oPool_setShares. apply InvL_write; [exact HI|done|].
    intros c s k q0 Hq0 Ht. exfalso. apply (Htk c). exists s, k, q0. done. }
  change (shares (deref (mm b3) maker) =? 0)%N
    with (shares (deref m2 maker) =? 0)%N.
  rewrite Hm2m. cbn [shares].
  destruct (N.eqb_spec (shares mk - traded) 0) as [Hz|Hnz].
  - (* the maker is filled: unlink, erase, recycle *)
    set (T2 := λ c s, if decide ((c, s) = (Rest, so))
                      then unlinkL bp maker (T Rest so) else T c s).
    destruct (InvL_del T T2 (oPool m1) (fOrder (mm b)) (taker :: ex) (bookIndex b)
                maker Rest so bp HI1) as [HI2 Hgone].
    { change (oPool m1 !!! maker) with (deref m1 maker). by rewrite Hm1m. }
    { change (oPool m1 !!! maker) with (deref m1 maker). by rewrite Hm1m. }
    { exact Hnarmed. }
    { unfold T2. by rewrite decide_True. }
    { intros c s Hcs. unfold T2. by rewrite decide_False. }
    assert (T2 Rest so = A ++ optL bp rest ++ B) as HT2.
    { unfold T2. rewrite decide_True by done. rewrite HT. simpl.
      apply unlinkL_at; [|done].
      pose proof (il_sorted _ _ _ _ _ _ HI Rest so) as Hs. by rewrite HT in Hs. }
    set (b4 := with_orderMap b3 (delete (id (deref (mm b3) maker)) (orderMap b3))).
    set (b5 := with_mm b4 (recycleOrder (mm b4) maker)).
    assert (InvL st (taker :: ex) T2 (oPool (mm b5)) (fOrder (mm b5)) (bookIndex b5))
      as HI5.
    { change (oPool (mm b5)) with (oPool m2).
      change (fOrder (mm b5)) with (maker :: fOrder (mm b)).
      assert (InvL st (taker :: ex) T2 (oPool m2) (fOrder (mm b)) (bookIndex b)) as HI3.
      { unfold m2. rewrite oPool_setShares. apply InvL_write; [exact HI2|done|].
        intros c s k q0 Hq0 Ht. exfalso. apply (Hgone c). exists s, k, q0. done. }
      assert (InvL st (taker :: ex) T2 (oPool m2) (fOrder (mm b)) (bookIndex b5)) as HI4.
      { eapply (InvL_index_delete _ _ _ _ _ _ Rest (id (deref m2 maker))); [exact HI3|done|done]. }
      apply InvL_free; auto.
      - unfold m2. rewrite oPool_setShares, length_insert. change (mm b2) with m1. lia.
      - intros c i Hi. destruct c.
        + change (delete (id (deref m2 maker)) (orderMap b) !! i = Some maker) in Hi.
          apply lookup_delete_Some in Hi as [Hne' Hi].
          destruct (il_index _ _ _ _ _ _ HI3 Rest _ _ Hi) as (Hid & _).
          apply Hne'. exact Hid.
        + change (stopOrderMap b !! i = Some maker) in Hi.
          destruct (il_index _ _ _ _ _ _ HI Armed _ _ Hi) as (_ & _ & _ & Hn).
          by apply Hn. }
    intros Hrec.
    destruct (IH b5 taker bp bp T2 A B b1 q' last' HI5 HT2 Hrec)
      as (T' & HI' & HT' & Hoth & Hq').
    exists T'. split; [done|split; [done|split; [|done]]].
    intros c s Hcs. rewrite Hoth by done. unfold T2. by rewrite decide_False.
  - (* the maker keeps a remainder: the taker is exhausted *)
    intros Heq. injection Heq as <- <- <-.
    exists T. split; [|split; [done|split; [done|]]].
    + change (oPool (mm b3)) with (oPool m2). change (fOrder (mm b3)) with (fOrder (mm b)).
      eapply InvL_proper; [done| |].
      { instantiate (1 := bookIndex b). by intros []. }
      unfold m2. rewrite oPool_setShares. apply InvL_write; [exact HI1|done|].
      intros c s k q0 Hq0 Hm. change (mm b2) with m1. rewrite Hm1m. cbn.
      destruct (il_loc _ _ _ _ _ _ HI _ _ _ _ _ Hq0 Hm) as (? & ? & ?).
      repeat split; [done|by destruct c|]. intros _ _. lia.
    + intros _. change (mm b3) with m2. rewrite Htk2. unfold traded in *. lia.
Qed.

Lemma matchLoop_eq fuel b taker sd prc lastExecutedPrice :
  matchLoop fuel b taker sd prc lastExecutedPrice =
  if (0 <? shares (deref (mm b) taker))%N then
    match (match sd with
           | Side.Buy => getMin (sellRoot b)
           | Side.Sell => getMax (buyRoot b)
           end) with
    | Null => Some (b, lastExecutedPrice)
    | Node bp bq _ _ _ =>
        if match sd with Side.Buy => prc <? bp | Side.Sell => prc >? bp end
        then Some (b, lastExecutedPrice)
        else
          match fuel with
          | O => None
          | S fuel' =>
              let '(b1, q', last') := matchLevel b taker bp bq lastExecutedPrice in
              let opp := opposite sd in
              let root1 :=
                match sd with
                | Side.Buy => updMin (λ _, q') (sellRoot b1)
                | Side.Sell => updMax (λ _, q') (buyRoot b1)
                end in
              let b2 := with_restRoot b1 opp root1 in
              let b3 :=
                match q' with
                | [] =>
                    let '(t, m) := removeLimit root1 bp (mm b2) in
                    with_mm (with_restRoot b2 opp t) m
                | _ => b2
                end in
              matchLoop fuel' b3 taker sd prc last'
          end
    end
  else Some (b, lastExecutedPrice).
Proof. by destruct fuel. Qed.

(** The tree side of one turn: the FIFO of [best] is replaced by what is
    left of it, and the level is removed when nothing is left. *)
Definition writeBack (sd : Side.t) (root : Limit) (bp : Z) (q' : list nat)
    (m : MemoryManager) : Limit * MemoryManager :=
  let root1 :=
    match sd with
    | Side.Buy => updMin (λ _, q') root
    | Side.Sell => updMax (λ _, q') root
    end in
  match q' with
  | [] => removeLimit root1 bp m
  | _ => (root1, m)
  end.

Definition bestOf (sd : Side.t) (root : Limit) : Limit :=
  match sd with Side.Buy => getMin root | Side.Sell => getMax root end.

Lemma writeBack_spec sd root bp bq l r ht q' m :
  bst root → bestOf sd root = Node bp bq l r ht →
  ∃ A B, levels root = A ++ (bp, bq) :: B ∧
         match sd with Side.Buy => A = [] | Side.Sell => B = [] end ∧
         let '(t, m') := writeBack sd root bp q' m in
         levels t = A ++ optL bp q' ++ B ∧
         oPool m' = oPool m ∧ fOrder m' = fOrder m ∧
         fLimit m' = (match q' with [] => S (fLimit m) | _ => fLimit m end).
Proof.
  intros Hb Hbest. unfold writeBack.
  destruct sd; simpl in Hbest.
  - pose proof (getMin_levels root) as Hm. rewrite Hbest in Hm.
    destruct Hm as [B HB]. exists [], B. split; [done|]. split; [done|].
    pose proof (updMin_levels (λ _, q') root bp bq B HB) as Hu.
    pose proof (updMin_bst (λ _, q') root Hb) as Hb1.
    destruct q' as [|x q'']; [|done].
    pose proof (removeLimit_spec (updMin (λ _, []) root) bp m Hb1) as Hr.
    destruct (removeLimit (updMin (λ _, []) root) bp m) as [t m'].
    destruct Hr as (H1 & H2 & H3 & H4). rewrite Hu in H1.
    rewrite ldelete_cons_eq in H1.
    assert (bp ∉ B.*1) as HnB.
    { unfold bst, keys in Hb. rewrite HB in Hb. simpl in Hb.
      apply StronglySorted_cons in Hb as [Hall _]. rewrite Forall_forall in Hall.
      intros Hin. specialize (Hall _ Hin). lia. }
    rewrite ldelete_absent in H1 by done.
    repeat split; auto. rewrite H4. rewrite decide_True; [done|].
    unfold keys. rewrite Hu. by left.
  - pose proof (getMax_levels root) as Hm. rewrite Hbest in Hm.
    destruct Hm as [A HA]. exists A, []. split; [done|]. split; [done|].
    pose proof (updMax_levels (λ _, q') root bp bq A HA) as Hu.
    pose proof (updMax_bst (λ _, q') root Hb) as Hb1.
    destruct q' as [|x q'']; [|done].
    pose proof (removeLimit_spec (updMax (λ _, []) root) bp m Hb1) as Hr.
    destruct (removeLimit (updMax (λ _, []) root) bp m) as [t m'].
    destruct Hr as (H1 & H2 & H3 & H4). rewrite Hu in H1.
    assert (bp ∉ A.*1) as HnA.
    { unfold bst, keys in Hb. rewrite HA in Hb. rewrite fmap_app in Hb.
      apply StronglySorted_app in Hb as (HAB & _ & _).
      intros Hin. specialize (HAB _ _ Hin (list_elem_of_here _ _)). simpl in HAB. lia. }
    rewrite ldelete_app, ldelete_cons_eq, ldelete_absent in H1 by done.
    simpl. repeat split; auto. rewrite H4. rewrite decide_True; [done|].
    unfold keys. rewrite Hu, fmap_app. apply elem_of_app. right. by left.
Qed.

(** What a whole run of the matching loop leaves alone. *)
Record loopFrame (sd : Side.t) (b b1 : OrderBook) : Prop := mkLoopFrame {
  pf_own : restRoot b1 sd = restRoot b sd;
  pf_sbuy : stopBuyRoot b1 = stopBuyRoot b;
  pf_ssell : stopSellRoot b1 = stopSellRoot b;
  pf_smap : stopOrderMap b1 = stopOrderMap b;
  pf_checks : stopChecks b1 = stopChecks b;
  pf_gen : generatedIdCounter b1 = generatedIdCounter b;
  pf_flimit : (fLimit (mm b) ≤ fLimit (mm b1))%nat;
  pf_len : length (oPool (mm b1)) = length (oPool (mm b));
  pf_fields : ∀ x,
    id (deref (mm b1) x) = id (deref (mm b) x) ∧
    side (deref (mm b1) x) = side (deref (mm b) x) ∧
    type (deref (mm b1) x) = type (deref (mm b) x) ∧
    price (deref (mm b1) x) = price (deref (mm b) x) ∧
    stopPrice (deref (mm b1) x) = stopPrice (deref (mm b) x)
}.

Lemma loopFrame_refl sd b : loopFrame sd b b.
Proof. by split. Qed.

Lemma loopFrame_trans sd b1 b2 b3 :
  loopFrame sd b1 b2 → loopFrame sd b2 b3 → loopFrame sd b1 b3.
Proof.
  intros [] []. split; try congruence; try lia.
  intros x. destruct (pf_fields0 x) as (?&?&?&?&?).
  destruct (pf_fields1 x) as (?&?&?&?&?). repeat split; congruence.
Qed.

Definition crossFails (sd : Side.t) (prc bp : Z) : bool :=
  match sd with Side.Buy => prc <? bp | Side.Sell => prc >? bp end.

Lemma matchLoop_unfold fuel b taker sd prc lastExecutedPrice :
  matchLoop fuel b taker sd prc lastExecutedPrice =
  if (0 <? shares (deref (mm b) taker))%N then
    match bestOf sd (restRoot b (opposite sd)) with
    | Null => Some (b, lastExecutedPrice)
    | Node bp bq _ _ _ =>
        if crossFails sd prc bp then Some (b, lastExecutedPrice)
        else
          match fuel with
          | O => None
          | S fuel' =>
              let '(b1, q', last') := matchLevel b taker bp bq lastExecutedPrice in
              let '(t, m') := writeBack sd (restRoot b1 (opposite sd)) bp q' (mm b1) in
              matchLoop fuel' (with_mm (with_restRoot b1 (opposite sd) t) m')
                taker sd prc last'
          end
    end
  else Some (b, lastExecutedPrice).
Proof.
  rewrite matchLoop_eq.
  destruct (0 <? shares (deref (mm b) taker))%N; [|done].
  destruct sd; simpl.
  - destruct (getMin (sellRoot b)) as [|bp bq l r ht]; [done|].
    destruct (prc <? bp); [done|]. destruct fuel as [|fuel']; [done|].
    destruct (matchLevel b taker bp bq lastExecutedPrice) as [[b1 q'] last'].
    unfold writeBack. destruct q' as [|x q'']; [|done]. simpl.
    by destruct (removeLimit _ _ _).
  - destruct (getMax (buyRoot b)) as [|bp bq l r ht]; [done|].
    destruct (prc >? bp); [done|]. destruct fuel as [|fuel']; [done|].
    destruct (matchLevel b taker bp bq lastExecutedPrice) as [[b1 q'] last'].
    unfold writeBack. destruct q' as [|x q'']; [|done]. simpl.
    by destruct (removeLimit _ _ _).
Qed.

(** One turn of the outer loop: the FIFO of [best] is matched, written
    back, and the level removed when it is empty. *)
Lemma matchTurn_Inv st ex taker sd b bp bq l r ht last b1 q' last' t m' :
  Inv st (taker :: ex) b →
  bestOf sd (restRoot b (opposite sd)) = Node bp bq l r ht →
  matchLevel b taker bp bq last = (b1, q', last') →
  writeBack sd (restRoot b1 (opposite sd)) bp q' (mm b1) = (t, m') →
  let b3 := with_mm (with_restRoot b1 (opposite sd) t) m' in
  Inv st (taker :: ex) b3 ∧ loopFrame sd b b3 ∧
  (∃ A B, levels (restRoot b (opposite sd)) = A ++ (bp, bq) :: B ∧
          levels (restRoot b3 (opposite sd)) = A ++ optL bp q' ++ B ∧
          match sd with Side.Buy => A = [] | Side.Sell => B = [] end) ∧
  bq ≠ [] ∧
  (q' ≠ [] → shares (deref (mm b3) taker) = 0%N) ∧
  oPool (mm b3) = oPool (mm b1) ∧ fOrder (mm b3) = fOrder (mm b1) ∧
  fLimit (mm b3) = (match q' with [] => S (fLimit (mm b)) | _ => fLimit (mm b) end).
Proof.
  intros HI Hbest Hml Hwb. set (so := opposite sd) in *.
  pose proof (Inv_bst _ _ _ Rest so HI) as Hb. simpl in Hb.
  pose proof (matchLevel_frame _ _ _ _ _ _ _ _ Hml) as Hfr.
  assert (restRoot b1 so = restRoot b so) as Hroot.
  { unfold so. destruct sd; simpl; [apply (lf_sell _ _ Hfr)|apply (lf_buy _ _ Hfr)]. }
  rewrite Hroot in Hwb.
  destruct (writeBack_spec sd (restRoot b so) bp bq l r ht q' (mm b1) Hb Hbest)
    as (A & B & HAB & Hsd & Hsp).
  rewrite Hwb in Hsp. destruct Hsp as (Ht & Hp & Hf & Hfl).
  assert (bq ≠ []) as Hbq.
  { eapply (il_fifo _ _ _ _ _ _ HI Rest so bp). unfold bookLevels. simpl.
    rewrite HAB. apply elem_of_app. right. by left. }
  destruct (matchLevel_Inv st ex so bq b taker bp last (bookLevels b) A B b1 q' last'
              HI) as (T' & HI' & HT' & Hoth & Hq'); [|done|].
  { unfold bookLevels at 1. simpl. rewrite HAB. by destruct bq. }
  intros b3.
  assert (levels (restRoot b3 so) = A ++ optL bp q' ++ B) as Hl3.
  { unfold b3. change (with_restRoot b1 so t) with (with_bookTree b1 Rest so t).
    change (restRoot ?bk so) with (bookTree bk Rest so).
    by rewrite bookTree_with_mm, bookTree_with_same. }
  split; [|split; [|split; [|split; [|split; [|split; [|split]]]]]].
  - unfold Inv. change (mm b3) with m'. rewrite Hp, Hf.
    eapply InvL_proper; [| |exact HI'].
    + intros c s. unfold b3. rewrite bookLevels_with_mm.
      change (with_restRoot b1 so t) with (with_bookTree b1 Rest so t).
      destruct (decide ((c, s) = (Rest, so))) as [[= -> ->]|Hne].
      * rewrite bookLevels_with_same. by rewrite HT'.
      * rewrite bookLevels_with_other by done. rewrite Hoth by done.
        unfold bookLevels. destruct Hfr. by destruct c, s; simpl; congruence.
    + intros c. unfold b3. rewrite bookIndex_with_mm.
      change (with_restRoot b1 so t) with (with_bookTree b1 Rest so t).
      by rewrite bookIndex_with_bookTree.
  - destruct Hfr. split; try done.
    + unfold b3, so. by destruct sd.
    + unfold b3, so. by destruct sd.
    + unfold b3, so. by destruct sd.
    + unfold b3, so. by destruct sd.
    + unfold b3, so. by destruct sd.
    + unfold b3, so. by destruct sd.
    + unfold b3. simpl. rewrite Hfl. destruct q'; lia.
    + unfold b3. simpl. by rewrite Hp.
    + intros x. unfold b3. simpl. unfold deref. rewrite Hp. apply lf_fields0.
  - exists A, B. done.
  - done.
  - intros Hne. unfold b3. simpl. unfold deref. rewrite Hp. by apply Hq'.
  - done.
  - done.
  - change (mm b3) with m'. rewrite Hfl, (lf_flimit _ _ Hfr). done.
Qed.

Lemma matchLoop_Inv st ex taker sd prc : ∀ fuel b last,
  Inv st (taker :: ex) b → (nodes (restRoot b (opposite sd)) ≤ fuel)%nat →
  ∃ b1 last', matchLoop fuel b taker sd prc last = Some (b1, last') ∧
              Inv st (taker :: ex) b1 ∧ loopFrame sd b b1.
Proof.
  induction fuel as [|fuel IH]; intros b last HI Hfuel; rewrite matchLoop_unfold.
  - destruct (0 <? shares (deref (mm b) taker))%N;
      [|exists b, last; auto using loopFrame_refl].
    assert (restRoot b (opposite sd) = Null) as ->
      by (destruct (restRoot b (opposite sd)); [done|simpl in Hfuel; lia]).
    destruct sd; simpl; exists b, last; auto using loopFrame_refl.
  - destruct (0 <? shares (deref (mm b) taker))%N eqn:Hpos;
      [|exists b, last; auto using loopFrame_refl].
    destruct (bestOf sd (restRoot b (opposite sd))) as [|bp bq l r ht] eqn:Hbest;
      [exists b, last; auto using loopFrame_refl|].
    destruct (crossFails sd prc bp); [exists b, last; auto using loopFrame_refl|].
    destruct (matchLevel b taker bp bq last) as [[b1 q'] last'] eqn:Hml.
    destruct (writeBack sd (restRoot b1 (opposite sd)) bp q' (mm b1)) as [t m'] eqn:Hwb.
    destruct (matchTurn_Inv st ex taker sd b bp bq l r ht last b1 q' last' t m'
                HI Hbest Hml Hwb) as (HI3 & Hf3 & (A & B & HAB & Hl3 & _) & _ & Hq' & _).
    set (b3 := with_mm (with_restRoot b1 (opposite sd) t) m') in *.
    destruct q' as [|x q''].
    + destruct (IH b3 last' HI3) as (b4 & last4 & Hrun & HI4 & Hf4).
      { rewrite nodes_levels, Hl3. rewrite nodes_levels, HAB in Hfuel.
        rewrite !length_app in *. simpl in *. lia. }
      exists b4, last4. split; [done|]. split; [done|].
      eapply loopFrame_trans; eauto.
    + exists b3, last'. split; [|done].
      rewrite matchLoop_unfold.
      assert (shares (deref (mm b3) taker) = 0%N) as ->; [|done].
      by apply Hq'.
Qed.

(** * The stop-trigger pass *)

(** The descriptor pushed for a triggered stop. *)
Definition descriptor (m : MemoryManager) (o : nat) : TriggeredStop :=
  let r := deref m o in
  mkTriggered (id r) (side r)
    (if decide (type r = OrderType.Stop) then OrderType.Market else OrderType.Limit)
    (shares r) (price r).

(** What [checkStopOrders] leaves alone. *)
Record stopFrame (b b1 : OrderBook) : Prop := mkStopFrame {
  tf_buy : buyRoot b1 = buyRoot b;
  tf_sell : sellRoot b1 = sellRoot b;
  tf_omap : orderMap b1 = orderMap b;
  tf_pool : oPool (mm b1) = oPool (mm b);
  tf_trades : tradeBuffer b1 = tradeBuffer b;
  tf_time : timestampCounter b1 = timestampCounter b;
  tf_gen : generatedIdCounter b1 = generatedIdCounter b;
  tf_checks : stopChecks b1 = stopChecks b;
  tf_flimit : (fLimit (mm b) ≤ fLimit (mm b1))%nat
}.

Lemma stopFrame_refl b : stopFrame b b.
Proof. by split. Qed.

Lemma stopFrame_trans b1 b2 b3 : stopFrame b1 b2 → stopFrame b2 b3 → stopFrame b1 b3.
Proof. intros [] []. split; try congruence; lia. Qed.

Lemma collectStops_spec q : ∀ b triggered,
  let '(b1, triggered') := collectStops b q triggered in
  triggered' = triggered ++ (descriptor (mm b) <$> q) ∧
  fOrder (mm b1) = rev q ++ fOrder (mm b) ∧
  fLimit (mm b1) = fLimit (mm b) ∧
  stopBuyRoot b1 = stopBuyRoot b ∧ stopSellRoot b1 = stopSellRoot b ∧
  stopFrame b b1.
Proof.
  induction q as [|a q IH]; intros b triggered; cbn [collectStops].
  - rewrite app_nil_r. repeat split; done.
  - set (b1 := with_stopOrderMap b _). set (b2 := with_mm b1 _).
    specialize (IH b2 (triggered ++ [descriptor (mm b) a])).
    change (triggered ++ [_]) with (triggered ++ [descriptor (mm b) a]).
    destruct (collectStops b2 q (triggered ++ [descriptor (mm b) a])) as [b3 trig3].
    destruct IH as (H1 & H2 & H3 & H4 & H5 & H6).
    split; [|split; [|split; [|split; [|split]]]].
    + rewrite H1. rewrite <- app_assoc. done.
    + rewrite H2. simpl. by rewrite <- app_assoc.
    + by rewrite H3.
    + by rewrite H4.
    + by rewrite H5.
    + eapply stopFrame_trans; [|exact H6]. by split.
Qed.

Lemma collectStops_Inv st ex s hp q : ∀ b triggered T A B b1 triggered',
  InvL st ex T (oPool (mm b)) (fOrder (mm b)) (bookIndex b) →
  T Armed s = A ++ optL hp q ++ B →
  collectStops b q triggered = (b1, triggered') →
  ∃ T', InvL st ex T' (oPool (mm b1)) (fOrder (mm b1)) (bookIndex b1) ∧
        T' Armed s = A ++ B ∧
        (∀ c s', (c, s') ≠ (Armed, s) → T' c s' = T c s').
Proof.
  induction q as [|a q IH]; intros b triggered T A B b1 triggered' HI HT;
    cbn [collectStops].
  { intros Heq. injection Heq as <- <-. exists T. done. }
  assert ((hp, a :: q) ∈ T Armed s) as Hin.
  { rewrite HT. simpl. apply elem_of_app. right. by left. }
  assert (holds T Armed a) as Hheld.
  { exists s, hp, (a :: q). split; [done|by left]. }
  assert (¬ holds T Rest a) as Hnrest
    by (exact (holds_sep (st := st) _ _ _ _ _ _ Armed HI Hheld)).
  destruct (il_fifo _ _ _ _ _ _ HI _ _ _ _ Hin) as [_ Hnd].
  apply NoDup_cons in Hnd as [Har Hnd].
  destruct (il_loc _ _ _ _ _ _ HI _ _ _ _ a Hin (list_elem_of_here _ _))
    as (Has & Hak & _).
  set (T2 := λ c s', if decide ((c, s') = (Armed, s))
                     then unlinkL hp a (T Armed s) else T c s').
  destruct (InvL_del T T2 (oPool (mm b)) (fOrder (mm b)) ex (bookIndex b)
              a Armed s hp HI Has Hak Hnrest) as [HI2 Hgone].
  { unfold T2. by rewrite decide_True. }
  { intros c s' Hcs. unfold T2. by rewrite decide_False. }
  assert (T2 Armed s = A ++ optL hp q ++ B) as HT2.
  { unfold T2. rewrite decide_True by done. rewrite HT. simpl.
    apply unlinkL_at; [|done].
    pose proof (il_sorted _ _ _ _ _ _ HI Armed s) as Hs. by rewrite HT in Hs. }
  set (b2 := with_stopOrderMap b (delete (id (deref (mm b) a)) (stopOrderMap b))).
  set (b3 := with_mm b2 (recycleOrder (mm b2) a)).
  assert (InvL st ex T2 (oPool (mm b3)) (fOrder (mm b3)) (bookIndex b3)) as HI3.
  { change (oPool (mm b3)) with (oPool (mm b)).
    change (fOrder (mm b3)) with (a :: fOrder (mm b)).
    assert (InvL st ex T2 (oPool (mm b)) (fOrder (mm b)) (bookIndex b3)) as HI4.
    { eapply (InvL_index_delete _ _ _ _ _ _ Armed (id (deref (mm b) a)));
        [exact HI2|done|done]. }
    apply InvL_free; auto.
    - intros Hm. by apply (il_free _ _ _ _ _ _ HI _ Armed Hm).
    - apply (il_bound _ _ _ _ _ _ HI). right. by exists Armed.
    - intros c i Hi. destruct c.
      + change (orderMap b !! i = Some a) in Hi.
        destruct (il_index _ _ _ _ _ _ HI Rest _ _ Hi) as (_ & _ & _ & Hn).
        by apply Hn.
      + change (delete (id (deref (mm b) a)) (stopOrderMap b) !! i = Some a) in Hi.
        apply lookup_delete_Some in Hi as [Hne' Hi].
        destruct (il_index _ _ _ _ _ _ HI Armed _ _ Hi) as (Hid & _).
        apply Hne'. exact Hid. }
  intros Hrec.
  destruct (IH b3 _ T2 A B b1 triggered' HI3 HT2 Hrec) as (T' & HI' & HT' & Hoth).
  exists T'. split; [done|split; [done|]].
  intros c s' Hcs. rewrite Hoth by done. unfold T2. by rewrite decide_False.
Qed.

Lemma ldelete_at A B hp hq :
  StronglySorted Z.lt (A ++ (hp, hq) :: B).*1 →
  ldelete hp (A ++ (hp, hq) :: B) = A ++ B.
Proof.
  intros Hs. rewrite fmap_app, fmap_cons in Hs. cbn [fst] in Hs.
  apply StronglySorted_app in Hs as (HAB & HA & HB).
  apply StronglySorted_cons in HB as [HB1 HB].
  rewrite ldelete_app, ldelete_cons_eq, !ldelete_absent; [done| |].
  - intros Hin. rewrite Forall_forall in HB1. specialize (HB1 _ Hin). lia.
  - intros Hin. specialize (HAB _ _ Hin (list_elem_of_here _ _)). lia.
Qed.

(** One turn of either loop of [checkStopOrders]: the FIFO of a level is
    collected and the level removed. *)
Lemma stopTurn_Inv st ex b s hp hq A B triggered :
  Inv st ex b → levels (stopRoot b s) = A ++ (hp, hq) :: B →
  let '(b1, triggered') := collectStops b hq triggered in
  let '(t, m) := removeLimit (stopRoot b1 s) hp (mm b1) in
  let b' := with_mm (with_stopRoot b1 s t) m in
  Inv st ex b' ∧ levels (stopRoot b' s) = A ++ B ∧
  stopRoot b' (opposite s) = stopRoot b (opposite s) ∧ stopFrame b b'.
Proof.
  intros HI HAB.
  pose proof (collectStops_spec hq b triggered) as Hsp.
  destruct (collectStops b hq triggered) as [b1 triggered'] eqn:Hcs.
  destruct Hsp as (_ & Hfo & Hfl & Hsb & Hss & Hfr).
  assert (stopRoot b1 s = stopRoot b s) as Hroot by (by destruct s).
  rewrite Hroot.
  pose proof (Inv_bst _ _ _ Armed s HI) as Hb. simpl in Hb.
  pose proof (removeLimit_spec (stopRoot b s) hp (mm b1) Hb) as Hr.
  destruct (removeLimit (stopRoot b s) hp (mm b1)) as [t m].
  destruct Hr as (Ht & Hp & Hf & Hfl').
  assert (hq ≠ []) as Hq.
  { eapply (il_fifo _ _ _ _ _ _ HI Armed s hp). unfold bookLevels. simpl.
    rewrite HAB. apply elem_of_app. right. by left. }
  destruct (collectStops_Inv st ex s hp hq b triggered (bookLevels b) A B b1 triggered'
              HI) as (T' & HI' & HT' & Hoth); [|done|].
  { unfold bookLevels at 1. simpl. rewrite HAB. by destruct hq. }
  assert (levels t = A ++ B) as Ht'.
  { rewrite Ht, HAB. apply ldelete_at. unfold bst, keys in Hb. by rewrite HAB in Hb. }
  split; [|split; [|split]].
  - unfold Inv. simpl. rewrite Hp, Hf.
    eapply InvL_proper; [| |exact HI'].
    + intros c s'. rewrite bookLevels_with_mm.
      change (with_stopRoot b1 s t) with (with_bookTree b1 Armed s t).
      destruct (decide ((c, s') = (Armed, s))) as [[= -> ->]|Hne].
      * rewrite bookLevels_with_same. by rewrite HT'.
      * rewrite bookLevels_with_other by done. rewrite Hoth by done.
        unfold bookLevels. destruct Hfr. by destruct c, s'; simpl; congruence.
    + intros c. rewrite bookIndex_with_mm.
      change (with_stopRoot b1 s t) with (with_bookTree b1 Armed s t).
      by rewrite bookIndex_with_bookTree.
  - by destruct s.
  - by destruct s.
  - destruct Hfr. split; try done; simpl.
    + by destruct s.
    + by destruct s.
    + by destruct s.
    + by rewrite Hp.
    + by destruct s.
    + by destruct s.
    + by destruct s.
    + by destruct s.
    + rewrite Hfl'. case_decide; lia.
Qed.

Lemma stopLoopSell_Inv st ex executedPrice : ∀ fuel b triggered,
  Inv st ex b → (nodes (stopSellRoot b) ≤ fuel)%nat →
  ∃ b1 triggered', stopLoopSell fuel b executedPrice triggered = Some (b1, triggered') ∧
                   Inv st ex b1 ∧ stopFrame b b1.
Proof.
  induction fuel as [|fuel IH]; intros b triggered HI Hfuel.
  - assert (stopSellRoot b = Null) as Hn
      by (destruct (stopSellRoot b); [done|simpl in Hfuel; lia]).
    exists b, triggered. simpl. rewrite Hn. simpl. auto using stopFrame_refl.
  - cbn [stopLoopSell].
    pose proof (getMax_levels (stopSellRoot b)) as Hm.
    destruct (getMax (stopSellRoot b)) as [|hp hq l r ht];
      [exists b, triggered; auto using stopFrame_refl|].
    destruct (executedPrice <=? hp); [|exists b, triggered; auto using stopFrame_refl].
    destruct Hm as [A HA].
    pose proof (stopTurn_Inv st ex b Side.Sell hp hq A [] triggered HI HA) as Ht.
    destruct (collectStops b hq triggered) as [b1 triggered1].
    simpl in Ht. destruct (removeLimit (stopSellRoot b1) hp (mm b1)) as [t m].
    destruct Ht as (HI' & Hlv & _ & Hfr).
    destruct (IH _ triggered1 HI') as (b2 & trig2 & Hrun & HI2 & Hfr2).
    { simpl. simpl in Hlv. rewrite nodes_levels, Hlv.
      rewrite nodes_levels, HA in Hfuel. rewrite length_app in *. simpl in *. lia. }
    exists b2, trig2. split; [done|]. split; [done|].
    eapply stopFrame_trans; eauto.
Qed.

Lemma stopLoopBuy_Inv st ex executedPrice : ∀ fuel b triggered,
  Inv st ex b → (nodes (stopBuyRoot b) ≤ fuel)%nat →
  ∃ b1 triggered', stopLoopBuy fuel b executedPrice triggered = Some (b1, triggered') ∧
                   Inv st ex b1 ∧ stopFrame b b1.
Proof.
  induction fuel as [|fuel IH]; intros b triggered HI Hfuel.
  - assert (stopBuyRoot b = Null) as Hn
      by (destruct (stopBuyRoot b); [done|simpl in Hfuel; lia]).
    exists b, triggered. simpl. rewrite Hn. simpl. auto using stopFrame_refl.
  - cbn [stopLoopBuy].
    pose proof (getMin_levels (stopBuyRoot b)) as Hm.
    destruct (getMin (stopBuyRoot b)) as [|lp lq l r ht];
      [exists b, triggered; auto using stopFrame_refl|].
    destruct (executedPrice >=? lp); [|exists b, triggered; auto using stopFrame_refl].
    destruct Hm as [B HB].
    pose proof (stopTurn_Inv st ex b Side.Buy lp lq [] B triggered HI HB) as Ht.
    destruct (collectStops b lq triggered) as [b1 triggered1].
    simpl in Ht. destruct (removeLimit (stopBuyRoot b1) lp (mm b1)) as [t m].
    destruct Ht as (HI' & Hlv & _ & Hfr).
    destruct (IH _ triggered1 HI') as (b2 & trig2 & Hrun & HI2 & Hfr2).
    { simpl. simpl in Hlv. rewrite nodes_levels, Hlv.
      rewrite nodes_levels, HB in Hfuel. simpl in *. lia. }
    exists b2, trig2. split; [done|]. split; [done|].
    eapply stopFrame_trans; eauto.
Qed.

Lemma checkStopOrders_Inv st ex b executedPrice executedSide triggered :
  Inv st ex b →
  ∃ b1 triggered',
    checkStopOrders b executedPrice executedSide triggered = Some (b1, triggered') ∧
    Inv st ex b1 ∧
    buyRoot b1 = buyRoot b ∧ sellRoot b1 = sellRoot b ∧ orderMap b1 = orderMap b ∧
    oPool (mm b1) = oPool (mm b) ∧ tradeBuffer b1 = tradeBuffer b ∧
    generatedIdCounter b1 = generatedIdCounter b ∧
    stopChecks b1 = stopChecks b ++ [(executedPrice, executedSide)] ∧
    (fLimit (mm b) ≤ fLimit (mm b1))%nat.
Proof.
  intros HI. unfold checkStopOrders.
  set (b0 := logStopCheck b executedPrice executedSide).
  assert (Inv st ex b0) as HI0.
  { eapply Inv_sameView; [|exact HI]. split; [done|]. split; [done|].
    split; [done|]. by intros []. }
  destruct executedSide.
  - destruct (stopLoopBuy_Inv st ex executedPrice (nodes (stopBuyRoot b0)) b0
                triggered HI0) as (b1 & t1 & Hrun & HI1 & Hfr); [done|].
    exists b1, t1. destruct Hfr. split; [done|]. split; [exact HI1|].
    repeat split; done.
  - destruct (stopLoopSell_Inv st ex executedPrice (nodes (stopSellRoot b0)) b0
                triggered HI0) as (b1 & t1 & Hrun & HI1 & Hfr); [done|].
    exists b1, t1. destruct Hfr. split; [done|]. split; [exact HI1|].
    repeat split; done.
Qed.

(** * processOrderInternal keeps the invariant and returns *)

(** The loop over [triggeredStops] at the end of [processOrderInternal]. *)
Definition resubmitAll (depth : nat) (start : option OrderBook)
    (triggeredStops : list TriggeredStop) : option OrderBook :=
  foldl
    (λ (acc : option OrderBook) (ts : TriggeredStop),
       match acc with
       | None => None
       | Some bk =>
           let '(newId, bk') := nextGeneratedId bk in
           processOrderInternal depth bk' newId (tside ts)
             (convertToType ts) (tshares ts) (limitPrice ts) 0 false
       end) start triggeredStops.

Lemma processOrderInternal_unfold depth b i sd ty q prc stopPrc checkStops :
  processOrderInternal (S depth) b i sd ty q prc stopPrc checkStops =
  if isStopType ty then
    match getOrder (mm b) i sd ty q prc stopPrc with
    | None => Some b
    | Some (stopOrder, m1) =>
        let '(t, m2, found) := placeOrder (stopRoot b sd) stopPrc stopOrder m1 in
        let b1 := with_mm (with_stopRoot b sd t) m2 in
        if found then
          Some (with_stopOrderMap b1 (<[i := stopOrder]> (stopOrderMap b1)))
        else Some b1
    end
  else
    match getOrder (mm b) i sd ty q prc stopPrc with
    | None => Some b
    | Some (taker, m1) =>
        match matchLoop (nodes (restRoot b (opposite sd))) (with_mm b m1)
                taker sd prc 0 with
        | None => None
        | Some (b1, lastExecutedPrice) =>
            match
              (if checkStops && (lastExecutedPrice >? 0)
               then checkStopOrders b1 lastExecutedPrice sd []
               else Some (b1, []))
            with
            | None => None
            | Some (b2, triggeredStops) =>
                if (0 <? shares (deref (mm b2) taker))%N
                   && bool_decide (ty = OrderType.Limit) then
                  let '(t, m2, found) := placeOrder (restRoot b2 sd) prc taker (mm b2) in
                  let b3 := with_mm (with_restRoot b2 sd t) m2 in
                  if found then
                    resubmitAll depth
                      (Some (with_orderMap b3 (<[i := taker]> (orderMap b3))))
                      triggeredStops
                  else Some b3
                else
                  resubmitAll depth
                    (Some (with_mm b2 (recycleOrder (mm b2) taker))) triggeredStops
            end
        end
    end.
Proof. done. Qed.

Lemma resubmitAll_cons depth b ts rest :
  resubmitAll depth (Some b) (ts :: rest) =
  resubmitAll depth
    (processOrderInternal depth (nextGeneratedId b).2 (nextGeneratedId b).1
       (tside ts) (convertToType ts) (tshares ts) (limitPrice ts) 0 false) rest.
Proof. done. Qed.


Lemma Inv_nextGeneratedId st ex b : Inv st ex b → Inv st ex (nextGeneratedId b).2.
Proof.
  intros HI. eapply Inv_sameView; [|exact HI].
  split; [done|]. split; [done|]. split; [done|]. by intros [].
Qed.

Section process.
Context {st : bool}.

(** Placing a freshly allocated, in-flight order and indexing it. *)
Lemma Inv_place_inflight b c s key a i t m' found :
  Inv st [a] b →
  id (deref (mm b) a) = i → side (deref (mm b) a) = s →
  keyOf c (deref (mm b) a) = key →
  (c = Rest → st = true → (0 < shares (deref (mm b) a))%N) →
  placeOrder (bookTree b c s) key a (mm b) = (t, m', found) →
  let b1 := with_mm (with_bookTree b c s t) m' in
  Inv st [] (if found then with_bookIndex b1 c (<[i := a]> (bookIndex b1 c)) else b1).
Proof.
  intros HI Hid Hs Hk Hpos Hpl b1.
  destruct (inflight_dangling _ _ _ HI) as (Hh & Hix & Hf & Hb).
  apply Inv_drop in HI.
  destruct (Inv_place [] b c s key a t m' found HI Hh Hf Hb Hs Hk Hpos
              (λ j, Hix (otherCat c) j) Hpl) as (HI1 & Hheld & Hp & Hfo).
  fold b1 in HI1. destruct found; [|done].
  unfold Inv. rewrite bookLevels_with_bookIndex, mm_with_bookIndex.
  eapply (InvL_index_insert _ _ _ _ _ _ c i a); [exact HI1|..].
  - unfold b1. simpl. rewrite Hp. exact Hid.
  - unfold b1. simpl. by rewrite Hp.
  - unfold b1. simpl. by rewrite Hfo.
  - unfold b1. rewrite bookLevels_with_mm.
    eapply (holds_sep (st := st)).
    + unfold Inv in HI1. unfold b1 in HI1. rewrite bookLevels_with_mm in HI1.
      exact HI1.
    + by apply Hheld.
  - intros j. unfold b1. rewrite bookIndex_with_mm, bookIndex_with_bookTree.
    apply Hix.
  - by rewrite bookIndex_with_same.
  - by rewrite bookIndex_with_other.
Qed.

Section with_reentry.
Variable depth : nat.
Variable checkStops : bool.
Hypothesis reentry :
  checkStops = true →
  ∀ b i sd ty q prc sp, Inv st [] b →
    ∃ b', processOrderInternal depth b i sd ty q prc sp false = Some b' ∧
          Inv st [] b'.

Lemma resubmitAll_Inv triggeredStops : ∀ b,
  (checkStops = false → triggeredStops = []) → Inv st [] b →
  ∃ b', resubmitAll depth (Some b) triggeredStops = Some b' ∧ Inv st [] b'.
Proof.
  induction triggeredStops as [|ts rest IH]; intros b Hcs HI.
  - exists b. done.
  - destruct checkStops eqn:Hc; [|by specialize (Hcs eq_refl)].
    rewrite resubmitAll_cons.
    destruct (reentry eq_refl (nextGeneratedId b).2 (nextGeneratedId b).1
                (tside ts) (convertToType ts) (tshares ts) (limitPrice ts) 0
                (Inv_nextGeneratedId _ _ _ HI)) as (b' & Hrun & HI').
    rewrite Hrun. apply IH; [done|exact HI'].
Qed.

Lemma processOrderInternal_step b i sd ty q prc sp :
  Inv st [] b →
  ∃ b', processOrderInternal (S depth) b i sd ty q prc sp checkStops = Some b' ∧
        Inv st [] b'.
Proof.
  intros HI. rewrite processOrderInternal_unfold.
  destruct (getOrder (mm b) i sd ty q prc sp) as [[a m1]|] eqn:Hg.
  2:{ destruct (isStopType ty); exists b; done. }
  destruct (Inv_getOrder (st := st) [] b i sd ty q prc sp a m1 HI Hg)
    as (HI0 & Hrec & Hfl & Hfo).
  destruct (isStopType ty) eqn:Hty.
  - (* arming a stop *)
    destruct (placeOrder (stopRoot b sd) sp a m1) as [[t m2] found] eqn:Hpl.
    pose proof (Inv_place_inflight (with_mm b m1) Armed sd sp a i t m2 found HI0)
      as Hpi. simpl in Hpi. rewrite Hrec in Hpi.
    assert (stopRoot (with_mm b m1) sd = stopRoot b sd) as Hsr by (by destruct sd).
    rewrite Hsr in Hpi. specialize (Hpi eq_refl eq_refl eq_refl (λ H, ltac:(done)) Hpl).
    replace (with_stopRoot (with_mm b m1) sd t) with (with_mm (with_stopRoot b sd t) m1)
      in Hpi by (by destruct sd).
    destruct found; eexists; (split; [done|]); exact Hpi.
  - (* matching *)
    destruct (matchLoop_Inv st [] a sd prc (nodes (restRoot b (opposite sd)))
                (with_mm b m1) 0 HI0) as (b1 & last & Hml & HI1 & Hfr1).
    { by destruct sd. }
    rewrite Hml.
    assert (∃ b2 trig,
              (if checkStops && (last >? 0)
               then checkStopOrders b1 last sd []
               else Some (b1, [])) = Some (b2, trig) ∧
              Inv st [a] b2 ∧ oPool (mm b2) = oPool (mm b1) ∧
              (checkStops = false → trig = [])) as (b2 & trig & Hcs & HI2 & Hp2 & Htr).
    { destruct (checkStops && (last >? 0)) eqn:Hc.
      - destruct (checkStopOrders_Inv st [a] b1 last sd [] HI1)
          as (b2 & trig & Hrun & HI2 & _ & _ & _ & Hp & _).
        exists b2, trig. split; [done|]. split; [done|]. split; [done|].
        intros ->. done.
      - exists b1, []. done. }
    rewrite Hcs.
    assert (deref (mm b2) a = deref (mm b1) a) as Hd2
      by (unfold deref; by rewrite Hp2).
    destruct (pf_fields _ _ _ Hfr1 a) as (Hid & Hsd & _ & Hpr & _).
    simpl in Hid, Hsd, Hpr. rewrite Hrec in Hid, Hsd, Hpr. simpl in Hid, Hsd, Hpr.
    destruct ((0 <? shares (deref (mm b2) a))%N && bool_decide (ty = OrderType.Limit))
      eqn:Hres.
    + apply andb_true_iff in Hres as [Hpos _]. apply N.ltb_lt in Hpos.
      destruct (placeOrder (restRoot b2 sd) prc a (mm b2)) as [[t m2] found] eqn:Hpl.
      pose proof (Inv_place_inflight b2 Rest sd prc a i t m2 found HI2) as Hpi.
      simpl in Hpi. rewrite Hd2, Hid, Hsd, Hpr in Hpi.
      rewrite <- Hd2 in Hpi.
      specialize (Hpi eq_refl eq_refl eq_refl (λ _ _, Hpos) Hpl).
      destruct found.
      * apply resubmitAll_Inv; [done|exact Hpi].
      * eexists. split; [done|exact Hpi].
    + apply resubmitAll_Inv; [done|].
      by apply Inv_recycle_inflight.
Qed.
End with_reentry.

Lemma processOrderInternal_noStops depth b i sd ty q prc sp :
  Inv st [] b →
  ∃ b', processOrderInternal (S depth) b i sd ty q prc sp false = Some b' ∧
        Inv st [] b'.
Proof. apply processOrderInternal_step. done. Qed.

Lemma processOrder_Inv b i sd ty q prc sp :
  Inv st [] b →
  ∃ b', processOrder b i sd ty q prc sp = Some b' ∧ Inv st [] b'.
Proof.
  apply processOrderInternal_step. intros _.
  apply processOrderInternal_noStops.
Qed.
End process.

(** * Reachable states *)

(** The states of an engine built on [MemoryManager(n)], driven through the
    three public entry points.  [okQty] restricts the quantities passed to
    [modifyOrder]. *)
Inductive reachable (okQty : N → Prop) (n : nat) : OrderBook → Prop :=
| reach_init : reachable okQty n (newOrderBook (newMemoryManager n))
| reach_submit b i sd ty q prc sp b' :
    reachable okQty n b → processOrder b i sd ty q prc sp = Some b' →
    reachable okQty n b'
| reach_cancel b i :
    reachable okQty n b → reachable okQty n (cancelOrder b i).2
| reach_modify b i q p :
    reachable okQty n b → okQty q → reachable okQty n (modifyOrder b i q p).2.

Definition anyQty : N → Prop := λ _, True.

Lemma Inv_init st n : Inv st [] (newOrderBook (newMemoryManager n)).
Proof.
  split.
  - intros [] []; constructor.
  - intros [] [] k q H; by apply elem_of_nil in H.
  - intros [] [] k q a H; by apply elem_of_nil in H.
  - intros a ([] & k & q & H & _); by apply elem_of_nil in H.
  - intros a c _ ([] & k & q & H & _); destruct c; by apply elem_of_nil in H.
  - simpl. apply NoDup_seq.
  - intros a [Ha|[c ([] & k & q & H & _)]];
      try (destruct c; by apply elem_of_nil in H).
    simpl in *. rewrite length_replicate. apply elem_of_seq in Ha. lia.
  - intros [] i a H; simpl in H; by rewrite lookup_empty in H.
  - intros i j a H; simpl in H; by rewrite lookup_empty in H.
Qed.

Lemma reachable_Inv okQty n b :
  reachable okQty n b → Inv false [] b.
Proof.
  induction 1 as [|b i sd ty q prc sp b' _ IH Hrun|b i _ IH|b i q p _ IH _].
  - apply Inv_init.
  - destruct (processOrder_Inv (st := false) b i sd ty q prc sp IH) as (b2 & Hr & HI).
    congruence.
  - by apply Inv_cancelOrder.
  - by apply Inv_modifyOrder.
Qed.


(** A submit always returns: the loops never run out of fuel. *)
Lemma reachable_submit_total okQty n b i sd ty q prc sp :
  reachable okQty n b → ∃ b', processOrder b i sd ty q prc sp = Some b'.
Proof.
  intros Hr. apply reachable_Inv in Hr.
  destruct (processOrder_Inv (st := false) b i sd ty q prc sp Hr) as (b' & H & _).
  eauto.
Qed.

(** * A property of the four trees kept by every tree operation *)

Section tree_property.
Variable P : Limit → Prop.
Hypothesis P_insert : ∀ t p m, P t → P (insert t p m).1.1.
Hypothesis P_remove : ∀ t p m, P t → P (removeLimit t p m).1.
Hypothesis P_updLevel : ∀ p f t, P t → P (updLevel p f t).
Hypothesis P_updMin : ∀ f t, P t → P (updMin f t).
Hypothesis P_updMax : ∀ f t, P t → P (updMax f t).

















End tree_property.

(** * Price-time priority *)

(** The resting orders an aggressor of side [sd] faces, in priority order:
    best price first (lowest sell, highest buy), and within a level the
    head of the FIFO first.  Each entry is the level price and the slot. *)
Definition flatLevel (kq : Z * list nat) : list (Z * nat) :=
  (λ a, (kq.1, a)) <$> kq.2.

Definition priority (sd : Side.t) (b : OrderBook) : list (Z * nat) :=
  (match sd with
   | Side.Buy => levels (sellRoot b)
   | Side.Sell => reverse (levels (buyRoot b))
   end) ≫= flatLevel.

(** The fills that strict price-time priority prescribes for a taker with
    [rem] shares and limit [prc], following the words of the
    specification: walk the makers in priority order while the taker has
    shares and its price crosses the level; each fill is
    [min(taker.remaining, maker.remaining)] at the maker's level price. *)
Fixpoint priorityFills (sh : nat → N) (sd : Side.t) (prc : Z) (rem : N)
    (P : list (Z * nat)) : list (Z * nat * N) :=
  match P with
  | [] => []
  | (k, a) :: P' =>
      if (rem =? 0)%N || crossFails sd prc k then []
      else
        let t := N.min rem (sh a) in
        (k, a, t) :: priorityFills sh sd prc (rem - t) P'
  end.

(** A trade without its timestamp, and the trade a fill stands for. *)
Definition tradeCore (t : TradeReport) : N * N * N * Z :=
  (takerId t, makerId t, qty t, tprice t).

Definition fillReport (m : MemoryManager) (taker : N) (f : Z * nat * N) : N * N * N * Z :=
  (taker, id (deref m f.1.2), f.2, f.1.1).

Lemma priorityFills_zero sh sd prc P : priorityFills sh sd prc 0 P = [].
Proof. by destruct P as [|[k a] P]. Qed.

Lemma fillReport_ext m m' taker (F : list (Z * nat * N)) :
  (∀ x, id (deref m' x) = id (deref m x)) →
  fillReport m' taker <$> F = fillReport m taker <$> F.
Proof.
  intros H. apply list_fmap_ext. intros j [[k a] t] _. unfold fillReport. simpl.
  by rewrite H.
Qed.

Lemma matchLevel_fills sh sd prc q : ∀ b taker bp last b1 q' last',
  taker ∉ q → NoDup q → (taker < length (oPool (mm b)))%nat →
  (∀ a, a ∈ q → (a < length (oPool (mm b)))%nat) →
  (∀ a, a ∈ q → shares (deref (mm b) a) = sh a) →
  crossFails sd prc bp = false →
  matchLevel b taker bp q last = (b1, q', last') →
  ∃ F T,
    tradeBuffer b1 = tradeBuffer b ++ T ∧
    tradeCore <$> T = fillReport (mm b) (id (deref (mm b) taker)) <$> F ∧
    (∀ Y, priorityFills sh sd prc (shares (deref (mm b) taker))
            (((λ a, (bp, a)) <$> q) ++ Y)
          = F ++ priorityFills sh sd prc (shares (deref (mm b1) taker)) Y) ∧
    (∀ x, x ∉ q → x ≠ taker → deref (mm b1) x = deref (mm b) x) ∧
    last' = (match F with [] => last | _ => bp end) ∧
    (F = [] → b1 = b) ∧
    Forall (λ f, f.1.1 = bp) F.
Proof.
  induction q as [|maker rest IH];
    intros b taker bp last b1 q' last' Htq Hnd Hbt Hbq Hsh Hcross;
    cbn [matchLevel].
  { intros Heq. injection Heq as <- <- <-. exists [], [].
    rewrite app_nil_r. repeat split; auto. }
  destruct (0 <? shares (deref (mm b) taker))%N eqn:Hpos.
  2:{ intros Heq. injection Heq as <- <- <-. exists [], [].
      rewrite app_nil_r. apply N.ltb_ge in Hpos.
      assert (shares (deref (mm b) taker) = 0%N) as -> by lia.
      repeat split; auto. intros Y. by rewrite !priorityFills_zero. }
  apply N.ltb_lt in Hpos.
  apply not_elem_of_cons in Htq as [Hne Htq].
  apply NoDup_cons in Hnd as [Hmr Hnd].
  set (tk := deref (mm b) taker) in *. set (mk := deref (mm b) maker) in *.
  set (traded := (shares tk `min` shares mk)%N).
  set (b1' := pushTrade b (id tk) (id mk) traded bp).
  set (m1 := setShares (mm b1') taker (shares (deref (mm b1') taker) - traded)).
  set (b2 := with_mm b1' m1).
  set (m2 := setShares (mm b2) maker (shares (deref (mm b2) maker) - traded)).
  set (b3 := with_mm b2 m2).
  assert (maker < length (oPool (mm b)))%nat as Hbm by (apply Hbq; by left).
  assert (deref m1 maker = mk) as Hm1m by (by apply deref_setShares_ne).
  assert (length (oPool m1) = length (oPool (mm b))) as Hl1
    by (unfold m1; rewrite oPool_setShares; apply length_insert).
  assert (length (oPool m2) = length (oPool (mm b))) as Hl2
    by (unfold m2; rewrite oPool_setShares, length_insert; exact Hl1).
  assert (shares (deref m2 taker) = (shares tk - traded)%N) as Htk2.
  { unfold m2. rewrite deref_setShares_ne by done.
    change (mm b2) with m1. unfold m1. rewrite deref_setShares_eq by done. done. }
  assert (shares (deref m2 maker) = (shares mk - traded)%N) as Hm2m.
  { unfold m2. change (mm b2) with m1. rewrite deref_setShares_eq by lia.
    by rewrite Hm1m. }
  assert (∀ x, x ≠ maker → x ≠ taker → deref m2 x = deref (mm b) x) as Hoth.
  { intros x H1 H2. unfold m2. rewrite deref_setShares_ne by done.
    change (mm b2) with m1. unfold m1. by rewrite deref_setShares_ne. }
  assert (∀ x, id (deref m2 x) = id (deref (mm b) x)) as Hids.
  { intros x. unfold m2. destruct (setShares_fields (mm b2) maker
      (shares (deref (mm b2) maker) - traded) x) as [-> _].
    change (mm b2) with m1. unfold m1.
    by destruct (setShares_fields (mm b1') taker
      (shares (deref (mm b1') taker) - traded) x) as [-> _]. }
  assert (shares mk = sh maker) as Hshm by (apply Hsh; by left).
  assert (∀ Y, priorityFills sh sd prc (shares tk) (((λ a, (bp, a)) <$> maker :: rest) ++ Y)
               = (bp, maker, traded)
                   :: priorityFills sh sd prc (shares tk - traded)
                        (((λ a, (bp, a)) <$> rest) ++ Y)) as Hspec.
  { intros Y. rewrite fmap_cons. cbn [app priorityFills].
    rewrite Hcross. destruct (N.eqb_spec (shares tk) 0) as [Hz|_]; [lia|].
    cbn [orb]. unfold traded. by rewrite Hshm. }
  change (shares (deref (mm b3) maker) =? 0)%N
    with (shares (deref m2 maker) =? 0)%N.
  rewrite Hm2m.
  destruct (N.eqb_spec (shares mk - traded) 0) as [Hz|Hnz].
  - set (b4 := with_orderMap b3 (delete (id (deref (mm b3) maker)) (orderMap b3))).
    set (b5 := with_mm b4 (recycleOrder (mm b4) maker)).
    intros Hrec.
    destruct (IH b5 taker bp bp b1 q' last') as (F & T & HT & Hcore & Hcont & Hfr & Hlast & _ & Hall);
      try done.
    { change (oPool (mm b5)) with (oPool m2). by rewrite Hl2. }
    { intros a Ha. change (oPool (mm b5)) with (oPool m2). rewrite Hl2.
      apply Hbq. by right. }
    { intros a Ha. change (mm b5) with (recycleOrder m2 maker).
      change (deref (recycleOrder m2 maker) a) with (deref m2 a).
      rewrite Hoth; [apply Hsh; by right| |]; by intros ->. }
    exists ((bp, maker, traded) :: F),
      (mkTrade (id tk) (id mk) traded bp (timestampCounter b) :: T).
    split; [|split; [|split; [|split; [|split; [|split]]]]].
    + rewrite HT. change (tradeBuffer b5) with (tradeBuffer b ++ [mkTrade (id tk) (id mk) traded bp (timestampCounter b)]).
      by rewrite <- app_assoc.
    + rewrite !fmap_cons. f_equal. rewrite Hcore.
      change (mm b5) with (recycleOrder m2 maker).
      change (deref (recycleOrder m2 maker) taker) with (deref m2 taker).
      rewrite Hids. apply fillReport_ext. intros x. apply Hids.
    + intros Y. rewrite Hspec. cbn [app]. f_equal.
      rewrite <- Hcont.
      change (mm b5) with (recycleOrder m2 maker).
      change (deref (recycleOrder m2 maker) taker) with (deref m2 taker).
      by rewrite Htk2.
    + intros x Hx1 Hx2. apply not_elem_of_cons in Hx1 as [Hx1 Hx3].
      rewrite Hfr by done.
      change (mm b5) with (recycleOrder m2 maker).
      change (deref (recycleOrder m2 maker) x) with (deref m2 x). by apply Hoth.
    + rewrite Hlast. by destruct F.
    + done.
    + constructor; [done|exact Hall].
  - intros Heq. injection Heq as <- <- <-.
    exists [(bp, maker, traded)],
      [mkTrade (id tk) (id mk) traded bp (timestampCounter b)].
    assert ((shares tk - traded)%N = 0%N) as Hrem by (unfold traded in *; lia).
    split; [|split; [|split; [|split; [|split; [|split]]]]]; try done.
    + intros Y. rewrite Hspec. cbn [app]. f_equal.
      rewrite Hrem. change (mm b3) with m2. rewrite Htk2, Hrem.
      by rewrite !priorityFills_zero.
    + intros x Hx1 Hx2. apply not_elem_of_cons in Hx1 as [Hx1 Hx3].
      change (mm b3) with m2. by apply Hoth.
    + by repeat constructor.
Qed.

Lemma flatLevel_nil k : flatLevel (k, []) = [].
Proof. done. Qed.

Lemma bind_optL k q : optL k q ≫= flatLevel = flatLevel (k, q).
Proof. destruct q; [done|]. simpl. by rewrite app_nil_r. Qed.

Lemma elem_bind_flat (L : list (Z * list nat)) k a :
  (k, a) ∈ L ≫= flatLevel ↔ ∃ q, (k, q) ∈ L ∧ a ∈ q.
Proof.
  rewrite list_elem_of_bind. split.
  - intros ([k' q] & Hin & HL). unfold flatLevel in Hin. simpl in Hin.
    apply list_elem_of_fmap in Hin as (a' & [= -> ->] & Ha). eauto.
  - intros (q & HL & Ha). exists (k, q). split; [|done].
    unfold flatLevel. simpl. apply list_elem_of_fmap. eauto.
Qed.

(** The priority list around the best level, before and after a turn. *)
Lemma priority_turn sd b b3 bp bq q' A B :
  levels (restRoot b (opposite sd)) = A ++ (bp, bq) :: B →
  levels (restRoot b3 (opposite sd)) = A ++ optL bp q' ++ B →
  match sd with Side.Buy => A = [] | Side.Sell => B = [] end →
  ∃ Y, priority sd b = flatLevel (bp, bq) ++ Y ∧
       priority sd b3 = flatLevel (bp, q') ++ Y ∧
       ∀ k a, (k, a) ∈ Y →
         ∃ q, (k, q) ∈ A ++ B ∧ a ∈ q.
Proof.
  intros HAB Hl3 Hsd. unfold priority. destruct sd; simpl in *; subst.
  - exists (B ≫= flatLevel). rewrite HAB, Hl3. simpl.
    rewrite bind_app, bind_optL. repeat split; auto.
    intros k a Hin. by apply elem_bind_flat.
  - exists (reverse A ≫= flatLevel). rewrite HAB, Hl3.
    rewrite !app_nil_r in *. rewrite !reverse_app, reverse_singleton.
    rewrite !bind_app.
    assert (reverse (optL bp q') = optL bp q') as -> by (by destruct q').
    rewrite bind_optL. rewrite bind_cons. simpl. rewrite app_nil_r.
    repeat split; auto.
    intros k a Hin. apply elem_bind_flat in Hin as (q & Hin & Ha).
    exists q. split; [|done]. by rewrite elem_of_reverse in Hin.
Qed.

Lemma elem_priority sd b k a :
  (k, a) ∈ priority sd b ↔ ∃ q, (k, q) ∈ levels (restRoot b (opposite sd)) ∧ a ∈ q.
Proof.
  unfold priority. rewrite elem_bind_flat. destruct sd; simpl; [done|].
  by setoid_rewrite elem_of_reverse.
Qed.

Lemma last_level_price (F : list (Z * nat * N)) bp :
  F ≠ [] → Forall (λ f, f.1.1 = bp) F → ∃ f, last F = Some f ∧ f.1.1 = bp.
Proof.
  intros Hne Hall. destruct F as [|f0 F0] using rev_ind; [done|].
  exists f0. rewrite last_snoc. split; [done|].
  apply Forall_app in Hall as [_ Hf]. by apply Forall_cons in Hf as [? _].
Qed.

(** What a run of the matching loop does, against the fills prescribed by
    price-time priority on the book it starts from. *)
Lemma matchLoop_fills st ex taker sd prc sh : ∀ fuel b lst b1 last',
  Inv st (taker :: ex) b →
  (∀ k a, (k, a) ∈ priority sd b → shares (deref (mm b) a) = sh a) →
  matchLoop fuel b taker sd prc lst = Some (b1, last') →
  let F := priorityFills sh sd prc (shares (deref (mm b) taker)) (priority sd b) in
  ∃ T,
    tradeBuffer b1 = tradeBuffer b ++ T ∧
    tradeCore <$> T = fillReport (mm b) (id (deref (mm b) taker)) <$> F ∧
    last' = (match last F with None => lst | Some f => f.1.1 end) ∧
    (F = [] → b1 = b) ∧
    (shares (deref (mm b1) taker) = 0%N ∨ priority sd b1 = [] ∨
     ∃ k a P, priority sd b1 = (k, a) :: P ∧ crossFails sd prc k = true) ∧
    (∀ k a, (k, a) ∈ priority sd b1 → (k, a) ∈ priority sd b).
Proof.
  induction fuel as [|fuel IH]; intros b lst b1 last' HI Hsh; rewrite matchLoop_unfold.
  all: destruct (0 <? shares (deref (mm b) taker))%N eqn:Hpos.
  all: try (intros Heq; injection Heq as <- <-; apply N.ltb_ge in Hpos;
            assert (shares (deref (mm b) taker) = 0%N) as Hz by lia;
            rewrite Hz, priorityFills_zero; exists []; rewrite app_nil_r;
            repeat split; auto).
  all: destruct (bestOf sd (restRoot b (opposite sd))) as [|bp bq l r ht] eqn:Hbest.
  all: try (intros Heq; injection Heq as <- <-;
            assert (priority sd b = []) as Hpr
              by (unfold priority; destruct sd; simpl in Hbest;
                  [pose proof (getMin_levels (sellRoot b)) as Hm
                  |pose proof (getMax_levels (buyRoot b)) as Hm];
                  rewrite Hbest in Hm; by rewrite Hm);
            rewrite Hpr; exists []; rewrite app_nil_r; repeat split; auto).
  all: assert (∃ A B, levels (restRoot b (opposite sd)) = A ++ (bp, bq) :: B ∧
                 match sd with Side.Buy => A = [] | Side.Sell => B = [] end)
         as (A & B & HAB & HsdAB)
         by (destruct sd; simpl in Hbest |- *;
             [pose proof (getMin_levels (sellRoot b)) as Hm
             |pose proof (getMax_levels (buyRoot b)) as Hm];
             rewrite Hbest in Hm; destruct Hm as [X HX];
             [exists [], X|exists X, []]; done).
  all: assert ((bp, bq) ∈ bookLevels b Rest (opposite sd)) as Hin
         by (unfold bookLevels; simpl; rewrite HAB; apply elem_of_app; right; by left).
  all: destruct (il_fifo _ _ _ _ _ _ HI _ _ _ _ Hin) as [Hbq Hnd].
  all: destruct (crossFails sd prc bp) eqn:Hcross.
  all: try (intros Heq; injection Heq as <- <-;
            destruct (priority_turn sd b b bp bq bq A B HAB) as (Y & HY & _ & _);
            [by destruct bq|done|];
            destruct bq as [|a0 bq']; [done|];
            rewrite HY; cbn [flatLevel fmap list_fmap app priorityFills fst snd];
            rewrite Hcross, orb_true_r; exists []; rewrite app_nil_r;
            repeat split; auto;
            right; right; exists bp, a0, (((λ a, (bp, a)) <$> bq') ++ Y); done).
  { done. }
  destruct (matchLevel b taker bp bq lst) as [[b2 q'] last2] eqn:Hml.
  destruct (writeBack sd (restRoot b2 (opposite sd)) bp q' (mm b2)) as [t m'] eqn:Hwb.
  destruct (matchTurn_Inv st ex taker sd b bp bq l r ht lst b2 q' last2 t m'
              HI Hbest Hml Hwb)
    as (HI3 & Hf3 & (A' & B' & HAB' & Hl3 & HsdAB') & _ & Hq' & Hp3 & _).
  set (b3 := with_mm (with_restRoot b2 (opposite sd) t) m') in *.
  destruct (priority_turn sd b b3 bp bq q' A' B' HAB' Hl3 HsdAB') as (Y & HY & HY3 & HYin).
  assert (∀ c, ¬ holds (bookLevels b) c taker) as Htk
    by (intros c; apply (il_free _ _ _ _ _ _ HI); by left).
  assert (taker ∉ bq) as Htq.
  { intros Ht. apply (Htk Rest). exists (opposite sd), bp, bq. done. }
  destruct (matchLevel_fills sh sd prc bq b taker bp lst b2 q' last2 Htq Hnd)
    as (F1 & T1 & HT1 & Hcore1 & Hcont & Hsame & Hlast1 & _ & Hall1); try done.
  { apply (il_bound _ _ _ _ _ _ HI). left. by left. }
  { intros a Ha. apply (il_bound _ _ _ _ _ _ HI). right. exists Rest, (opposite sd), bp, bq. done. }
  { intros a Ha. apply (Hsh bp). apply elem_priority. eauto. }
  assert (F1 ≠ []) as HF1.
  { specialize (Hcont []). rewrite !app_nil_r in Hcont. simpl in Hcont.
    rewrite <- Hcont. destruct bq as [|a0 bq']; [done|].
    cbn [fmap list_fmap priorityFills]. rewrite Hcross.
    apply N.ltb_lt in Hpos.
    destruct (N.eqb_spec (shares (deref (mm b) taker)) 0); [lia|]. done. }
  assert (tradeBuffer b3 = tradeBuffer b2) as Htb3 by (unfold b3; by destruct sd).
  assert (deref (mm b3) taker = deref (mm b2) taker) as Hd3
    by (unfold deref; by rewrite Hp3).
  assert (priorityFills sh sd prc (shares (deref (mm b) taker)) (priority sd b)
          = F1 ++ priorityFills sh sd prc (shares (deref (mm b2) taker)) Y) as HF.
  { rewrite HY. unfold flatLevel. cbn [fst snd]. apply Hcont. }
  intros Hrun F. unfold F. rewrite HF.
  destruct q' as [|x q''].
  - (* the level is exhausted: the loop goes on with the next one *)
    rewrite flatLevel_nil in HY3. simpl in HY3.
    destruct (IH b3 last2 b1 last' HI3) as (T3 & HT3 & Hcore3 & Hlast3 & _ & Hexit & Hsub);
      [|exact Hrun|].
    { intros k a Hka. rewrite HY3 in Hka.
      destruct (HYin _ _ Hka) as (q & Hq & Ha).
      assert ((k, q) ∈ bookLevels b Rest (opposite sd)) as Hq'0.
      { unfold bookLevels. simpl. rewrite HAB'.
        apply elem_of_app in Hq as [?|?]; apply elem_of_app; [by left|right; by right]. }
      assert (a ∉ bq) as Habq.
      { intros Ha'.
        destruct (il_loc _ _ _ _ _ _ HI _ _ _ _ _ Hin Ha') as (_ & Hk1 & _).
        destruct (il_loc _ _ _ _ _ _ HI _ _ _ _ _ Hq'0 Ha) as (_ & Hk2 & _).
        assert (k = bp) as -> by congruence.
        pose proof (il_sorted _ _ _ _ _ _ HI Rest (opposite sd)) as Hs.
        unfold bookLevels in Hs. simpl in Hs. rewrite HAB' in Hs.
        rewrite fmap_app, fmap_cons in Hs. simpl in Hs.
        apply StronglySorted_app in Hs as (H1 & _ & H2).
        apply StronglySorted_cons in H2 as [H2 _]. rewrite Forall_forall in H2.
        apply elem_of_app in Hq as [Hq|Hq]; apply elem_keys in Hq.
        - specialize (H1 _ _ Hq (list_elem_of_here _ _)). lia.
        - specialize (H2 _ Hq). lia. }
      assert (a ≠ taker) as Hat.
      { intros ->. apply (Htk Rest). exists (opposite sd), k, q. done. }
      unfold deref at 1. rewrite Hp3. fold (deref (mm b2) a).
      rewrite Hsame by done. apply (Hsh k). rewrite HY.
      apply elem_of_app. right. exact Hka. }
    rewrite HY3 in Hcore3, Hlast3. rewrite Hd3 in Hcore3, Hlast3.
    set (F3 := priorityFills sh sd prc (shares (deref (mm b2) taker)) Y) in *.
    exists (T1 ++ T3).
    split; [|split; [|split; [|split; [|split]]]].
    + rewrite HT3, Htb3, HT1. by rewrite <- app_assoc.
    + rewrite !fmap_app. f_equal; [done|]. rewrite Hcore3.
      destruct (lf_fields _ _ (matchLevel_frame _ _ _ _ _ _ _ _ Hml) taker) as [-> _].
      apply fillReport_ext. intros y. by destruct (pf_fields _ _ _ Hf3 y) as [-> _].
    + rewrite Hlast3, Hlast1, last_app. destruct (last F3); [done|].
      destruct (last_level_price F1 bp HF1 Hall1) as (f1 & -> & ->).
      by destruct F1.
    + intros Hnil. apply app_nil in Hnil as [? _]. done.
    + exact Hexit.
    + intros k a Hka. apply Hsub in Hka. rewrite HY3 in Hka. rewrite HY.
      apply elem_of_app. by right.
  - (* the maker keeps a remainder: the taker is exhausted *)
    assert (shares (deref (mm b3) taker) = 0%N) as Hz by (by apply Hq').
    rewrite matchLoop_unfold, Hz in Hrun. simpl in Hrun. injection Hrun as <- <-.
    rewrite <- Hd3, Hz, priorityFills_zero, app_nil_r.
    exists T1. split; [|split; [|split; [|split; [|split]]]].
    + by rewrite Htb3.
    + done.
    + rewrite Hlast1.
      destruct (last_level_price F1 bp HF1 Hall1) as (f1 & -> & ->).
      by destruct F1.
    + done.
    + by left.
    + intros k a Hka. rewrite HY3 in Hka. rewrite HY.
      apply elem_of_app in Hka as [Hka|Hka]; apply elem_of_app; [left|by right].
      unfold flatLevel in *. cbn [fst snd] in *.
      apply list_elem_of_fmap in Hka as (a' & Heq & Ha'). injection Heq as -> ->.
      apply list_elem_of_fmap. exists a'. split; [done|].
      (* the remaining FIFO is a suffix of the old one *)
      assert (∀ q0 bb tk p0 l0 b' q1 l1,
                matchLevel bb tk p0 q0 l0 = (b', q1, l1) → q1 ⊆ q0) as Hsuf.
      { clear. induction q0 as [|mk0 r0 IHq]; intros bb tk p0 l0 b' q1 l1;
          cbn [matchLevel].
        - intros [= _ <- _]. done.
        - repeat case_match; intros Heq; try (injection Heq as _ <- _; done).
          apply IHq in Heq. set_solver. }
      eapply Hsuf; eauto.
Qed.

(** * The order in which stops fire *)

(** The levels a sell aggressor triggers, in the order they are collected:
    from the highest stop price down to [executedPrice]; and those a buy
    aggressor triggers: from the lowest stop price up to [executedPrice]. *)
Definition firedSell (executedPrice : Z) (L : list (Z * list nat)) : list (Z * list nat) :=
  reverse (filter (λ kq, executedPrice ≤ kq.1) L).

Definition firedBuy (executedPrice : Z) (L : list (Z * list nat)) : list (Z * list nat) :=
  filter (λ kq, kq.1 ≤ executedPrice) L.

Definition firedSlots (F : list (Z * list nat)) : list nat := F ≫= snd.

Lemma filter_all_lt (L : list (Z * list nat)) p :
  Forall (λ k, k < p) L.*1 →
  filter (λ kq, p ≤ kq.1) L = [] ∧ filter (λ kq, kq.1 < p) L = L.
Proof.
  induction L as [|[k q] L IH]; [done|]. rewrite fmap_cons. cbn [fst].
  intros [Hk HL]%Forall_cons. destruct (IH HL) as [H1 H2].
  rewrite filter_cons_False by (simpl; lia).
  rewrite filter_cons_True by (simpl; lia). by rewrite H1, H2.
Qed.

Lemma filter_all_gt (L : list (Z * list nat)) p :
  Forall (λ k, p < k) L.*1 →
  filter (λ kq, kq.1 ≤ p) L = [] ∧ filter (λ kq, p < kq.1) L = L.
Proof.
  induction L as [|[k q] L IH]; [done|]. rewrite fmap_cons. cbn [fst].
  intros [Hk HL]%Forall_cons. destruct (IH HL) as [H1 H2].
  rewrite filter_cons_False by (simpl; lia).
  rewrite filter_cons_True by (simpl; lia). by rewrite H1, H2.
Qed.

Lemma stopLoopSell_spec executedPrice : ∀ fuel b triggered,
  bst (stopSellRoot b) → (nodes (stopSellRoot b) ≤ fuel)%nat →
  ∃ b1,
    stopLoopSell fuel b executedPrice triggered =
      Some (b1, triggered ++
                  (descriptor (mm b) <$>
                     firedSlots (firedSell executedPrice (levels (stopSellRoot b))))) ∧
    levels (stopSellRoot b1) =
      filter (λ kq, kq.1 < executedPrice) (levels (stopSellRoot b)) ∧
    stopBuyRoot b1 = stopBuyRoot b ∧ stopFrame b b1.
Proof.
  induction fuel as [|fuel IH]; intros b triggered Hb Hfuel.
  - assert (stopSellRoot b = Null) as Hn
      by (destruct (stopSellRoot b); [done|simpl in Hfuel; lia]).
    exists b. simpl. rewrite Hn. simpl. rewrite app_nil_r.
    auto using stopFrame_refl.
  - cbn [stopLoopSell].
    pose proof (getMax_levels (stopSellRoot b)) as Hm.
    destruct (getMax (stopSellRoot b)) as [|hp hq l r ht].
    { rewrite Hm. exists b. simpl. rewrite app_nil_r. rewrite Hm.
      auto using stopFrame_refl. }
    destruct Hm as [A HA].
    assert (Forall (λ k, k < hp) A.*1) as HAlt.
    { unfold bst, keys in Hb. rewrite HA, fmap_app in Hb.
      apply StronglySorted_app in Hb as (H1 & _ & _).
      apply Forall_forall. intros k Hk. apply (H1 _ _ Hk). by left. }
    destruct (Z.leb_spec executedPrice hp) as [Hle|Hgt].
    + pose proof (collectStops_spec hq b triggered) as Hc.
      destruct (collectStops b hq triggered) as [b1 trig1].
      destruct Hc as (Htr & Hfo & Hfl & Hsb & Hss & Hfr).
      rewrite Hss.
      pose proof (removeLimit_spec (stopSellRoot b) hp (mm b1) Hb) as Hr.
      pose proof (removeLimit_bst (stopSellRoot b) hp (mm b1) Hb) as Hb'.
      destruct (removeLimit (stopSellRoot b) hp (mm b1)) as [t m].
      destruct Hr as (Ht & Hp & Hf & Hfl'). simpl in Hb'.
      assert (levels t = A) as HtA.
      { rewrite Ht, HA. replace (A ++ [(hp, hq)]) with (A ++ (hp, hq) :: []) by done.
        rewrite ldelete_at; [by rewrite app_nil_r|].
        unfold bst, keys in Hb. by rewrite HA in Hb. }
      set (b2 := with_mm (with_stopRoot b1 Side.Sell t) m).
      destruct (IH b2 trig1) as (b3 & Hrun & Hlv & Hsb3 & Hfr3); [done| |].
      { simpl. rewrite nodes_levels, HtA. rewrite nodes_levels, HA in Hfuel.
        rewrite length_app in Hfuel. simpl in Hfuel. lia. }
      exists b3. split; [|split; [|split]].
      * rewrite Hrun. f_equal. f_equal. rewrite Htr.
        change (stopSellRoot b2) with t. rewrite HtA, HA.
        unfold firedSell. rewrite filter_app, filter_cons_True by done.
        rewrite filter_nil, reverse_app, reverse_singleton.
        unfold firedSlots. rewrite bind_app, fmap_app. simpl. rewrite app_nil_r.
        rewrite <- app_assoc. f_equal. f_equal.
        apply list_fmap_ext. intros j x _. unfold descriptor, deref.
        change (oPool (mm b2)) with (oPool m). by rewrite Hp, (tf_pool _ _ Hfr).
      * rewrite Hlv. change (stopSellRoot b2) with t. rewrite HtA, HA.
        rewrite filter_app, filter_cons_False by (simpl; lia).
        by rewrite filter_nil, app_nil_r.
      * rewrite Hsb3. change (stopBuyRoot b2) with (stopBuyRoot b1). done.
      * eapply stopFrame_trans; [|exact Hfr3].
        pose proof (tf_flimit _ _ Hfr) as Hle'.
        destruct Hfr. split; try done.
        { change (oPool (mm b2)) with (oPool m). congruence. }
        change (fLimit (mm b2)) with (fLimit m).
        rewrite Hfl'. case_decide; lia.
    + exists b. rewrite HA.
      assert (Forall (λ k, k < executedPrice) (A ++ [(hp, hq)]).*1) as Hall.
      { rewrite fmap_app. apply Forall_app. split.
        - eapply Forall_impl; [exact HAlt|]. simpl. intros; lia.
        - repeat constructor. simpl. lia. }
      destruct (filter_all_lt _ _ Hall) as [H1 H2].
      unfold firedSell. rewrite H1, H2. simpl. rewrite app_nil_r.
      auto using stopFrame_refl.
Qed.

Lemma stopLoopBuy_spec executedPrice : ∀ fuel b triggered,
  bst (stopBuyRoot b) → (nodes (stopBuyRoot b) ≤ fuel)%nat →
  ∃ b1,
    stopLoopBuy fuel b executedPrice triggered =
      Some (b1, triggered ++
                  (descriptor (mm b) <$>
                     firedSlots (firedBuy executedPrice (levels (stopBuyRoot b))))) ∧
    levels (stopBuyRoot b1) =
      filter (λ kq, executedPrice < kq.1) (levels (stopBuyRoot b)) ∧
    stopSellRoot b1 = stopSellRoot b ∧ stopFrame b b1.
Proof.
  induction fuel as [|fuel IH]; intros b triggered Hb Hfuel.
  - assert (stopBuyRoot b = Null) as Hn
      by (destruct (stopBuyRoot b); [done|simpl in Hfuel; lia]).
    exists b. simpl. rewrite Hn. simpl. rewrite app_nil_r.
    auto using stopFrame_refl.
  - cbn [stopLoopBuy].
    pose proof (getMin_levels (stopBuyRoot b)) as Hm.
    destruct (getMin (stopBuyRoot b)) as [|lp lq l r ht].
    { rewrite Hm. exists b. simpl. rewrite app_nil_r. rewrite Hm.
      auto using stopFrame_refl. }
    destruct Hm as [B HB].
    assert (Forall (λ k, lp < k) B.*1) as HBgt.
    { unfold bst, keys in Hb. rewrite HB, fmap_cons in Hb.
      by apply StronglySorted_cons in Hb as [? _]. }
    rewrite Z.geb_leb.
    destruct (Z.leb_spec lp executedPrice) as [Hle|Hgt].
    + pose proof (collectStops_spec lq b triggered) as Hc.
      destruct (collectStops b lq triggered) as [b1 trig1].
      destruct Hc as (Htr & Hfo & Hfl & Hsb & Hss & Hfr).
      rewrite Hsb.
      pose proof (removeLimit_spec (stopBuyRoot b) lp (mm b1) Hb) as Hr.
      pose proof (removeLimit_bst (stopBuyRoot b) lp (mm b1) Hb) as Hb'.
      destruct (removeLimit (stopBuyRoot b) lp (mm b1)) as [t m].
      destruct Hr as (Ht & Hp & Hf & Hfl'). simpl in Hb'.
      assert (levels t = B) as HtB.
      { rewrite Ht, HB. replace ((lp, lq) :: B) with ([] ++ (lp, lq) :: B) by done.
        rewrite ldelete_at; [done|].
        unfold bst, keys in Hb. by rewrite HB in Hb. }
      set (b2 := with_mm (with_stopRoot b1 Side.Buy t) m).
      destruct (IH b2 trig1) as (b3 & Hrun & Hlv & Hss3 & Hfr3); [done| |].
      { simpl. rewrite nodes_levels, HtB. rewrite nodes_levels, HB in Hfuel.
        simpl in Hfuel. lia. }
      exists b3. split; [|split; [|split]].
      * rewrite Hrun. f_equal. f_equal. rewrite Htr.
        change (stopBuyRoot b2) with t. rewrite HtB, HB.
        unfold firedBuy. rewrite filter_cons_True by done.
        unfold firedSlots. rewrite bind_cons, fmap_app. simpl.
        rewrite <- app_assoc. f_equal. f_equal.
        apply list_fmap_ext. intros j x _. unfold descriptor, deref.
        change (oPool (mm b2)) with (oPool m). by rewrite Hp, (tf_pool _ _ Hfr).
      * rewrite Hlv. change (stopBuyRoot b2) with t. rewrite HtB, HB.
        by rewrite filter_cons_False by (simpl; lia).
      * rewrite Hss3. change (stopSellRoot b2) with (stopSellRoot b1). done.
      * eapply stopFrame_trans; [|exact Hfr3].
        pose proof (tf_flimit _ _ Hfr) as Hle'.
        destruct Hfr. split; try done.
        { change (oPool (mm b2)) with (oPool m). congruence. }
        change (fLimit (mm b2)) with (fLimit m).
        rewrite Hfl'. case_decide; lia.
    + exists b. rewrite HB.
      assert (Forall (λ k, executedPrice < k) ((lp, lq) :: B).*1) as Hall.
      { rewrite fmap_cons. constructor; [simpl; lia|].
        eapply Forall_impl; [exact HBgt|]. simpl. intros; lia. }
      destruct (filter_all_gt _ _ Hall) as [H1 H2].
      unfold firedBuy. rewrite H1, H2. simpl. rewrite app_nil_r.
      auto using stopFrame_refl.
Qed.

(** * What one submit does *)

Lemma priorityFills_makers sh sd prc : ∀ P rem,
  Forall (λ f, (f.1.1, f.1.2) ∈ P) (priorityFills sh sd prc rem P).
Proof.
  induction P as [|[k a] P IH]; intros rem; cbn [priorityFills]; [constructor|].
  destruct ((rem =? 0)%N || crossFails sd prc k); [constructor|].
  constructor; [by left|].
  eapply Forall_impl; [apply IH|]. intros f Hf. by right.
Qed.

Lemma priorityFills_ext sh sh' sd prc : ∀ P rem,
  (∀ k a, (k, a) ∈ P → sh a = sh' a) →
  priorityFills sh sd prc rem P = priorityFills sh' sd prc rem P.
Proof.
  induction P as [|[k a] P IH]; intros rem Hsh; cbn [priorityFills]; [done|].
  destruct ((rem =? 0)%N || crossFails sd prc k); [done|].
  rewrite (Hsh k a) by (by left). f_equal. apply IH.
  intros k' a' Hin. apply (Hsh k'). by right.
Qed.

Lemma fillReport_ext_on m m' taker (F : list (Z * nat * N)) :
  Forall (λ f, id (deref m' f.1.2) = id (deref m f.1.2)) F →
  fillReport m' taker <$> F = fillReport m taker <$> F.
Proof.
  induction 1 as [|f F Hf _ IH]; [done|]. rewrite !fmap_cons, IH.
  f_equal. unfold fillReport. by rewrite Hf.
Qed.

(** A book that differs from an earlier one by trades appended to the
    trade channel, with no stop-trigger pass in between. *)
Record grows (b b' : OrderBook) : Prop := mkGrows {
  gr_checks : stopChecks b' = stopChecks b;
  gr_trades : ∃ T, tradeBuffer b' = tradeBuffer b ++ T
}.

Lemma grows_refl b : grows b b.
Proof. split; [done|]. exists []. by rewrite app_nil_r. Qed.

Lemma grows_trans b1 b2 b3 : grows b1 b2 → grows b2 b3 → grows b1 b3.
Proof.
  intros [H1 [T1 H2]] [H3 [T2 H4]]. split; [congruence|].
  exists (T1 ++ T2). by rewrite H4, H2, app_assoc.
Qed.

Lemma with_restRoot_channel b sd t :
  tradeBuffer (with_restRoot b sd t) = tradeBuffer b ∧
  stopChecks (with_restRoot b sd t) = stopChecks b.
Proof. by destruct sd. Qed.

Lemma with_stopRoot_channel b sd t :
  tradeBuffer (with_stopRoot b sd t) = tradeBuffer b ∧
  stopChecks (with_stopRoot b sd t) = stopChecks b.
Proof. by destruct sd. Qed.

(** The matching phase of a submit: the taker is allocated from the order
    pool and the loop runs against the levels of the opposite side. *)
Lemma matching_spec st b i sd ty q prc sp taker m1 :
  Inv st [] b →
  getOrder (mm b) i sd ty q prc sp = Some (taker, m1) →
  let F := priorityFills (λ a, shares (deref (mm b) a)) sd prc q (priority sd b) in
  ∃ b1 T lastExecutedPrice,
    matchLoop (nodes (restRoot b (opposite sd))) (with_mm b m1) taker sd prc 0
      = Some (b1, lastExecutedPrice) ∧
    Inv st [taker] b1 ∧ loopFrame sd (with_mm b m1) b1 ∧
    tradeBuffer b1 = tradeBuffer b ++ T ∧
    tradeCore <$> T = fillReport (mm b) i <$> F ∧
    lastExecutedPrice = (match last F with None => 0 | Some f => f.1.1 end) ∧
    (F = [] → b1 = with_mm b m1) ∧
    (shares (deref (mm b1) taker) = 0%N ∨ priority sd b1 = [] ∨
     ∃ k a P, priority sd b1 = (k, a) :: P ∧ crossFails sd prc k = true) ∧
    (∀ k a, (k, a) ∈ priority sd b1 → (k, a) ∈ priority sd b).
Proof.
  intros HI Hg F.
  destruct (Inv_getOrder (st := st) [] b i sd ty q prc sp taker m1 HI Hg)
    as (HI0 & Hrec & Hfl & Hfo).
  destruct (matchLoop_Inv st [] taker sd prc (nodes (restRoot b (opposite sd)))
              (with_mm b m1) 0 HI0) as (b1 & lst & Hml & HI1 & Hfr1).
  { by destruct sd. }
  assert (∀ k a, (k, a) ∈ priority sd b → a ≠ taker) as Hne.
  { intros k a Hin ->. apply elem_priority in Hin as (qq & Hin & Ha).
    eapply (il_free _ _ _ _ _ _ HI taker Rest).
    - simpl. rewrite Hfo. by left.
    - exists (opposite sd), k, qq. split; [|done]. unfold bookLevels. simpl.
      exact Hin. }
  assert (∀ a, a ≠ taker → deref m1 a = deref (mm b) a) as Hother.
  { intros a Ha. apply getOrder_Some in Hg as (rest & _ & _ & _ & Hp).
    unfold deref. rewrite Hp. by rewrite list_lookup_total_insert_ne. }
  assert (priority sd (with_mm b m1) = priority sd b) as Hpr by (by destruct sd).
  assert (∀ k a, (k, a) ∈ priority sd (with_mm b m1) →
            shares (deref (mm (with_mm b m1)) a) = shares (deref (mm b) a)) as Hsh.
  { intros k a Hin. simpl. rewrite Hpr in Hin. by rewrite (Hother a (Hne k a Hin)). }
  pose proof (matchLoop_fills st [] taker sd prc
                (λ a, shares (deref (mm b) a))
                (nodes (restRoot b (opposite sd))) (with_mm b m1) 0 b1 lst
                HI0 Hsh Hml) as Hfills.
  cbv zeta in Hfills. simpl in Hfills. rewrite Hpr, Hrec in Hfills.
  simpl in Hfills. fold F in Hfills.
  destruct Hfills as (T & HT & Hcore & Hlast & Hnil & Hexit & Hsub).
  exists b1, T, lst. split; [done|]. split; [done|]. split; [done|].
  split; [done|]. split; [|split; [done|split; [done|split; [done|done]]]].
  rewrite Hcore. apply fillReport_ext_on.
  eapply Forall_impl; [apply priorityFills_makers|].
  intros f Hf. simpl in Hf. rewrite (Hother _ (Hne _ _ Hf)). done.
Qed.

Section submit.
Context {st : bool}.
Variable depth : nat.
Variable checkStops : bool.
Hypothesis reentry :
  checkStops = true →
  ∀ b i sd ty q prc sp, Inv st [] b →
    ∃ b', processOrderInternal depth b i sd ty q prc sp false = Some b' ∧
          Inv st [] b' ∧ grows b b'.

Lemma resubmitAll_grows triggeredStops : ∀ b,
  (checkStops = false → triggeredStops = []) → Inv st [] b →
  ∃ b', resubmitAll depth (Some b) triggeredStops = Some b' ∧
        Inv st [] b' ∧ grows b b' ∧
        (triggeredStops = [] → b' = b).
Proof.
  induction triggeredStops as [|ts rest IH]; intros b Hcs HI.
  - exists b. auto using grows_refl.
  - destruct checkStops eqn:Hc; [|by specialize (Hcs eq_refl)].
    rewrite resubmitAll_cons.
    destruct (reentry eq_refl (nextGeneratedId b).2 (nextGeneratedId b).1
                (tside ts) (convertToType ts) (tshares ts) (limitPrice ts) 0
                (Inv_nextGeneratedId _ _ _ HI)) as (b' & Hrun & HI' & Hg).
    rewrite Hrun.
    destruct (IH b' (λ H, ltac:(done)) HI') as (b'' & Hrun' & HI'' & Hg' & _).
    exists b''. split; [done|]. split; [done|]. split; [|done].
    eapply grows_trans; [|exact Hg']. eapply grows_trans; [|exact Hg].
    split; [done|]. exists []. by rewrite app_nil_r.
Qed.

(** After the matching phase: the trigger pass, what becomes of the
    remainder, and the re-submission of the triggered stops. *)
Lemma submit_spec b i sd ty q prc sp taker m1 :
  Inv st [] b → isStopType ty = false →
  getOrder (mm b) i sd ty q prc sp = Some (taker, m1) →
  let F := priorityFills (λ a, shares (deref (mm b) a)) sd prc q (priority sd b) in
  let lastExecutedPrice := (match last F with None => 0 | Some f => f.1.1 end) in
  ∃ b1 T b2 triggeredStops b' T',
    matchLoop (nodes (restRoot b (opposite sd))) (with_mm b m1) taker sd prc 0
      = Some (b1, lastExecutedPrice) ∧
    tradeBuffer b1 = tradeBuffer b ++ T ∧
    tradeCore <$> T = fillReport (mm b) i <$> F ∧
    (if checkStops && (lastExecutedPrice >? 0)
     then checkStopOrders b1 lastExecutedPrice sd []
     else Some (b1, [])) = Some (b2, triggeredStops) ∧
    processOrderInternal (S depth) b i sd ty q prc sp checkStops = Some b' ∧
    Inv st [] b' ∧
    tradeBuffer b' = tradeBuffer b ++ T ++ T' ∧
    (triggeredStops = [] → T' = []) ∧
    stopChecks b' =
      stopChecks b ++
        (if checkStops && (lastExecutedPrice >? 0)
         then [(lastExecutedPrice, sd)] else []).
Proof.
  intros HI Hty Hg F lst.
  destruct (matching_spec st b i sd ty q prc sp taker m1 HI Hg)
    as (b1 & T & lst' & Hml & HI1 & Hfr1 & HT & Hcore & Hlast & _ & _ & _).
  fold F in Hcore, Hlast. fold lst in Hlast. subst lst'.
  rewrite processOrderInternal_unfold, Hty, Hg, Hml.
  assert (∃ b2 trig,
            (if checkStops && (lst >? 0)
             then checkStopOrders b1 lst sd []
             else Some (b1, [])) = Some (b2, trig) ∧
            Inv st [taker] b2 ∧ oPool (mm b2) = oPool (mm b1) ∧
            tradeBuffer b2 = tradeBuffer b1 ∧
            stopChecks b2 =
              stopChecks b ++
                (if checkStops && (lst >? 0) then [(lst, sd)] else []) ∧
            (checkStops = false → trig = []))
    as (b2 & trig & Hcs & HI2 & Hp2 & Ht2 & Hc2 & Htr).
  { destruct (checkStops && (lst >? 0)) eqn:Hc.
    - destruct (checkStopOrders_Inv st [taker] b1 lst sd [] HI1)
        as (b2 & trig & Hrun & HI2 & _ & _ & _ & Hp & Htb & _ & Hsc & _).
      exists b2, trig. split; [done|]. split; [done|]. split; [done|].
      split; [done|]. split.
      + rewrite Hsc, (pf_checks _ _ _ Hfr1). done.
      + intros ->. done.
    - exists b1, []. rewrite app_nil_r, (pf_checks _ _ _ Hfr1). done. }
  rewrite Hcs.
  destruct (Inv_getOrder (st := st) [] b i sd ty q prc sp taker m1 HI Hg)
    as (_ & Hrec & _ & _).
  assert (deref (mm b2) taker = deref (mm b1) taker) as Hd2
    by (unfold deref; by rewrite Hp2).
  destruct (pf_fields _ _ _ Hfr1 taker) as (Hid & Hsd & _ & Hpr & _).
  simpl in Hid, Hsd, Hpr. rewrite Hrec in Hid, Hsd, Hpr. simpl in Hid, Hsd, Hpr.
  destruct ((0 <? shares (deref (mm b2) taker))%N
            && bool_decide (ty = OrderType.Limit)) eqn:Hres.
  - apply andb_true_iff in Hres as [Hpos _]. apply N.ltb_lt in Hpos.
    destruct (placeOrder (restRoot b2 sd) prc taker (mm b2))
      as [[t m2] found] eqn:Hpl.
    pose proof (Inv_place_inflight b2 Rest sd prc taker i t m2 found HI2) as Hpi.
    simpl in Hpi. rewrite Hd2, Hid, Hsd, Hpr in Hpi. rewrite <- Hd2 in Hpi.
    specialize (Hpi eq_refl eq_refl eq_refl (λ _ _, Hpos) Hpl).
    destruct found; cbv beta iota zeta.
    + match goal with |- context [resubmitAll depth (Some ?X) trig] =>
        destruct (resubmitAll_grows trig X Htr Hpi)
          as (b' & Hrun & HI' & [Hgc [T' Hgt]] & Hsame) end.
      exists b1, T, b2, trig, b', T'. rewrite Hrun.
      split; [done|]. split; [done|]. split; [done|]. split; [done|].
      split; [done|]. split; [done|]. split; [|split].
      * rewrite Hgt. simpl. rewrite (proj1 (with_restRoot_channel _ _ _)).
        rewrite Ht2, HT. by rewrite app_assoc.
      * intros Hnil. specialize (Hsame Hnil). subst b'.
        symmetry in Hgt. rewrite <- (app_nil_r (tradeBuffer _)) in Hgt at 2.
        by apply app_inv_head in Hgt.
      * rewrite Hgc. simpl. rewrite (proj2 (with_restRoot_channel _ _ _)).
        exact Hc2.
    + eexists b1, T, b2, trig, _, []. rewrite app_nil_r.
      split; [done|]. split; [done|]. split; [done|]. split; [done|].
      split; [done|]. split; [done|]. split; [|split]; [|done|].
      * simpl. rewrite (proj1 (with_restRoot_channel _ _ _)). by rewrite Ht2, HT.
      * simpl. rewrite (proj2 (with_restRoot_channel _ _ _)). exact Hc2.
  - match goal with |- context [resubmitAll depth (Some ?X) trig] =>
      destruct (resubmitAll_grows trig X Htr
                  (Inv_recycle_inflight [] b2 taker HI2))
        as (b' & Hrun & HI' & [Hgc [T' Hgt]] & Hsame) end.
    exists b1, T, b2, trig, b', T'. rewrite Hrun.
    split; [done|]. split; [done|]. split; [done|]. split; [done|].
    split; [done|]. split; [done|]. split; [|split].
    + rewrite Hgt. simpl. rewrite Ht2, HT. by rewrite app_assoc.
    + intros Hnil. specialize (Hsame Hnil). subst b'. simpl in Hgt.
      symmetry in Hgt. rewrite <- (app_nil_r (tradeBuffer b2)) in Hgt at 2.
      by apply app_inv_head in Hgt.
    + rewrite Hgc. simpl. exact Hc2.
Qed.

(** Arming a stop, or finding the order pool empty, touches neither the
    trade channel nor the trigger pass. *)
Lemma submit_grows b i sd ty q prc sp :
  checkStops = false → Inv st [] b →
  ∃ b', processOrderInternal (S depth) b i sd ty q prc sp false = Some b' ∧
        Inv st [] b' ∧ grows b b'.
Proof.
  intros Hcs HI.
  destruct (processOrderInternal_noStops (st := st) depth b i sd ty q prc sp HI)
    as (b' & Hrun & HI').
  exists b'. split; [done|]. split; [done|].
  destruct (getOrder (mm b) i sd ty q prc sp) as [[a m1]|] eqn:Hg.
  2:{ rewrite processOrderInternal_unfold, Hg in Hrun.
      destruct (isStopType ty); injection Hrun as <-; apply grows_refl. }
  destruct (isStopType ty) eqn:Hty.
  - rewrite processOrderInternal_unfold, Hty, Hg in Hrun.
    destruct (placeOrder (stopRoot b sd) sp a m1) as [[t m2] found].
    destruct found; injection Hrun as <-; split; simpl;
      rewrite ?(proj1 (with_stopRoot_channel _ _ _)),
              ?(proj2 (with_stopRoot_channel _ _ _));
      try done; exists []; by rewrite app_nil_r.
  - destruct (submit_spec b i sd ty q prc sp a m1 HI Hty Hg)
      as (b1 & T & b2 & trig & b'' & T' & _ & _ & _ & _ & Hrun' & _ & Htb & _ & Hsc).
    rewrite Hcs in Hrun'. rewrite Hrun in Hrun'. injection Hrun' as <-.
    split.
    + rewrite Hsc, Hcs. simpl. by rewrite app_nil_r.
    + by exists (T ++ T').
Qed.
End submit.

Lemma reentry_grows st depth b i sd ty q prc sp :
  Inv st [] b →
  ∃ b', processOrderInternal (S depth) b i sd ty q prc sp false = Some b' ∧
        Inv st [] b' ∧ grows b b'.
Proof. apply (submit_grows depth false); [intros [=]|done]. Qed.


(** * The engine driven through its public entry points *)

(** [processOrder] on a book where it returns. *)
Definition submitted (b : OrderBook) (i : N) (sd : Side.t) (ty : OrderType.t)
    (q : N) (prc stopPrc : Z) : OrderBook :=
  default b (processOrder b i sd ty q prc stopPrc).

Definition freshBook (n : nat) : OrderBook := newOrderBook (newMemoryManager n).


Lemma reachable_submitted okQty n b i sd ty q prc sp :
  reachable okQty n b → reachable okQty n (submitted b i sd ty q prc sp).
Proof.
  intros Hr. destruct (reachable_submit_total okQty n b i sd ty q prc sp Hr)
    as [b' Hrun].
  unfold submitted. rewrite Hrun. simpl. by eapply reach_submit.
Qed.

Lemma reachable_fresh okQty n : reachable okQty n (freshBook n).
Proof. apply reach_init. Qed.

(** ** Tree balance *)

(** One level at each of the prices 100, 101, 102 on the buy side: the
    third insertion rotates. *)
Definition threeBuys : OrderBook :=
  submitted
    (submitted
       (submitted (freshBook 20) 1 Side.Buy OrderType.Limit 5 100 0)
       2 Side.Buy OrderType.Limit 5 101 0)
    3 Side.Buy OrderType.Limit 5 102 0.



(** ** Shares of resting orders *)






(** ** Submitting a quantity of zero *)

(** C10. A market or limit order submitted with quantity 0 emits no trade,
    rests nothing and leaves the four trees and the two indices as they
    were; its node goes back to the arena, so the free slots of both pools
    are those before the call.  A stop or stop-limit order with quantity 0
    that finds a free order slot and a level (an existing one at its stop
    price, or a free level slot) is linked at the tail of that level of its
    stop tree and entered in the stop index, carrying 0 shares. *)
Theorem C10_zero_quantity_submit n b i sd ty prc sp :
  reachable anyQty n b →
  ∃ b', processOrder b i sd ty 0 prc sp = Some b' ∧
    (isStopType ty = false →
       tradeBuffer b' = tradeBuffer b ∧
       buyRoot b' = buyRoot b ∧ sellRoot b' = sellRoot b ∧
       stopBuyRoot b' = stopBuyRoot b ∧ stopSellRoot b' = stopSellRoot b ∧
       orderMap b' = orderMap b ∧ stopOrderMap b' = stopOrderMap b ∧
       fOrder (mm b') = fOrder (mm b) ∧ fLimit (mm b') = fLimit (mm b)) ∧
    (isStopType ty = true →
       ∀ o rest, fOrder (mm b) = o :: rest →
       (0 < fLimit (mm b))%nat ∨ sp ∈ keys (stopRoot b sd) →
       stopOrderMap b' = <[i := o]> (stopOrderMap b) ∧
       levels (stopRoot b' sd) = addL sp o (levels (stopRoot b sd)) ∧
       deref (mm b') o = mkOrder i sd ty 0 prc sp ∧
       orderMap b' = orderMap b ∧ tradeBuffer b' = tradeBuffer b).
Proof.
  intros Hr. apply reachable_Inv in Hr.
  unfold processOrder. rewrite processOrderInternal_unfold.
  destruct (getOrder (mm b) i sd ty 0 prc sp) as [[a m1]|] eqn:Hg.
  2:{ exists b. destruct (isStopType ty); (split; [done|]).
      - split; [done|]. intros _ o rest Hf. unfold getOrder in Hg.
        by rewrite Hf in Hg.
      - split; [done|]. done. }
  destruct (Inv_getOrder (st := false) [] b i sd ty 0 prc sp a m1 Hr Hg)
    as (HI0 & Hrec & Hfl & Hfo).
  destruct (isStopType ty) eqn:Hty.
  - (* the stop is armed *)
    pose proof (placeOrder_spec (stopRoot b sd) sp a m1
                  (Inv_bst _ _ _ Armed sd Hr)) as Hsp.
    destruct (placeOrder (stopRoot b sd) sp a m1) as [[t m2] found].
    destruct Hsp as (Hp & Hf & Hbst & Hfound).
    destruct found.
    + eexists. split; [done|]. split; [done|]. intros _ o rest Hfo' Hlev.
      assert (o = a) as -> by congruence.
      destruct Hfound as [Hlv _]. split; [by destruct sd|].
      split; [by destruct sd|]. split; [|by destruct sd].
      unfold deref in *. rewrite <- Hrec. destruct sd; simpl; by rewrite Hp.
    + eexists. split; [done|]. split; [done|]. intros _ o rest Hfo' Hlev.
      destruct Hfound as (_ & _ & Hz & Hk). exfalso.
      destruct Hlev as [Hlev|Hlev]; [lia|]. by apply Hk.
  - (* nothing to match *)
    destruct (matching_spec false b i sd ty 0 prc sp a m1 Hr Hg)
      as (b1 & T & lst & Hml & _ & _ & _ & _ & Hlst & Hsame & _ & _).
    rewrite priorityFills_zero in Hlst, Hsame. simpl in Hlst.
    specialize (Hsame eq_refl). subst b1 lst. rewrite Hml.
    cbn [andb Z.gtb Z.compare]. cbv beta iota.
    change (mm (with_mm b m1)) with m1. rewrite Hrec. cbn [shares N.ltb N.compare andb].
    eexists. split; [done|]. split; [|done]. intros _. simpl.
    rewrite Hfl, Hfo. done.
Qed.

(** A sell limit resting at 90; a market buy and a buy stop of quantity 0. *)
Definition restingSell : OrderBook :=
  submitted (freshBook 10) 1 Side.Sell OrderType.Limit 10 90 0.

Lemma C10_witness :
  reachable anyQty 10 restingSell ∧
  ∃ b', processOrder restingSell 2 Side.Buy OrderType.Stop 0 0 95 = Some b' ∧
        getStopOrderCount b' = 1%nat.
Proof.
  assert (reachable anyQty 10 restingSell) as Hr
    by apply reachable_submitted, reachable_fresh.
  split; [exact Hr|].
  destruct (C10_zero_quantity_submit 10 restingSell 2 Side.Buy OrderType.Stop 0 95 Hr)
    as (b' & Hrun & _ & Harm).
  exists b'. split; [exact Hrun|].
  destruct (Harm eq_refl 1%nat (seq 2 8)) as (Hmap & _).
  - vm_compute. reflexivity.
  - left. vm_compute. lia.
  - unfold getStopOrderCount. rewrite Hmap. vm_compute. reflexivity.
Defined.

(** ** A modify that cannot re-home *)

(** Two buys resting at 100 and a sell resting at 200 on
    [MemoryManager(10)]: both slots of the level pool are in use. *)
Definition levelsExhausted : OrderBook :=
  submitted
    (submitted
       (submitted (freshBook 10) 1 Side.Buy OrderType.Limit 5 100 0)
       2 Side.Buy OrderType.Limit 5 100 0)
    3 Side.Sell OrderType.Limit 5 200 0.

(** C6. With the level pool exhausted, [modifyOrder(1, 5, 101)] returns
    false, yet the book is not what it was: order 1 has left the FIFO of
    level 100, carries the new price 101, belongs to no level, and is still
    in the order index. *)
Theorem C6_modify_drop_leaves_partial_state :
  reachable anyQty 10 levelsExhausted ∧
  fLimit (mm levelsExhausted) = 0%nat ∧
  levels (buyRoot levelsExhausted) = [(100, [0; 1]%nat)] ∧
  orderMap levelsExhausted !! 1%N = Some 0%nat ∧
  price (deref (mm levelsExhausted) 0) = 100 ∧
  let r := modifyOrder levelsExhausted 1 5 101 in
  r.1 = false ∧
  tradeBuffer r.2 = tradeBuffer levelsExhausted ∧
  levels (buyRoot r.2) = [(100, [1%nat])] ∧
  levels (sellRoot r.2) = levels (sellRoot levelsExhausted) ∧
  orderMap r.2 !! 1%N = Some 0%nat ∧
  price (deref (mm r.2) 0) = 101.
Proof.
  split; [repeat apply reachable_submitted; apply reachable_fresh|].
  vm_compute. repeat split; reflexivity.
Qed.

(** ** The order among fired stops *)






(** A buy of 10 resting at 90 and two sell stops armed, order 2 with 2
    shares at stop price 95 and order 3 with 3 shares at stop price 97. *)
Definition twoSellStops : OrderBook :=
  submitted
    (submitted
       (submitted (freshBook 20) 1 Side.Buy OrderType.Limit 10 90 0)
       2 Side.Sell OrderType.Stop 2 0 95)
    3 Side.Sell OrderType.Stop 3 0 97.




(** ** Market orders and the cross test *)

(** The price a market order carries: [INT64_MAX] for a buy, 0 for a sell. *)
Definition marketPrice (s : Side.t) : Z :=
  match s with Side.Buy => INT64_MAX | Side.Sell => 0 end.

Lemma levels_nil t : levels t = [] → t = Null.
Proof.
  destruct t as [|p q l r ht]; [done|]. simpl. intros H.
  by apply app_nil in H as [_ [=]].
Qed.

Lemma priority_nil st ex sd b :
  Inv st ex b → priority sd b = [] → restRoot b (opposite sd) = Null.
Proof.
  intros HI Hp. apply levels_nil.
  destruct (levels (restRoot b (opposite sd))) as [|[k q] L] eqn:HL; [done|].
  exfalso.
  destruct (il_fifo _ _ _ _ _ _ HI Rest (opposite sd) k q) as [Hq _].
  { unfold bookLevels. simpl. rewrite HL. by left. }
  destruct q as [|a q]; [done|].
  assert ((k, a) ∈ priority sd b) as Hin.
  { apply elem_priority. exists (a :: q). rewrite HL. split; by left. }
  rewrite Hp in Hin. by apply elem_of_nil in Hin.
Qed.

(** Where the loop of a taker stops: opposite side empty, or taker filled. *)
Definition loopExhausts (b : OrderBook) (sd : Side.t) (q : N) (prc : Z) : Prop :=
  ∀ i ty sp taker m1 b1 lastExecutedPrice,
    getOrder (mm b) i sd ty q prc sp = Some (taker, m1) →
    matchLoop (nodes (restRoot b (opposite sd))) (with_mm b m1) taker sd prc 0
      = Some (b1, lastExecutedPrice) →
    restRoot b1 (opposite sd) = Null ∨ shares (deref (mm b1) taker) = 0%N.

(** A buy of 5 resting at the price -5. *)
Definition negativeBid : OrderBook :=
  submitted (freshBook 10) 1 Side.Buy OrderType.Limit 5 (-5) 0.

(** C5, as stated, fails: against a best buy level at -5 a market sell,
    which carries the price 0, fails the cross test at once; the loop stops
    with the buy tree not empty and the taker unfilled, and no trade. *)
Lemma C5_counterexample :
  reachable anyQty 10 negativeBid ∧
  ¬ loopExhausts negativeBid Side.Sell 5 (marketPrice Side.Sell) ∧
  tradeBuffer (submitted negativeBid 2 Side.Sell OrderType.Market 5
                 (marketPrice Side.Sell) 0) = [].
Proof.
  split; [apply reachable_submitted, reachable_fresh|].
  split; [|vm_compute; reflexivity].
  intros H.
  destruct (getOrder (mm negativeBid) 2 Side.Sell OrderType.Market 5 0 0)
    as [[taker m1]|] eqn:Hg; [|vm_compute in Hg; discriminate Hg].
  destruct (matchLoop (nodes (restRoot negativeBid (opposite Side.Sell)))
              (with_mm negativeBid m1) taker Side.Sell 0 0)
    as [[b1 lst]|] eqn:Hml.
  - specialize (H 2%N OrderType.Market 0 taker m1 b1 lst Hg Hml).
    vm_compute in Hg. injection Hg as <- <-.
    vm_compute in Hml. injection Hml as <- _.
    vm_compute in H. destruct H as [H|H]; discriminate H.
  - vm_compute in Hg. injection Hg as <- <-.
    vm_compute in Hml. discriminate Hml.
Qed.

(** C5, amended. With prices in the range of a signed 64-bit integer, the
    matching loop of a market buy (price [INT64_MAX]) stops only when the
    sell tree is empty or the taker is filled.  The loop of a market sell
    (price 0) stops when the buy tree is empty, when the taker is filled,
    or when the best buy level has a negative price: there the cross test
    [price > best->price] fails although a level exists. *)
Theorem C5_market_loop_exit n b i sd ty q sp taker m1 :
  reachable anyQty n b →
  getOrder (mm b) i sd ty q (marketPrice sd) sp = Some (taker, m1) →
  (∀ k, k ∈ keys (sellRoot b) → k ≤ INT64_MAX) →
  ∃ b1 lastExecutedPrice,
    matchLoop (nodes (restRoot b (opposite sd))) (with_mm b m1) taker sd
      (marketPrice sd) 0 = Some (b1, lastExecutedPrice) ∧
    (restRoot b1 (opposite sd) = Null ∨
     shares (deref (mm b1) taker) = 0%N ∨
     (sd = Side.Sell ∧ ∃ k a P, priority sd b1 = (k, a) :: P ∧ k < 0)).
Proof.
  intros Hr Hg Hrange. apply reachable_Inv in Hr.
  destruct (matching_spec false b i sd ty q (marketPrice sd) sp taker m1 Hr Hg)
    as (b1 & T & lst & Hml & HI1 & _ & _ & _ & _ & _ & Hexit & Hsub).
  exists b1, lst. split; [exact Hml|].
  destruct Hexit as [Hz|[Hnil|(k & a & P & HP & Hcross)]].
  - right. by left.
  - left. by eapply priority_nil.
  - destruct sd; simpl in Hcross.
    + exfalso. apply Z.ltb_lt in Hcross.
      assert ((k, a) ∈ priority Side.Buy b) as Hin
        by (apply Hsub; rewrite HP; by left).
      apply elem_priority in Hin as (qq & Hin & _). simpl in Hin.
      specialize (Hrange k (elem_keys _ _ _ Hin)). lia.
    + right. right. split; [done|]. exists k, a, P. split; [done|].
      rewrite Z.gtb_ltb in Hcross. by apply Z.ltb_lt in Hcross.
Qed.

Lemma C5_witness :
  reachable anyQty 10 restingSell ∧
  getOrder (mm restingSell) 2 Side.Buy OrderType.Market 4 (marketPrice Side.Buy) 0
    = Some (1%nat, mkMM (<[1%nat := mkOrder 2 Side.Buy OrderType.Market 4
                                     (marketPrice Side.Buy) 0]>
                           (oPool (mm restingSell)))
                        (seq 2 8) 1) ∧
  (∀ k, k ∈ keys (sellRoot restingSell) → k ≤ INT64_MAX) ∧
  ∃ b1 lastExecutedPrice,
    matchLoop (nodes (restRoot restingSell (opposite Side.Buy)))
      (with_mm restingSell
         (mkMM (<[1%nat := mkOrder 2 Side.Buy OrderType.Market 4
                              (marketPrice Side.Buy) 0]>
                  (oPool (mm restingSell)))
               (seq 2 8) 1))
      1 Side.Buy (marketPrice Side.Buy) 0 = Some (b1, lastExecutedPrice) ∧
    (restRoot b1 (opposite Side.Buy) = Null ∨
     shares (deref (mm b1) 1) = 0%N ∨
     (Side.Buy = Side.Sell ∧ ∃ k a P, priority Side.Buy b1 = (k, a) :: P ∧ k < 0)).
Proof.
  assert (reachable anyQty 10 restingSell) as Hr
    by apply reachable_submitted, reachable_fresh.
  assert (∀ k, k ∈ keys (sellRoot restingSell) → k ≤ INT64_MAX) as Hrange.
  { intros k Hk. vm_compute in Hk. apply list_elem_of_singleton in Hk as ->.
    vm_compute. discriminate. }
  split; [exact Hr|]. split; [vm_compute; reflexivity|]. split; [exact Hrange|].
  apply (C5_market_loop_exit 10 restingSell 2 Side.Buy OrderType.Market 4 0 1%nat _ Hr);
    [vm_compute; reflexivity|exact Hrange].
Defined.

(** ** The trades of one submit *)





Lemma last_fills_trades m i (T : list TradeReport) (F : list (Z * nat * N)) :
  tradeCore <$> T = fillReport m i <$> F →
  match last T with
  | Some t => ∃ f, last F = Some f ∧ f.1.1 = tprice t
  | None => last F = None
  end.
Proof.
  intros Heq. apply (f_equal last) in Heq. rewrite !fmap_last in Heq.
  destruct (last T) as [t|], (last F) as [f|]; try done.
  exists f. split; [done|]. by injection Heq as _ _ _ <-.
Qed.

(** The top-level call ([checkStops], depth 2) and the re-entry for a
    triggered stop (no [checkStops], depth 1). *)
Definition callDepth (checkStops : bool) : nat := if checkStops then 2%nat else 1%nat.

Lemma submit_trades st b i sd ty q prc sp checkStops :
  Inv st [] b → isStopType ty = false →
  let F := priorityFills (λ a, shares (deref (mm b) a)) sd prc q (priority sd b) in
  ∃ b' T T',
    processOrderInternal (callDepth checkStops) b i sd ty q prc sp checkStops = Some b' ∧
    Inv st [] b' ∧
    tradeBuffer b' = tradeBuffer b ++ T ++ T' ∧
    tradeCore <$> T =
      (match fOrder (mm b) with [] => [] | _ => fillReport (mm b) i <$> F end) ∧
    stopChecks b' =
      stopChecks b ++
        (match last T with
         | Some t => if checkStops && (tprice t >? 0) then [(tprice t, sd)] else []
         | None => []
         end) ∧
    (stopChecks b' = stopChecks b → T' = []).
Proof.
  intros HI Hty F.
  destruct (getOrder (mm b) i sd ty q prc sp) as [[taker m1]|] eqn:Hg.
  2:{ exists b, [], []. unfold getOrder in Hg.
      destruct (fOrder (mm b)) eqn:Hf; [|done].
      destruct checkStops; simpl callDepth;
        rewrite processOrderInternal_unfold, Hty; unfold getOrder; rewrite Hf;
        rewrite !app_nil_r; done. }
  assert (∃ o rest, fOrder (mm b) = o :: rest) as (o & rest & Hf).
  { unfold getOrder in Hg. destruct (fOrder (mm b)) as [|o rest]; [done|]. eauto. }
  rewrite Hf.
  assert (∃ b1 T b2 trig b' T',
    tradeCore <$> T = fillReport (mm b) i <$> F ∧
    (if checkStops && ((match last F with None => 0 | Some f => f.1.1 end) >? 0)
     then checkStopOrders b1 (match last F with None => 0 | Some f => f.1.1 end) sd []
     else Some (b1, [])) = Some (b2, trig) ∧
    processOrderInternal (callDepth checkStops) b i sd ty q prc sp checkStops = Some b' ∧
    Inv st [] b' ∧
    tradeBuffer b' = tradeBuffer b ++ T ++ T' ∧
    (trig = [] → T' = []) ∧
    stopChecks b' =
      stopChecks b ++
        (if checkStops && ((match last F with None => 0 | Some f => f.1.1 end) >? 0)
         then [((match last F with None => 0 | Some f => f.1.1 end), sd)] else []))
    as (b1 & T & b2 & trig & b' & T' & Hcore & Hcs & Hrun & HI' & Htb & Hnil & Hsc).
  { destruct checkStops; simpl callDepth.
    - destruct (submit_spec (st := st) 1 true
                  (λ _ b0 i0 sd0 ty0 q0 prc0 sp0 H0,
                     reentry_grows st 0 b0 i0 sd0 ty0 q0 prc0 sp0 H0)
                  b i sd ty q prc sp taker m1 HI Hty Hg)
        as (b1 & T & b2 & trig & b' & T' & _ & _ & H3 & H4 & H5 & H6 & H7 & H8 & H9).
      exists b1, T, b2, trig, b', T'. done.
    - destruct (submit_spec (st := st) 0 false (λ H, ltac:(done))
                  b i sd ty q prc sp taker m1 HI Hty Hg)
        as (b1 & T & b2 & trig & b' & T' & _ & _ & H3 & H4 & H5 & H6 & H7 & H8 & H9).
      exists b1, T, b2, trig, b', T'. done. }
  exists b', T, T'. split; [done|]. split; [done|]. split; [done|]. split; [done|].
  pose proof (last_fills_trades _ _ _ _ Hcore) as Hlast. fold F in Hlast.
  assert ((match last T with
           | Some t => if checkStops && (tprice t >? 0) then [(tprice t, sd)] else []
           | None => []
           end) =
          (if checkStops && ((match last F with None => 0 | Some f => f.1.1 end) >? 0)
           then [((match last F with None => 0 | Some f => f.1.1 end), sd)] else []))
    as Hsame.
  { destruct (last T) as [t|].
    - destruct Hlast as (f & -> & <-). done.
    - rewrite Hlast. by rewrite andb_false_r. }
  split; [by rewrite Hsame|].
  intros Heq. apply Hnil. rewrite Hsc in Heq.
  rewrite <- (app_nil_r (stopChecks b)) in Heq at 2.
  apply app_inv_head in Heq.
  destruct (checkStops && _); [done|]. by injection Hcs as _ <-.
Qed.

(** ** Price-time priority *)


(** Sells resting at 90 (orders 1 and 2, in this order) and at 95 (order 3). *)
Definition threeAsks : OrderBook :=
  submitted
    (submitted
       (submitted (freshBook 10) 1 Side.Sell OrderType.Limit 10 90 0)
       2 Side.Sell OrderType.Limit 5 90 0)
    3 Side.Sell OrderType.Limit 5 95 0.


(** ** When the trigger pass runs *)

Definition passInvokedOnce (b b' : OrderBook) (p : Z) (sd : Side.t) : Prop :=
  stopChecks b' = stopChecks b ++ [(p, sd)].

Definition passNotInvoked (b b' : OrderBook) : Prop :=
  stopChecks b' = stopChecks b.

(** A sell of 5 resting at the price -5, and a buy stop armed at -10. *)
Definition negativeAsk : OrderBook :=
  submitted
    (submitted (freshBook 10) 1 Side.Sell OrderType.Limit 5 (-5) 0)
    2 Side.Buy OrderType.Stop 1 INT64_MAX (-10).

(** C4, as stated, fails: a buy of 5 at -5 trades once, at -5, and the
    trigger pass is not invoked; the buy stop at -10 stays armed. *)
Lemma C4_counterexample :
  reachable anyQty 10 negativeAsk ∧
  tradeBuffer negativeAsk = [] ∧
  let b' := submitted negativeAsk 3 Side.Buy OrderType.Limit 5 (-5) 0 in
  tradeCore <$> tradeBuffer b' = [(3%N, 1%N, 5%N, -5)] ∧
  ¬ passInvokedOnce negativeAsk b' (-5) Side.Buy ∧
  getStopOrderCount b' = 1%nat.
Proof.
  split; [repeat apply reachable_submitted; apply reachable_fresh|].
  split; [vm_compute; reflexivity|]. cbv zeta.
  split; [vm_compute; reflexivity|].
  split; [|vm_compute; reflexivity].
  unfold passInvokedOnce. vm_compute. discriminate.
Qed.

(** C4, amended. For every top-level submit of a market or limit order: if
    at least one trade was emitted during matching and the price of the
    final one is strictly positive, the stop-trigger pass is invoked
    exactly once, with that price and the aggressor's side; if no trade was
    emitted, or the final trade price is zero or negative, the pass is not
    invoked.  [T] are the trades of the matching loop and [T'] those of the
    stops the pass re-submits. *)
Theorem C4_trigger_pass_after_positive_fill n b i sd ty q prc sp :
  reachable anyQty n b → isStopType ty = false →
  ∃ b' T T',
    processOrder b i sd ty q prc sp = Some b' ∧
    tradeBuffer b' = tradeBuffer b ++ T ++ T' ∧
    tradeCore <$> T =
      (match fOrder (mm b) with
       | [] => []
       | _ => fillReport (mm b) i <$>
                priorityFills (λ a, shares (deref (mm b) a)) sd prc q (priority sd b)
       end) ∧
    match last T with
    | Some t =>
        if tprice t >? 0 then passInvokedOnce b b' (tprice t) sd
        else passNotInvoked b b'
    | None => passNotInvoked b b'
    end.
Proof.
  intros Hr Hty. apply reachable_Inv in Hr.
  destruct (submit_trades false b i sd ty q prc sp true Hr Hty)
    as (b' & T & T' & Hrun & _ & Htb & Hcore & Hsc & _).
  exists b', T, T'. split; [exact Hrun|]. split; [done|]. split; [done|].
  unfold passInvokedOnce, passNotInvoked.
  destruct (last T) as [t|]; [|by rewrite app_nil_r in Hsc].
  simpl in Hsc. destruct (tprice t >? 0); [done|by rewrite app_nil_r in Hsc].
Qed.

Lemma C4_witness :
  reachable anyQty 10 restingSell ∧
  ∃ b',
    processOrder restingSell 3 Side.Buy OrderType.Limit 4 100 0 = Some b' ∧
    stopChecks b' = [(90, Side.Buy)].
Proof.
  assert (reachable anyQty 10 restingSell) as Hr
    by apply reachable_submitted, reachable_fresh.
  split; [exact Hr|].
  destruct (C4_trigger_pass_after_positive_fill 10 restingSell 3 Side.Buy
              OrderType.Limit 4 100 0 Hr eq_refl)
    as (b' & T & T' & Hrun & _ & _ & _).
  exists b'. split; [exact Hrun|].
  assert (b' = submitted restingSell 3 Side.Buy OrderType.Limit 4 100 0) as ->
    by (apply (inj Some); rewrite <- Hrun; vm_compute; reflexivity).
  vm_compute. reflexivity.
Defined.

(** ** Insert, then cancel *)







(** ** The stop scenario *)

Lemma newMemoryManager_ten k :
  newMemoryManager (10 + k) =
  mkMM (replicate 10 inhabitant ++ replicate k inhabitant)
       (seq 0 10 ++ seq 10 k) (S (S (k / 5))).
Proof.
  unfold newMemoryManager.
  assert (((10 + k) / 5)%nat = S (S (k / 5))) as ->
    by (change (10 + k)%nat with (2 * 5 + k)%nat; by rewrite Nat.div_add_l).
  by rewrite replicate_add, seq_app.
Qed.

(** Order 1 (Sell, Limit, 10 at 90) rests, order 2 (Sell, Stop, 5, stop
    price 95) is armed, order 3 (Buy, Limit, 4 at 100) is submitted. *)
Definition stopArmed (n : nat) (unused : Z) : OrderBook :=
  submitted
    (submitted (freshBook n) 1 Side.Sell OrderType.Limit 10 90 0)
    2 Side.Sell OrderType.Stop 5 unused 95.

Definition stopScenario (n : nat) (unused : Z) : OrderBook :=
  submitted (stopArmed n unused) 3 Side.Buy OrderType.Limit 4 100 0.

(** C1, as stated, fails: after the buy of order 3 the stop order 2 is
    still armed, [getStopOrderCount] is 1 and not 0. *)
Lemma C1_counterexample :
  reachable anyQty 10 (stopArmed 10 0) ∧
  processOrder (stopArmed 10 0) 3 Side.Buy OrderType.Limit 4 100 0
    = Some (stopScenario 10 0) ∧
  tradeCore <$> tradeBuffer (stopScenario 10 0) = [(3%N, 1%N, 4%N, 90)] ∧
  stopOrderMap (stopScenario 10 0) !! 2%N = Some 1%nat ∧
  getStopOrderCount (stopScenario 10 0) ≠ 0%nat.
Proof.
  split; [repeat apply reachable_submitted; apply reachable_fresh|].
  split; [vm_compute; reflexivity|].
  split; [vm_compute; reflexivity|].
  split; [vm_compute; reflexivity|].
  vm_compute. discriminate.
Qed.

(** C1, amended. In the scenario, on pools of at least 10 orders: exactly
    one trade {taker 3, maker 1, qty 4, price 90} is emitted; the trigger
    pass of that buy-aggressor submit runs once, with price 90 and side
    Buy, and examines the stop-buy tree only, which is empty, so the sell
    stop 2 does not fire and stays armed at 95.  This leaves
    [getStopOrderCount] = 1, [getOrderCount] = 1 and order 1 resting with
    6 shares at price 90. *)
Theorem C1_stop_scenario n unused :
  (10 ≤ n)%nat →
  let b := stopScenario n unused in
  tradeCore <$> tradeBuffer b = [(3%N, 1%N, 4%N, 90)] ∧
  stopChecks b = [(90, Side.Buy)] ∧
  getStopOrderCount b = 1%nat ∧
  stopOrderMap b !! 2%N = Some 1%nat ∧
  levels (stopSellRoot b) = [(95, [1%nat])] ∧
  stopBuyRoot b = Null ∧
  getOrderCount b = 1%nat ∧
  orderMap b !! 1%N = Some 0%nat ∧
  levels (sellRoot b) = [(90, [0%nat])] ∧
  buyRoot b = Null ∧
  shares (deref (mm b) 0) = 6%N ∧
  price (deref (mm b) 0) = 90.
Proof.
  intros Hn. replace n with (10 + (n - 10))%nat by lia.
  generalize (n - 10)%nat. clear n Hn. intros k.
  unfold stopScenario, stopArmed, freshBook. rewrite newMemoryManager_ten.
  vm_compute. repeat split; reflexivity.
Qed.

Lemma C1_witness :
  (10 ≤ 10)%nat ∧
  getStopOrderCount (stopScenario 10 0) = 1%nat ∧
  getOrderCount (stopScenario 10 0) = 1%nat.
Proof.
  split; [lia|].
  destruct (C1_stop_scenario 10 0 ltac:(lia))
    as (_ & _ & H1 & _ & _ & _ & H2 & _).
  split; [exact H1|exact H2].
Defined.

(** * The price-level tree on its own *)

(** A tree with the levels 100, 101 and 102, built with a pool of four
    level slots and no orders. *)
Definition threeLevels : Limit * MemoryManager :=
  let m0 := mkMM [] [] 4 in
  let '(t1, _, m1) := insert Null 100 m0 in
  let '(t2, _, m2) := insert t1 101 m1 in
  let '(t3, _, m3) := insert t2 102 m2 in
  (t3, m3).

Lemma threeLevels_bst : bst threeLevels.1.
Proof. unfold bst. vm_compute. repeat constructor. Qed.

Lemma threeLevels_avl : avl threeLevels.1.
Proof. vm_compute. repeat split; discriminate. Qed.

(** X1. [insert] is insert-or-find: on a search tree it returns a balanced
    search tree; the target is null exactly when the price has no level
    and the level pool is empty; the levels of the result are those of the
    argument, FIFOs included, plus an empty level at [p] when [p] had
    none and a level slot was taken; a slot is taken from the level pool
    only in that case, and the order pool is not touched. *)
Theorem X1_insert_or_find t p m :
  bst t → avl t →
  let '(t', found, m') := insert t p m in
  bst t' ∧ avl t' ∧
  (found = false ↔ (p ∉ keys t) ∧ fLimit m = O) ∧
  (∀ k q, (k, q) ∈ levels t' ↔
     (k, q) ∈ levels t ∨ (found = true ∧ k = p ∧ q = [] ∧ p ∉ keys t)) ∧
  fLimit m = (if found && bool_decide (p ∉ keys t) then S (fLimit m') else fLimit m') ∧
  oPool m' = oPool m ∧ fOrder m' = fOrder m.
Proof.
  intros Hb Ha.
  pose proof (insert_spec t p m Hb) as Hs.
  pose proof (insert_bst t p m Hb) as Hb'.
  pose proof (insert_avl t p m Ha) as Ha'.
  pose proof (insert_pools t p m) as [Hp Hf].
  destruct (insert t p m) as [[t' found] m']. simpl in *.
  split; [done|]. split; [done|].
  destruct Hs as [(H1&H2&H3&H4)|[(H1&H2&H3&H4)|(H1&H2&H3&H4&H5)]]; subst.
  - split; [split; [done|tauto]|]. split.
    + intros k q. rewrite H2. split; [auto|]. intros [?|(_&_&_&?)]; [done|tauto].
    + rewrite bool_decide_eq_false_2 by tauto. done.
  - split; [split; [done|intros [_ ?]; lia]|]. split.
    + intros k q. rewrite H4, elem_linsert by done. unfold keys. tauto.
    + by rewrite bool_decide_eq_true_2.
  - split; [done|]. split.
    + intros k q. rewrite H5. split; [auto|]. by intros [?|(?&_)].
    + done.
Qed.

Lemma X1_witness :
  (bst threeLevels.1 ∧ avl threeLevels.1) ∧
  (insert threeLevels.1 99 threeLevels.2).1.2 = true ∧
  (99, []) ∈ levels (insert threeLevels.1 99 threeLevels.2).1.1.
Proof.
  split; [split; [exact threeLevels_bst|exact threeLevels_avl]|].
  pose proof (X1_insert_or_find threeLevels.1 99 threeLevels.2
                threeLevels_bst threeLevels_avl) as H.
  destruct (insert threeLevels.1 99 threeLevels.2) as [[t' found] m'] eqn:Hi.
  destruct H as (_ & _ & Hfound & Hlv & _). simpl.
  assert (found = true) as ->.
  { destruct found; [done|]. destruct (proj1 Hfound eq_refl) as [_ Hz].
    vm_compute in Hz. discriminate Hz. }
  split; [done|]. apply Hlv. right. repeat split; try done.
  vm_compute. intros H. repeat (apply elem_of_cons in H as [H|H]; [discriminate H|]).
  by apply elem_of_nil in H.
Defined.

(** X2. [removeLimit] on a search tree returns a balanced search tree
    whose levels are those of the argument without the level at [p]; the
    level slot goes back to the pool exactly when [p] had a level, and the
    order pool is not touched.  Removing a price that has no level changes
    neither the levels nor the pools. *)
Theorem X2_removeLimit_removes_the_level t p m :
  bst t → avl t →
  let '(t', m') := removeLimit t p m in
  bst t' ∧ avl t' ∧
  (∀ k q, (k, q) ∈ levels t' ↔ k ≠ p ∧ (k, q) ∈ levels t) ∧
  fLimit m' = (if bool_decide (p ∈ keys t) then S (fLimit m) else fLimit m) ∧
  (p ∉ keys t → levels t' = levels t) ∧
  oPool m' = oPool m ∧ fOrder m' = fOrder m.
Proof.
  intros Hb Ha.
  pose proof (removeLimit_spec t p m Hb) as Hs.
  pose proof (removeLimit_bst t p m Hb) as Hb'.
  pose proof (removeLimit_avl t p m Ha) as Ha'.
  destruct (removeLimit t p m) as [t' m']. simpl in *.
  destruct Hs as (Hlv & Hp & Hf & Hfl).
  split; [done|]. split; [done|]. split; [|split; [|split; [|done]]].
  - intros k q. rewrite Hlv. apply elem_ldelete.
  - rewrite Hfl. destruct (decide (p ∈ keys t)).
    + by rewrite bool_decide_eq_true_2.
    + by rewrite bool_decide_eq_false_2.
  - intros Hn. rewrite Hlv. by apply ldelete_absent.
Qed.

Lemma X2_witness :
  (bst threeLevels.1 ∧ avl threeLevels.1) ∧
  keys (removeLimit threeLevels.1 101 threeLevels.2).1 = [100; 102] ∧
  fLimit (removeLimit threeLevels.1 101 threeLevels.2).2 = 2%nat.
Proof.
  split; [split; [exact threeLevels_bst|exact threeLevels_avl]|].
  pose proof (X2_removeLimit_removes_the_level threeLevels.1 101 threeLevels.2
                threeLevels_bst threeLevels_avl) as H.
  destruct (removeLimit threeLevels.1 101 threeLevels.2) as [t' m'] eqn:Hr.
  destruct H as (_ & _ & _ & Hfl & _). simpl. split.
  - replace t' with (removeLimit threeLevels.1 101 threeLevels.2).1
      by (by rewrite Hr).
    vm_compute. reflexivity.
  - rewrite Hfl. vm_compute. reflexivity.
Defined.

(** X3. Creating a level and removing it again gives back the levels of
    the tree, with their FIFOs, and the count of free level slots.  (The
    shape of the tree may differ.) *)
Theorem X3_insert_then_remove t p m :
  bst t → p ∉ keys t → (0 < fLimit m)%nat →
  let '(t1, found, m1) := insert t p m in
  let '(t2, m2) := removeLimit t1 p m1 in
  found = true ∧ levels t2 = levels t ∧ fLimit m2 = fLimit m ∧
  oPool m2 = oPool m ∧ fOrder m2 = fOrder m.
Proof.
  intros Hb Hn Hfree.
  pose proof (insert_spec t p m Hb) as Hs.
  pose proof (insert_bst t p m Hb) as Hb1.
  destruct (insert t p m) as [[t1 found] m1] eqn:Hi. simpl in Hb1.
  pose proof (insert_pools t p m) as [Hp1 Hf1]. rewrite Hi in Hp1, Hf1.
  simpl in Hp1, Hf1.
  pose proof (removeLimit_spec t1 p m1 Hb1) as Hr.
  destruct (removeLimit t1 p m1) as [t2 m2].
  destruct Hr as (Hlv & Hp2 & Hf2 & Hfl2).
  destruct Hs as [(H1&_)|[(H1&H2&H3&H4)|(H1&H2&_)]]; [done| |lia].
  split; [done|]. split; [|split; [|split; congruence]].
  - rewrite Hlv, H4. clear -Hb Hn. unfold bst, keys in *.
    induction (levels t) as [|[k q] L IH]; simpl.
    + by rewrite ldelete_cons_eq.
    + rewrite fmap_cons in Hb, Hn. cbn [fst] in Hb, Hn.
      apply StronglySorted_cons in Hb as [Hk Hb].
      apply not_elem_of_cons in Hn as [Hpk Hn].
      destruct (Z.ltb_spec p k).
      * rewrite ldelete_cons_eq. apply ldelete_absent. rewrite fmap_cons.
        cbn [fst]. apply not_elem_of_cons. done.
      * destruct (Z.ltb_spec k p); [|lia].
        rewrite ldelete_cons_ne by lia. f_equal. by apply IH.
  - rewrite Hfl2. rewrite decide_True; [lia|].
    unfold keys. rewrite H4. apply linsert_keys. by left.
Qed.

Lemma X3_witness :
  (bst threeLevels.1 ∧ (99 ∉ keys threeLevels.1) ∧ (0 < fLimit threeLevels.2)%nat) ∧
  levels (removeLimit (insert threeLevels.1 99 threeLevels.2).1.1 99
            (insert threeLevels.1 99 threeLevels.2).2).1
    = levels threeLevels.1.
Proof.
  assert (99 ∉ keys threeLevels.1) as Hn.
  { vm_compute. intros H.
    repeat (apply elem_of_cons in H as [H|H]; [discriminate H|]).
    by apply elem_of_nil in H. }
  assert (0 < fLimit threeLevels.2)%nat as Hfree by (vm_compute; lia).
  split; [split; [exact threeLevels_bst|split; [exact Hn|exact Hfree]]|].
  pose proof (X3_insert_then_remove threeLevels.1 99 threeLevels.2
                threeLevels_bst Hn Hfree) as H.
  destruct (insert threeLevels.1 99 threeLevels.2) as [[t1 found] m1].
  simpl. destruct (removeLimit t1 99 m1) as [t2 m2].
  destruct H as (_ & H & _). exact H.
Defined.

(** X4. On a search tree [getMin] returns the level of the least price
    and [getMax] the level of the greatest price, each with the FIFO the
    tree holds for it; both return null only for the empty tree. *)
Theorem X4_getMin_getMax_are_extremal t :
  bst t →
  match getMin t with
  | Null => t = Null
  | Node p q _ _ _ => (p, q) ∈ levels t ∧ ∀ k, k ∈ keys t → p ≤ k
  end ∧
  match getMax t with
  | Null => t = Null
  | Node p q _ _ _ => (p, q) ∈ levels t ∧ ∀ k, k ∈ keys t → k ≤ p
  end.
Proof.
  intros Hb. unfold bst, keys in *. split.
  - pose proof (getMin_levels t) as Hm.
    destruct (getMin t) as [|p q l r ht]; [done|].
    destruct Hm as [rest Hr]. rewrite Hr in *. split; [by left|].
    rewrite fmap_cons in Hb. cbn [fst] in Hb.
    apply StronglySorted_cons in Hb as [Hall _]. rewrite Forall_forall in Hall.
    intros k Hk. rewrite fmap_cons in Hk. cbn [fst] in Hk.
    apply elem_of_cons in Hk as [->|Hk]; [lia|]. specialize (Hall k Hk). lia.
  - pose proof (getMax_levels t) as Hm.
    destruct (getMax t) as [|p q l r ht]; [done|].
    destruct Hm as [front Hr]. rewrite Hr in *. split.
    { apply elem_of_app. right. by left. }
    rewrite fmap_app in Hb. apply StronglySorted_app in Hb as (Hall & _ & _).
    intros k Hk. rewrite fmap_app in Hk.
    apply elem_of_app in Hk as [Hk|Hk].
    + specialize (Hall k p Hk ltac:(by left)). lia.
    + apply list_elem_of_singleton in Hk as ->. simpl. lia.
Qed.

Lemma X4_witness :
  bst threeLevels.1 ∧
  (∀ k, k ∈ keys threeLevels.1 → 100 ≤ k) ∧
  (∀ k, k ∈ keys threeLevels.1 → k ≤ 102).
Proof.
  split; [exact threeLevels_bst|].
  destruct (X4_getMin_getMax_are_extremal threeLevels.1 threeLevels_bst)
    as [Hmin Hmax].
  assert (getMin threeLevels.1 = Node 100 [] Null Null 1) as Hg1
    by (vm_compute; reflexivity).
  assert (getMax threeLevels.1 = Node 102 [] Null Null 1) as Hg2
    by (vm_compute; reflexivity).
  rewrite Hg1 in Hmin. rewrite Hg2 in Hmax.
  split; [exact (proj2 Hmin)|exact (proj2 Hmax)].
Defined.

(** * What every reachable book satisfies *)

(** ** Height of the trees *)



Lemma threeBuys_reachable : reachable anyQty 20 threeBuys.
Proof. repeat apply reachable_submitted. apply reachable_fresh. Qed.


(** ** Structure of the book *)











(** * Cancel and modify *)





Lemma with_mm_channel b m :
  tradeBuffer (with_mm b m) = tradeBuffer b ∧
  timestampCounter (with_mm b m) = timestampCounter b.
Proof. done. Qed.




(** ** modifyOrder *)

Lemma setShares_same m o :
  (o < length (oPool m))%nat → setShares m o (shares (deref m o)) = m.
Proof.
  intros Hb. unfold setShares. destruct m as [pool free fl]. simpl. f_equal.
  apply list_insert_id. unfold deref. simpl.
  rewrite list_lookup_lookup_total_lt by done. f_equal.
  by destruct (pool !!! o).
Qed.

Lemma with_mm_same b : with_mm b (mm b) = b.
Proof. by destruct b. Qed.

(** X12. [modifyOrder] at the price the order already has.  It returns
    true and writes the new share count into the order; the four trees,
    with the place of the order in its FIFO, the two indices, the free
    lists and the trade channel are untouched, and so is every other
    order.  With the quantity the order already has, the book is the same
    as before. *)
Theorem X12_modify_in_place n b i o newQty :
  reachable anyQty n b → orderMap b !! i = Some o →
  let r := modifyOrder b i newQty (price (deref (mm b) o)) in
  r.1 = true ∧
  r.2 = with_mm b (setShares (mm b) o newQty) ∧
  shares (deref (mm r.2) o) = newQty ∧
  (∀ x, x ≠ o → deref (mm r.2) x = deref (mm b) x) ∧
  (newQty = shares (deref (mm b) o) → r.2 = b).
Proof.
  intros Hr Ho. apply reachable_Inv in Hr.
  destruct (il_index _ _ _ _ _ _ Hr Rest i o Ho) as (_ & Hb & _).
  unfold modifyOrder. rewrite Ho. cbv zeta. rewrite Z.eqb_refl. cbn [fst snd].
  split; [done|]. split; [done|]. split; [|split].
  - simpl. by rewrite deref_setShares_eq.
  - intros x Hx. simpl. by rewrite deref_setShares_ne.
  - intros ->. rewrite setShares_same by done. apply with_mm_same.
Qed.

Lemma X12_witness :
  reachable anyQty 20 threeBuys ∧
  orderMap threeBuys !! 2%N = Some 1%nat ∧
  (modifyOrder threeBuys 2 5 101).2 = threeBuys.
Proof.
  assert (orderMap threeBuys !! 2%N = Some 1%nat) as Ho by (vm_compute; reflexivity).
  split; [exact threeBuys_reachable|]. split; [exact Ho|].
  destruct (X12_modify_in_place 20 threeBuys 2 1%nat 5 threeBuys_reachable Ho)
    as (_ & _ & _ & _ & H).
  assert (price (deref (mm threeBuys) 1) = 101) as Hp by (vm_compute; reflexivity).
  rewrite Hp in H. apply H. vm_compute. reflexivity.
Defined.






(** ** Arming a stop, then cancelling it *)



(** ** A submit that finds no level slot *)

(** X15. A stop or stop-limit order that obtains an order slot but no
    level (the level pool is empty and its stop price has no level) is
    dropped: the levels of the four trees, the indices and the trade
    channel are as before.  Its order slot is not returned: the free list
    of orders is shorter by that slot. *)
Theorem X15_dropped_stop_keeps_its_slot n b i sd ty q prc sp o rest :
  reachable anyQty n b →
  isStopType ty = true →
  fOrder (mm b) = o :: rest →
  fLimit (mm b) = 0%nat → sp ∉ keys (stopRoot b sd) →
  ∃ b', processOrder b i sd ty q prc sp = Some b' ∧
    (∀ c s, levels (bookTree b' c s) = levels (bookTree b c s)) ∧
    orderMap b' = orderMap b ∧ stopOrderMap b' = stopOrderMap b ∧
    tradeBuffer b' = tradeBuffer b ∧
    fOrder (mm b') = rest ∧ fLimit (mm b') = 0%nat.
Proof.
  intros Hr Hty Hfo Hfl Hkey. apply reachable_Inv in Hr.
  unfold processOrder. rewrite processOrderInternal_unfold, Hty.
  unfold getOrder. rewrite Hfo.
  set (m1 := mkMM _ rest (fLimit (mm b))).
  pose proof (Inv_bst _ _ _ Armed sd Hr) as Hbst. simpl in Hbst.
  pose proof (placeOrder_spec (stopRoot b sd) sp o m1 Hbst) as Hpl.
  destruct (placeOrder (stopRoot b sd) sp o m1) as [[t m2] found].
  destruct Hpl as (Hp2 & Hf2 & Hbst2 & Hfound).
  destruct found.
  { exfalso. destruct Hfound as [_ Hc]. rewrite decide_False in Hc by done.
    unfold m1 in Hc. simpl in Hc. lia. }
  destruct Hfound as (Hlv & -> & _ & _).
  eexists. split; [done|]. split; [|split; [|split; [|split]]].
  - intros c s. destruct c, s, sd; simpl; try done; exact Hlv.
  - by destruct sd.
  - by destruct sd.
  - by destruct sd.
  - destruct sd; simpl; done.
Qed.

Lemma X15_witness :
  reachable anyQty 10 levelsExhausted ∧
  fOrder (mm levelsExhausted) = 3%nat :: seq 4 6 ∧
  fLimit (mm levelsExhausted) = 0%nat ∧
  (150 ∉ keys (stopRoot levelsExhausted Side.Buy)) ∧
  ∃ b', processOrder levelsExhausted 4 Side.Buy OrderType.Stop 1 INT64_MAX 150
          = Some b' ∧
        stopOrderMap b' = stopOrderMap levelsExhausted ∧
        fOrder (mm b') = seq 4 6.
Proof.
  assert (reachable anyQty 10 levelsExhausted) as Hr
    by (repeat apply reachable_submitted; apply reachable_fresh).
  assert (fOrder (mm levelsExhausted) = 3%nat :: seq 4 6) as Hfo
    by (vm_compute; reflexivity).
  assert (fLimit (mm levelsExhausted) = 0%nat) as Hfl by (vm_compute; reflexivity).
  assert (150 ∉ keys (stopRoot levelsExhausted Side.Buy)) as Hk.
  { vm_compute. intros H. by apply elem_of_nil in H. }
  split; [exact Hr|]. split; [exact Hfo|]. split; [exact Hfl|]. split; [exact Hk|].
  destruct (X15_dropped_stop_keeps_its_slot 10 levelsExhausted 4 Side.Buy
              OrderType.Stop 1 INT64_MAX 150 3%nat (seq 4 6) Hr eq_refl Hfo Hfl Hk)
    as (b' & Hrun & _ & _ & Hsm & _ & Hrest & _).
  exists b'. split; [exact Hrun|]. split; [exact Hsm|exact Hrest].
Defined.

Lemma priorityFills_no_cross sh sd prc rem (P : list (Z * nat)) :
  (∀ k a, (k, a) ∈ P → crossFails sd prc k = true) →
  priorityFills sh sd prc rem P = [].
Proof.
  intros Hc. destruct P as [|[k a] P]; [done|]. cbn [priorityFills].
  rewrite (Hc k a) by (by left). by rewrite orb_true_r.
Qed.

(** X16. A limit order of positive quantity whose price crosses no level
    of the opposite side, and that obtains an order slot but no level (the
    level pool is empty and its price has no level on its side), is
    dropped: no trade, the levels of the four trees and the indices as
    before.  Its order slot is not returned to the free list. *)
Theorem X16_dropped_limit_keeps_its_slot n b i sd q prc sp o rest :
  reachable anyQty n b →
  (0 < q)%N →
  fOrder (mm b) = o :: rest →
  fLimit (mm b) = 0%nat → prc ∉ keys (restRoot b sd) →
  (∀ k, k ∈ keys (restRoot b (opposite sd)) → crossFails sd prc k = true) →
  ∃ b', processOrder b i sd OrderType.Limit q prc sp = Some b' ∧
    (∀ c s, levels (bookTree b' c s) = levels (bookTree b c s)) ∧
    orderMap b' = orderMap b ∧ stopOrderMap b' = stopOrderMap b ∧
    tradeBuffer b' = tradeBuffer b ∧
    fOrder (mm b') = rest ∧ fLimit (mm b') = 0%nat.
Proof.
  intros Hr Hq Hfo Hfl Hkey Hcross. apply reachable_Inv in Hr.
  assert (getOrder (mm b) i sd OrderType.Limit q prc sp =
            Some (o, mkMM (<[o := mkOrder i sd OrderType.Limit q prc sp]> (oPool (mm b)))
                          rest (fLimit (mm b)))) as Hg
    by (unfold getOrder; by rewrite Hfo).
  set (m1 := mkMM _ rest (fLimit (mm b))) in Hg.
  destruct (Inv_getOrder (st := false) [] b i sd OrderType.Limit q prc sp o m1 Hr Hg)
    as (HI0 & Hrec & _ & _).
  destruct (matching_spec false b i sd OrderType.Limit q prc sp o m1 Hr Hg)
    as (bm & T & lst & Hml & _ & _ & _ & _ & Hlst & Hsame & _).
  assert (priorityFills (λ a, shares (deref (mm b) a)) sd prc q (priority sd b) = [])
    as HF.
  { apply priorityFills_no_cross. intros k a Hin. apply Hcross.
    apply elem_priority in Hin as (qq & Hin & _). by eapply elem_keys. }
  rewrite HF in Hlst, Hsame. simpl in Hlst. specialize (Hsame eq_refl).
  subst bm lst.
  unfold processOrder. rewrite processOrderInternal_unfold.
  cbn [isStopType]. rewrite Hg, Hml.
  cbn [andb Z.gtb Z.compare]. cbv beta iota.
  change (mm (with_mm b m1)) with m1. rewrite Hrec. cbn [shares].
  rewrite (proj2 (N.ltb_lt 0 q) Hq). rewrite bool_decide_eq_true_2 by done.
  cbn [andb].
  assert (restRoot (with_mm b m1) sd = restRoot b sd) as Hroot by (by destruct sd).
  rewrite Hroot.
  pose proof (Inv_bst _ _ _ Rest sd Hr) as Hbst. simpl in Hbst.
  pose proof (placeOrder_spec (restRoot b sd) prc o m1 Hbst) as Hpl.
  destruct (placeOrder (restRoot b sd) prc o m1) as [[t m2] found].
  destruct Hpl as (Hp2 & Hf2 & Hbst2 & Hfound).
  destruct found.
  { exfalso. destruct Hfound as [_ Hc]. rewrite decide_False in Hc by done.
    unfold m1 in Hc. simpl in Hc. lia. }
  destruct Hfound as (Hlv & -> & _ & _).
  eexists. split; [done|]. split; [|split; [|split; [|split]]].
  - intros c s. destruct c, s, sd; simpl; try done; exact Hlv.
  - by destruct sd.
  - by destruct sd.
  - by destruct sd.
  - destruct sd; simpl; done.
Qed.

Lemma X16_witness :
  reachable anyQty 10 levelsExhausted ∧
  ∃ b', processOrder levelsExhausted 4 Side.Buy OrderType.Limit 1 150 0 = Some b' ∧
        orderMap b' = orderMap levelsExhausted ∧
        fOrder (mm b') = seq 4 6.
Proof.
  assert (reachable anyQty 10 levelsExhausted) as Hr
    by (repeat apply reachable_submitted; apply reachable_fresh).
  split; [exact Hr|].
  destruct (X16_dropped_limit_keeps_its_slot 10 levelsExhausted 4 Side.Buy 1 150 0
              3%nat (seq 4 6) Hr)
    as (b' & Hrun & _ & Hom & _ & _ & Hrest & _).
  - lia.
  - vm_compute. reflexivity.
  - vm_compute. reflexivity.
  - vm_compute. intros H.
    repeat (apply elem_of_cons in H as [H|H]; [discriminate H|]).
    by apply elem_of_nil in H.
  - intros k Hk. vm_compute in Hk. apply list_elem_of_singleton in Hk as ->.
    vm_compute. reflexivity.
  - exists b'. split; [exact Hrun|]. split; [exact Hom|exact Hrest].
Defined.

(** * Quantities and timestamps of the trades *)

Definition totalQty (T : list TradeReport) : N := foldr N.add 0%N (qty <$> T).

Lemma priorityFills_total sh sd prc : ∀ P rem,
  (foldr N.add 0 ((λ f : Z * nat * N, f.2) <$> priorityFills sh sd prc rem P) ≤ rem)%N.
Proof.
  induction P as [|[k a] P IH]; intros rem; cbn [priorityFills]; [simpl; lia|].
  destruct ((rem =? 0)%N || crossFails sd prc k); [simpl; lia|].
  rewrite fmap_cons. cbn [foldr snd].
  specialize (IH (rem - N.min rem (sh a))%N). lia.
Qed.

Lemma trades_of_fills m i (T : list TradeReport) (F : list (Z * nat * N)) :
  tradeCore <$> T = fillReport m i <$> F →
  qty <$> T = (λ f : Z * nat * N, f.2) <$> F ∧ Forall (λ t, takerId t = i) T.
Proof.
  revert F. induction T as [|t T IH]; intros [|f F] Heq; try done.
  rewrite !fmap_cons in Heq. unfold tradeCore at 1, fillReport at 1 in Heq.
  injection Heq as Hti _ Hq _ Hrest.
  destruct (IH F Hrest) as [H1 H2]. split.
  - rewrite !fmap_cons. by rewrite Hq, H1.
  - by constructor.
Qed.

(** X17. The trades [T] that the matching loop of a market or limit
    submit emits all carry the identifier of the submitted order as
    taker, and their quantities add up to at most the submitted quantity.
    ([T'] are the trades of the stops the submit triggers.) *)
Theorem X17_fills_within_quantity n b i sd ty q prc sp :
  reachable anyQty n b → isStopType ty = false →
  ∃ b' T T',
    processOrder b i sd ty q prc sp = Some b' ∧
    tradeBuffer b' = tradeBuffer b ++ T ++ T' ∧
    tradeCore <$> T =
      (match fOrder (mm b) with
       | [] => []
       | _ => fillReport (mm b) i <$>
                priorityFills (λ a, shares (deref (mm b) a)) sd prc q (priority sd b)
       end) ∧
    Forall (λ t, takerId t = i) T ∧
    (totalQty T ≤ q)%N.
Proof.
  intros Hr Hty. apply reachable_Inv in Hr.
  destruct (submit_trades false b i sd ty q prc sp true Hr Hty)
    as (b' & T & T' & Hrun & _ & Htb & Hcore & _).
  exists b', T, T'. split; [exact Hrun|]. split; [done|]. split; [done|].
  destruct (fOrder (mm b)).
  - apply fmap_nil_inv in Hcore. subst T. split; [constructor|].
    unfold totalQty. simpl. lia.
  - destruct (trades_of_fills _ _ _ _ Hcore) as [Hq Ht]. split; [done|].
    unfold totalQty. rewrite Hq. apply priorityFills_total.
Qed.

Lemma X17_witness :
  reachable anyQty 10 threeAsks ∧
  ∃ b' T T',
    processOrder threeAsks 4 Side.Buy OrderType.Limit 17 100 0 = Some b' ∧
    tradeBuffer b' = tradeBuffer threeAsks ++ T ++ T' ∧
    (totalQty T ≤ 17)%N.
Proof.
  assert (reachable anyQty 10 threeAsks) as Hr
    by (repeat apply reachable_submitted; apply reachable_fresh).
  split; [exact Hr|].
  destruct (X17_fills_within_quantity 10 threeAsks 4 Side.Buy OrderType.Limit 17 100 0
              Hr eq_refl) as (b' & T & T' & H1 & H2 & _ & _ & H3).
  exists b', T, T'. split; [exact H1|]. split; [exact H2|exact H3].
Defined.

(** ** A property of the trade channel kept by every operation *)

Section channel_property.
Variable Q : list TradeReport → N → Prop.
Hypothesis Q_push : ∀ L c tk mk traded p,
  Q L c → Q (L ++ [mkTrade tk mk traded p c]) ((c + 1) mod U64_MOD)%N.














End channel_property.





(** * 2. The ring buffer

    [RingBuffer<SIZE>]: the template parameter is an argument of each
    function.  A call of [push] or [pop] is one step: its loads and stores
    are not interleaved with those of another call, and the memory orders
    of the atomics play no part.  [writePos] and [readPos] are [uint64_t]:
    the increment wraps at 2^64 and the difference [wp - rp] is taken
    modulo 2^64; the comparison [rp >= wp] of [pop] is on the values
    themselves. *)

#[global] Instance TradeReport_inhabited : Inhabited TradeReport :=
  populate (mkTrade 0 0 0 0 0).

Module RingBuffer.

Record t := mk {
  buffer : list TradeReport;
  writePos : N;
  readPos : N
}.

Definition slot (SIZE : N) (pos : N) : nat := N.to_nat (N.land pos (SIZE - 1)).

Definition push (SIZE : N) (r : t) (x : TradeReport) : bool * t :=
  let wp := writePos r in
  if (SIZE <=? (wp + U64_MOD - readPos r) mod U64_MOD)%N then (false, r)
  else (true, mk (<[slot SIZE wp := x]> (buffer r)) ((wp + 1) mod U64_MOD)%N (readPos r)).

(** [None] is the return value false, which leaves the out parameter
    alone. *)
Definition pop (SIZE : N) (r : t) : option TradeReport * t :=
  let rp := readPos r in
  if (writePos r <=? rp)%N then (None, r)
  else (Some (buffer r !!! slot SIZE rp),
        mk (buffer r) (writePos r) ((rp + 1) mod U64_MOD)%N).

Definition size (r : t) : N := ((writePos r + U64_MOD - readPos r) mod U64_MOD)%N.

End RingBuffer.

(** ** The queue a ring stands for *)

(** The records pushed and not yet popped, oldest first. *)
Definition ringContents (SIZE : N) (r : RingBuffer.t) : list TradeReport :=
  (λ j, RingBuffer.buffer r !!! RingBuffer.slot SIZE (RingBuffer.readPos r + N.of_nat j))
    <$> seq 0 (N.to_nat (RingBuffer.writePos r - RingBuffer.readPos r)).

(** [SIZE] slots, [readPos <= writePos <= readPos + SIZE], and
    [writePos] has not wrapped. *)
Definition ringOK (SIZE : N) (r : RingBuffer.t) : Prop :=
  N.of_nat (length (RingBuffer.buffer r)) = SIZE ∧
  (RingBuffer.readPos r ≤ RingBuffer.writePos r)%N ∧
  (RingBuffer.writePos r - RingBuffer.readPos r ≤ SIZE)%N ∧
  (RingBuffer.writePos r < U64_MOD)%N.

Lemma slot_mod k pos : RingBuffer.slot (2 ^ k) pos = N.to_nat (pos mod 2 ^ k).
Proof.
  unfold RingBuffer.slot. rewrite N.sub_1_r, <- N.ones_equiv. by rewrite N.land_ones.
Qed.

Lemma slot_bound k pos : (RingBuffer.slot (2 ^ k) pos < N.to_nat (2 ^ k))%nat.
Proof.
  rewrite slot_mod.
  pose proof (N.mod_upper_bound pos (2 ^ k) ltac:(apply N.pow_nonzero; lia)). lia.
Qed.

Lemma slot_window k a c :
  (a ≤ c < a + 2 ^ k)%N → RingBuffer.slot (2 ^ k) a = RingBuffer.slot (2 ^ k) c → a = c.
Proof.
  intros Hw Heq. rewrite !slot_mod in Heq.
  assert (2 ^ k ≠ 0)%N as Hnz by (apply N.pow_nonzero; lia).
  set (S := (2 ^ k)%N) in *.
  pose proof (N.div_mod a S Hnz) as Ha. pose proof (N.div_mod c S Hnz) as Hc.
  pose proof (N.mod_upper_bound a S Hnz). pose proof (N.mod_upper_bound c S Hnz).
  assert (a mod S = c mod S)%N as Hm by lia.
  rewrite Hm in Ha.
  assert (a / S = c / S)%N; [nia|]. nia.
Qed.

Lemma size_sub r :
  (RingBuffer.readPos r ≤ RingBuffer.writePos r)%N →
  (RingBuffer.writePos r < U64_MOD)%N →
  RingBuffer.size r = (RingBuffer.writePos r - RingBuffer.readPos r)%N.
Proof.
  intros Hle Hlt. unfold RingBuffer.size.
  replace (RingBuffer.writePos r + U64_MOD - RingBuffer.readPos r)%N
    with ((RingBuffer.writePos r - RingBuffer.readPos r) + 1 * U64_MOD)%N by lia.
  rewrite N.Div0.mod_add. apply N.mod_small. lia.
Qed.

Lemma ringContents_length SIZE r :
  length (ringContents SIZE r)
  = N.to_nat (RingBuffer.writePos r - RingBuffer.readPos r).
Proof. unfold ringContents. by rewrite length_fmap, length_seq. Qed.

Lemma ring_push_full k r x :
  ringOK (2 ^ k) r →
  length (ringContents (2 ^ k) r) = N.to_nat (2 ^ k) →
  RingBuffer.push (2 ^ k) r x = (false, r).
Proof.
  intros (Hlen & Hle & Hfull & Hlt). rewrite ringContents_length. intros Heq.
  unfold RingBuffer.push. fold (RingBuffer.size r). rewrite size_sub by done.
  rewrite (proj2 (N.leb_le _ _)) by lia. done.
Qed.

Lemma ring_push_room k r x :
  ringOK (2 ^ k) r → (RingBuffer.writePos r + 1 < U64_MOD)%N →
  length (ringContents (2 ^ k) r) ≠ N.to_nat (2 ^ k) →
  (RingBuffer.push (2 ^ k) r x).1 = true ∧
  ringOK (2 ^ k) (RingBuffer.push (2 ^ k) r x).2 ∧
  ringContents (2 ^ k) (RingBuffer.push (2 ^ k) r x).2
    = ringContents (2 ^ k) r ++ [x].
Proof.
  intros (Hlen & Hle & Hfull & Hlt) Hnext.
  rewrite ringContents_length. intros Hne. unfold RingBuffer.push.
  fold (RingBuffer.size r). rewrite size_sub by done.
  destruct r as [buf wp rp]. simpl in *.
  rewrite (proj2 (N.leb_gt _ _)) by lia. cbn [fst snd].
  split; [done|].
  assert ((wp + 1) mod U64_MOD = wp + 1)%N as Hw by (apply N.mod_small; lia).
  split.
  - unfold ringOK. simpl. rewrite length_insert, Hw. repeat split; lia.
  - unfold ringContents. simpl. rewrite Hw.
    replace (N.to_nat (wp + 1 - rp)) with (N.to_nat (wp - rp) + 1)%nat by lia.
    rewrite seq_app, fmap_app. simpl. f_equal.
    + apply list_fmap_ext. intros j0 j Hj.
      apply lookup_seq in Hj as [-> Hj]. simpl.
      rewrite list_lookup_total_insert_ne; [done|].
      intros Heq. symmetry in Heq. apply slot_window in Heq; lia.
    + f_equal. replace (rp + N.of_nat (N.to_nat (wp - rp)))%N with wp by lia.
      rewrite list_lookup_total_insert_eq; [done|].
      pose proof (slot_bound k wp). lia.
Qed.

Lemma ring_pop_empty k r :
  ringOK (2 ^ k) r → ringContents (2 ^ k) r = [] →
  RingBuffer.pop (2 ^ k) r = (None, r).
Proof.
  intros (Hlen & Hle & Hfull & Hlt) He.
  apply (f_equal length) in He. rewrite ringContents_length in He. simpl in He.
  unfold RingBuffer.pop. rewrite (proj2 (N.leb_le _ _)) by lia. done.
Qed.

Lemma ring_pop_some k r x rest :
  ringOK (2 ^ k) r → ringContents (2 ^ k) r = x :: rest →
  (RingBuffer.pop (2 ^ k) r).1 = Some x ∧
  ringOK (2 ^ k) (RingBuffer.pop (2 ^ k) r).2 ∧
  ringContents (2 ^ k) (RingBuffer.pop (2 ^ k) r).2 = rest.
Proof.
  intros (Hlen & Hle & Hfull & Hlt).
  unfold ringContents, RingBuffer.pop. destruct r as [buf wp rp]. simpl in *.
  destruct (N.to_nat (wp - rp)) as [|d] eqn:Hd; [done|].
  rewrite (proj2 (N.leb_gt _ _)) by lia. cbn [seq fmap list_fmap fst snd].
  assert ((rp + 1) mod U64_MOD = rp + 1)%N as Hr by (apply N.mod_small; lia).
  replace (rp + N.of_nat 0)%N with rp by lia.
  intros [= <- <-]. split; [done|]. split.
  - unfold ringOK. simpl. rewrite Hr. repeat split; lia.
  - simpl. rewrite Hr.
    replace (N.to_nat (wp - (rp + 1))) with d by lia.
    rewrite <- fmap_S_seq, <- list_fmap_compose.
    apply list_fmap_ext. intros j0 j _. simpl. do 2 f_equal. lia.
Qed.

(** X19. [push] on a ring whose positions have not wrapped, for a size
    that is a power of two.  A full ring (as many records as slots)
    refuses the record: [push] returns false and changes nothing.
    Otherwise it returns true and the record becomes the newest of the
    queue, the records already there keeping their order; none is
    overwritten. *)
Theorem X19_push_appends_or_refuses k r x :
  ringOK (2 ^ k) r → (RingBuffer.writePos r + 1 < U64_MOD)%N →
  if decide (length (ringContents (2 ^ k) r) = N.to_nat (2 ^ k)) then
    RingBuffer.push (2 ^ k) r x = (false, r)
  else
    (RingBuffer.push (2 ^ k) r x).1 = true ∧
    ringOK (2 ^ k) (RingBuffer.push (2 ^ k) r x).2 ∧
    ringContents (2 ^ k) (RingBuffer.push (2 ^ k) r x).2
      = ringContents (2 ^ k) r ++ [x].
Proof.
  intros Hok Hnext. destruct (decide _) as [Hfull|Hroom].
  - by apply ring_push_full.
  - by apply ring_push_room.
Qed.

(** Four slots, of which the first two hold records 1 and 2. *)
Definition smallRing : RingBuffer.t :=
  (RingBuffer.push 4
     (RingBuffer.push 4 (RingBuffer.mk (replicate 4 inhabitant) 0 0)
        (mkTrade 1 1 1 1 0)).2
     (mkTrade 2 2 2 2 1)).2.

Lemma smallRing_OK : ringOK (2 ^ 2) smallRing.
Proof. vm_compute. repeat split; try reflexivity; discriminate. Qed.

Lemma X19_witness :
  ringOK (2 ^ 2) smallRing ∧ (RingBuffer.writePos smallRing + 1 < U64_MOD)%N ∧
  ringContents (2 ^ 2) (RingBuffer.push (2 ^ 2) smallRing (mkTrade 3 3 3 3 2)).2
    = ringContents (2 ^ 2) smallRing ++ [mkTrade 3 3 3 3 2].
Proof.
  assert (RingBuffer.writePos smallRing + 1 < U64_MOD)%N as Hn
    by (vm_compute; reflexivity).
  split; [exact smallRing_OK|]. split; [exact Hn|].
  pose proof (X19_push_appends_or_refuses 2 smallRing (mkTrade 3 3 3 3 2)
                smallRing_OK Hn) as H.
  destruct (decide _) as [Hfull|_] in H; [vm_compute in Hfull; discriminate Hfull|].
  exact (proj2 (proj2 H)).
Defined.

(** X20. [pop] on a ring whose positions have not wrapped, for a size
    that is a power of two.  On an empty queue it returns false and
    changes nothing; otherwise it returns the oldest record and the queue
    loses exactly that record. *)
Theorem X20_pop_takes_the_oldest k r :
  ringOK (2 ^ k) r →
  match ringContents (2 ^ k) r with
  | [] => RingBuffer.pop (2 ^ k) r = (None, r)
  | x :: rest =>
      (RingBuffer.pop (2 ^ k) r).1 = Some x ∧
      ringOK (2 ^ k) (RingBuffer.pop (2 ^ k) r).2 ∧
      ringContents (2 ^ k) (RingBuffer.pop (2 ^ k) r).2 = rest
  end.
Proof.
  intros Hok. destruct (ringContents (2 ^ k) r) as [|x rest] eqn:Hc.
  - by apply ring_pop_empty.
  - by apply ring_pop_some.
Qed.

Lemma X20_witness :
  ringOK (2 ^ 2) smallRing ∧
  (RingBuffer.pop (2 ^ 2) smallRing).1 = Some (mkTrade 1 1 1 1 0).
Proof.
  split; [exact smallRing_OK|].
  pose proof (X20_pop_takes_the_oldest 2 smallRing smallRing_OK) as H.
  assert (ringContents (2 ^ 2) smallRing = [mkTrade 1 1 1 1 0; mkTrade 2 2 2 2 1])
    as Hc by (vm_compute; reflexivity).
  rewrite Hc in H. exact (proj1 H).
Defined.

(** ** Runs of pushes and pops *)

Inductive ringOp := Push (x : TradeReport) | Pop.
Inductive ringOut := Pushed (ok : bool) | Popped (x : option TradeReport).

Fixpoint runRing (SIZE : N) (r : RingBuffer.t) (ops : list ringOp)
    : list ringOut * RingBuffer.t :=
  match ops with
  | [] => ([], r)
  | Push x :: ops' =>
      let '(ok, r1) := RingBuffer.push SIZE r x in
      let '(outs, r2) := runRing SIZE r1 ops' in
      (Pushed ok :: outs, r2)
  | Pop :: ops' =>
      let '(x, r1) := RingBuffer.pop SIZE r in
      let '(outs, r2) := runRing SIZE r1 ops' in
      (Popped x :: outs, r2)
  end.

(** The same run on a first-in first-out queue of capacity [cap]. *)
Fixpoint runQueue (cap : nat) (q : list TradeReport) (ops : list ringOp)
    : list ringOut * list TradeReport :=
  match ops with
  | [] => ([], q)
  | Push x :: ops' =>
      if decide (length q = cap) then
        let '(outs, q2) := runQueue cap q ops' in (Pushed false :: outs, q2)
      else
        let '(outs, q2) := runQueue cap (q ++ [x]) ops' in (Pushed true :: outs, q2)
  | Pop :: ops' =>
      let '(outs, q2) := runQueue cap (tail q) ops' in (Popped (head q) :: outs, q2)
  end.

(** X21. Any sequence of pushes and pops on a ring whose size is a power
    of two, as long as [writePos] does not reach 2^64, behaves as the same
    sequence on a first-in first-out queue bounded by the size: the same
    pushes are refused, every pop returns the oldest record not yet
    popped, and at the end the ring holds the queue, [size] is its length
    and [readPos <= writePos <= readPos + SIZE]. *)
Theorem X21_ring_is_a_bounded_queue k : ∀ ops r,
  ringOK (2 ^ k) r →
  (RingBuffer.writePos r + N.of_nat (length ops) < U64_MOD)%N →
  (runRing (2 ^ k) r ops).1
    = (runQueue (N.to_nat (2 ^ k)) (ringContents (2 ^ k) r) ops).1 ∧
  ringContents (2 ^ k) (runRing (2 ^ k) r ops).2
    = (runQueue (N.to_nat (2 ^ k)) (ringContents (2 ^ k) r) ops).2 ∧
  ringOK (2 ^ k) (runRing (2 ^ k) r ops).2 ∧
  RingBuffer.size (runRing (2 ^ k) r ops).2
    = N.of_nat (length (ringContents (2 ^ k) (runRing (2 ^ k) r ops).2)).
Proof.
  induction ops as [|[x|] ops IH]; intros r Hok Hlt.
  - simpl. split; [done|]. split; [done|]. split; [done|].
    destruct Hok as (_ & Hle & _ & Hw). rewrite size_sub by done.
    rewrite ringContents_length. lia.
  - cbn [runRing runQueue]. simpl length in Hlt.
    destruct (decide (length (ringContents (2 ^ k) r) = N.to_nat (2 ^ k)))
      as [Hfull|Hroom].
    + rewrite (ring_push_full k r x Hok Hfull).
      destruct (IH r Hok ltac:(lia)) as (H1 & H2 & H3 & H4).
      destruct (runRing (2 ^ k) r ops) as [outs r2].
      destruct (runQueue _ _ ops) as [outs' q2]. simpl in *.
      by rewrite H1.
    + destruct (ring_push_room k r x Hok ltac:(lia) Hroom) as (Ht & Hok1 & Hc1).
      assert (RingBuffer.writePos (RingBuffer.push (2 ^ k) r x).2
              ≤ RingBuffer.writePos r + 1)%N as Hw1.
      { unfold RingBuffer.push. destruct (_ <=? _)%N; simpl; [lia|].
        apply N.Div0.mod_le. }
      destruct (RingBuffer.push (2 ^ k) r x) as [ok r1].
      simpl in Ht, Hok1, Hc1, Hw1. subst ok.
      destruct (IH r1 Hok1 ltac:(lia)) as (H1 & H2 & H3 & H4).
      rewrite Hc1 in H1, H2.
      destruct (runRing (2 ^ k) r1 ops) as [outs r2].
      destruct (runQueue _ _ ops) as [outs' q2]. simpl in *.
      by rewrite H1.
  - cbn [runRing runQueue]. simpl length in Hlt.
    destruct (ringContents (2 ^ k) r) as [|y rest] eqn:Hc.
    + rewrite (ring_pop_empty k r Hok Hc).
      destruct (IH r Hok ltac:(lia)) as (H1 & H2 & H3 & H4). rewrite Hc in H1, H2.
      destruct (runRing (2 ^ k) r ops) as [outs r2]. simpl.
      destruct (runQueue _ _ ops) as [outs' q2]. simpl in *.
      by rewrite H1.
    + destruct (ring_pop_some k r y rest Hok Hc) as (Hy & Hok1 & Hc1).
      assert (RingBuffer.writePos (RingBuffer.pop (2 ^ k) r).2
              = RingBuffer.writePos r) as Hw1.
      { unfold RingBuffer.pop. by destruct (_ <=? _)%N. }
      destruct (RingBuffer.pop (2 ^ k) r) as [oy r1]. simpl in Hy, Hok1, Hc1, Hw1.
      subst oy.
      destruct (IH r1 Hok1 ltac:(lia)) as (H1 & H2 & H3 & H4).
      rewrite Hc1 in H1, H2.
      destruct (runRing (2 ^ k) r1 ops) as [outs r2]. simpl.
      destruct (runQueue _ _ ops) as [outs' q2]. simpl in *.
      by rewrite H1.
Qed.

Lemma X21_witness :
  ringOK (2 ^ 2) smallRing ∧
  (RingBuffer.writePos smallRing + N.of_nat (length [Pop; Push (mkTrade 3 3 3 3 2); Pop])
     < U64_MOD)%N ∧
  (runRing (2 ^ 2) smallRing [Pop; Push (mkTrade 3 3 3 3 2); Pop]).1
    = [Popped (Some (mkTrade 1 1 1 1 0)); Pushed true;
       Popped (Some (mkTrade 2 2 2 2 1))].
Proof.
  assert (RingBuffer.writePos smallRing
            + N.of_nat (length [Pop; Push (mkTrade 3 3 3 3 2); Pop]) < U64_MOD)%N
    as Hn by (vm_compute; reflexivity).
  split; [exact smallRing_OK|]. split; [exact Hn|].
  destruct (X21_ring_is_a_bounded_queue 2 [Pop; Push (mkTrade 3 3 3 3 2); Pop]
              smallRing smallRing_OK Hn) as (H & _).
  rewrite H. vm_compute. reflexivity.
Defined.

(** X22. Where [writePos] wraps.  A [push] accepted at the position
    2^64 - 1 sets [writePos] to 0; from then on the test [rp >= wp] of
    [pop] holds whatever the ring contains: [pop] returns false and
    changes nothing, while [size] counts the record just accepted. *)
Theorem X22_pop_refuses_after_wrap k r x :
  ringOK (2 ^ k) r →
  RingBuffer.writePos r = (U64_MOD - 1)%N → (0 < RingBuffer.readPos r)%N →
  length (ringContents (2 ^ k) r) ≠ N.to_nat (2 ^ k) →
  let r1 := (RingBuffer.push (2 ^ k) r x).2 in
  (RingBuffer.push (2 ^ k) r x).1 = true ∧
  RingBuffer.pop (2 ^ k) r1 = (None, r1) ∧
  RingBuffer.size r1 = (RingBuffer.size r + 1)%N.
Proof.
  intros (Hlen & Hle & Hfull & Hlt) Hw Hrp. rewrite ringContents_length.
  intros Hroom r1. subst r1. unfold RingBuffer.push.
  fold (RingBuffer.size r). rewrite size_sub by done.
  rewrite (proj2 (N.leb_gt _ _)) by lia. cbn [fst snd].
  split; [done|].
  assert ((RingBuffer.writePos r + 1) mod U64_MOD = 0)%N as H0.
  { rewrite Hw. vm_compute. reflexivity. }
  split.
  - unfold RingBuffer.pop. cbn [RingBuffer.writePos RingBuffer.readPos].
    rewrite H0. rewrite (proj2 (N.leb_le _ _)) by lia. done.
  - unfold RingBuffer.size at 1. cbn [RingBuffer.writePos RingBuffer.readPos].
    rewrite H0. rewrite N.mod_small by lia. lia.
Qed.

Definition lastPosition : RingBuffer.t :=
  RingBuffer.mk (replicate 4 inhabitant) (U64_MOD - 1) (U64_MOD - 1).

Lemma X22_witness :
  ringOK (2 ^ 2) lastPosition ∧
  RingBuffer.pop (2 ^ 2) (RingBuffer.push (2 ^ 2) lastPosition (mkTrade 1 1 1 1 0)).2
    = (None, (RingBuffer.push (2 ^ 2) lastPosition (mkTrade 1 1 1 1 0)).2) ∧
  RingBuffer.size (RingBuffer.push (2 ^ 2) lastPosition (mkTrade 1 1 1 1 0)).2 = 1%N.
Proof.
  assert (ringOK (2 ^ 2) lastPosition) as Hok.
  { vm_compute. repeat split; try reflexivity; discriminate. }
  split; [exact Hok|].
  destruct (X22_pop_refuses_after_wrap 2 lastPosition (mkTrade 1 1 1 1 0) Hok)
    as (_ & H1 & H2).
  - vm_compute. reflexivity.
  - vm_compute. reflexivity.
  - vm_compute. discriminate.
  - split; [exact H1|]. rewrite H2. vm_compute. reflexivity.
Defined.

(** * What the trigger pass does to the index and the arena *)

(** The stop index after [stopOrderMap.erase(stopOrder->id)] for each of
    the orders in [slots], in this order. *)
Definition eraseIds (pool : list Order) (slots : list nat) (ix : gmap N nat)
    : gmap N nat :=
  foldl (λ acc a, delete (id (pool !!! a)) acc) ix slots.

Lemma eraseIds_app pool s1 s2 ix :
  eraseIds pool (s1 ++ s2) ix = eraseIds pool s2 (eraseIds pool s1 ix).
Proof. unfold eraseIds. by rewrite foldl_app. Qed.

Lemma collectStops_index q : ∀ b triggered,
  stopOrderMap (collectStops b q triggered).1
    = eraseIds (oPool (mm b)) q (stopOrderMap b).
Proof.
  induction q as [|a q IH]; intros b triggered; cbn [collectStops]; [done|].
  rewrite IH. done.
Qed.

Lemma stopLoopSell_effects executedPrice : ∀ fuel b triggered b1 triggered',
  bst (stopSellRoot b) →
  stopLoopSell fuel b executedPrice triggered = Some (b1, triggered') →
  let F := firedSell executedPrice (levels (stopSellRoot b)) in
  fOrder (mm b1) = rev (firedSlots F) ++ fOrder (mm b) ∧
  stopOrderMap b1 = eraseIds (oPool (mm b)) (firedSlots F) (stopOrderMap b) ∧
  fLimit (mm b1) = (fLimit (mm b) + length F)%nat ∧
  oPool (mm b1) = oPool (mm b).
Proof.
  induction fuel as [|fuel IH]; intros b triggered b1 triggered' Hb;
    cbn [stopLoopSell].
  all: pose proof (getMax_levels (stopSellRoot b)) as Hm.
  all: destruct (getMax (stopSellRoot b)) as [|hp hq l r ht].
  all: try (intros [= <- _]; rewrite Hm; simpl; rewrite Nat.add_0_r; done).
  all: destruct Hm as [A HA].
  all: assert (Forall (λ k, k < hp) A.*1) as HAlt
    by (unfold bst, keys in Hb; rewrite HA, fmap_app in Hb;
        apply StronglySorted_app in Hb as (H1 & _ & _);
        apply Forall_forall; intros k Hk; apply (H1 _ _ Hk); by left).
  all: destruct (Z.leb_spec executedPrice hp) as [Hle|Hgt]; try done.
  all: try (intros [= <- _];
            assert (Forall (λ k, k < executedPrice) (A ++ [(hp, hq)]).*1) as Hall
              by (rewrite fmap_app; apply Forall_app; split;
                  [eapply Forall_impl; [exact HAlt|]; simpl; intros; lia
                  |repeat constructor; simpl; lia]);
            rewrite HA; unfold firedSell;
            rewrite (proj1 (filter_all_lt _ _ Hall)); simpl;
            rewrite Nat.add_0_r; done).
  pose proof (collectStops_spec hq b triggered) as Hc.
  pose proof (collectStops_index hq b triggered) as Hix.
  destruct (collectStops b hq triggered) as [b2 trig2]. simpl in Hix.
  destruct Hc as (_ & Hfo & Hfl & Hsb & Hss & Hfr).
  rewrite Hss.
  pose proof (removeLimit_spec (stopSellRoot b) hp (mm b2) Hb) as Hr.
  pose proof (removeLimit_bst (stopSellRoot b) hp (mm b2) Hb) as Hb'.
  destruct (removeLimit (stopSellRoot b) hp (mm b2)) as [t m].
  destruct Hr as (Ht & Hp & Hf & Hfl'). simpl in Hb'.
  assert (levels t = A) as HtA.
  { rewrite Ht, HA. replace (A ++ [(hp, hq)]) with (A ++ (hp, hq) :: []) by done.
    rewrite ldelete_at; [by rewrite app_nil_r|].
    unfold bst, keys in Hb. by rewrite HA in Hb. }
  intros Hrun.
  apply IH in Hrun; [|done]. cbv zeta in Hrun.
  change (stopSellRoot (with_mm (with_stopRoot b2 Side.Sell t) m)) with t in Hrun.
  change (mm (with_mm (with_stopRoot b2 Side.Sell t) m)) with m in Hrun.
  change (stopOrderMap (with_mm (with_stopRoot b2 Side.Sell t) m))
    with (stopOrderMap b2) in Hrun.
  rewrite HtA in Hrun. destruct Hrun as (H1 & H2 & H3 & H4).
  cbv zeta. rewrite HA. unfold firedSell.
  rewrite filter_app, filter_cons_True by done.
  rewrite filter_nil, reverse_app, reverse_singleton.
  unfold firedSlots. rewrite bind_app. simpl. rewrite app_nil_r.
  fold (firedSell executedPrice A). fold (firedSlots (firedSell executedPrice A)).
  assert (oPool m = oPool (mm b)) as Hpm by (rewrite Hp; exact (tf_pool _ _ Hfr)).
  split; [|split; [|split]].
  - rewrite H1, Hf, Hfo. rewrite rev_app_distr. by rewrite app_assoc.
  - rewrite H2, Hix, Hpm. by rewrite eraseIds_app.
  - rewrite H3, Hfl', Hfl. rewrite decide_True.
    + simpl. lia.
    + unfold keys. rewrite HA, fmap_app. apply elem_of_app. right. by left.
  - by rewrite H4.
Qed.

Lemma stopLoopBuy_effects executedPrice : ∀ fuel b triggered b1 triggered',
  bst (stopBuyRoot b) →
  stopLoopBuy fuel b executedPrice triggered = Some (b1, triggered') →
  let F := firedBuy executedPrice (levels (stopBuyRoot b)) in
  fOrder (mm b1) = rev (firedSlots F) ++ fOrder (mm b) ∧
  stopOrderMap b1 = eraseIds (oPool (mm b)) (firedSlots F) (stopOrderMap b) ∧
  fLimit (mm b1) = (fLimit (mm b) + length F)%nat ∧
  oPool (mm b1) = oPool (mm b).
Proof.
  induction fuel as [|fuel IH]; intros b triggered b1 triggered' Hb;
    cbn [stopLoopBuy].
  all: pose proof (getMin_levels (stopBuyRoot b)) as Hm.
  all: destruct (getMin (stopBuyRoot b)) as [|lp lq l r ht].
  all: try (intros [= <- _]; rewrite Hm; simpl; rewrite Nat.add_0_r; done).
  all: destruct Hm as [B HB].
  all: assert (Forall (λ k, lp < k) B.*1) as HBgt
    by (unfold bst, keys in Hb; rewrite HB, fmap_cons in Hb;
        by apply StronglySorted_cons in Hb as [? _]).
  all: rewrite Z.geb_leb.
  all: destruct (Z.leb_spec lp executedPrice) as [Hle|Hgt]; try done.
  all: try (intros [= <- _];
            assert (Forall (λ k, executedPrice < k) ((lp, lq) :: B).*1) as Hall
              by (rewrite fmap_cons; constructor; [simpl; lia|];
                  eapply Forall_impl; [exact HBgt|]; simpl; intros; lia);
            rewrite HB; unfold firedBuy;
            rewrite (proj1 (filter_all_gt _ _ Hall)); simpl;
            rewrite Nat.add_0_r; done).
  pose proof (collectStops_spec lq b triggered) as Hc.
  pose proof (collectStops_index lq b triggered) as Hix.
  destruct (collectStops b lq triggered) as [b2 trig2]. simpl in Hix.
  destruct Hc as (_ & Hfo & Hfl & Hsb & Hss & Hfr).
  rewrite Hsb.
  pose proof (removeLimit_spec (stopBuyRoot b) lp (mm b2) Hb) as Hr.
  pose proof (removeLimit_bst (stopBuyRoot b) lp (mm b2) Hb) as Hb'.
  destruct (removeLimit (stopBuyRoot b) lp (mm b2)) as [t m].
  destruct Hr as (Ht & Hp & Hf & Hfl'). simpl in Hb'.
  assert (levels t = B) as HtB.
  { rewrite Ht, HB. replace ((lp, lq) :: B) with ([] ++ (lp, lq) :: B) by done.
    rewrite ldelete_at; [done|].
    unfold bst, keys in Hb. by rewrite HB in Hb. }
  intros Hrun.
  apply IH in Hrun; [|done]. cbv zeta in Hrun.
  change (stopBuyRoot (with_mm (with_stopRoot b2 Side.Buy t) m)) with t in Hrun.
  change (mm (with_mm (with_stopRoot b2 Side.Buy t) m)) with m in Hrun.
  change (stopOrderMap (with_mm (with_stopRoot b2 Side.Buy t) m))
    with (stopOrderMap b2) in Hrun.
  rewrite HtB in Hrun. destruct Hrun as (H1 & H2 & H3 & H4).
  cbv zeta. rewrite HB. unfold firedBuy.
  rewrite filter_cons_True by done.
  unfold firedSlots. rewrite bind_cons. simpl.
  fold (firedBuy executedPrice B). fold (firedSlots (firedBuy executedPrice B)).
  assert (oPool m = oPool (mm b)) as Hpm by (rewrite Hp; exact (tf_pool _ _ Hfr)).
  split; [|split; [|split]].
  - rewrite H1, Hf, Hfo. rewrite rev_app_distr. by rewrite app_assoc.
  - rewrite H2, Hix, Hpm. by rewrite eraseIds_app.
  - rewrite H3, Hfl', Hfl. rewrite decide_True.
    + simpl. lia.
    + unfold keys. rewrite HB, fmap_cons. by left.
  - by rewrite H4.
Qed.

(** The levels the pass of an aggressor of side [sd] at price [p] fires. *)
Definition firedLevels (b : OrderBook) (p : Z) (sd : Side.t) : list (Z * list nat) :=
  match sd with
  | Side.Sell => firedSell p (levels (stopSellRoot b))
  | Side.Buy => firedBuy p (levels (stopBuyRoot b))
  end.

(** X23. What [checkStopOrders] does besides collecting the descriptors:
    the identifier of every fired stop is erased from the stop index, its
    slot is pushed on the free list of orders (the last fired on top), one
    level slot per fired level goes back to the level pool, one descriptor
    is produced per fired order, and the resting trees, the order index,
    the contents of the order pool and the trade channel are untouched. *)
Theorem X23_trigger_pass_releases_fired_stops b p sd :
  bst (stopSellRoot b) → bst (stopBuyRoot b) →
  ∃ b1 triggered,
    checkStopOrders b p sd [] = Some (b1, triggered) ∧
    let slots := firedSlots (firedLevels b p sd) in
    length triggered = length slots ∧
    stopOrderMap b1 = eraseIds (oPool (mm b)) slots (stopOrderMap b) ∧
    fOrder (mm b1) = rev slots ++ fOrder (mm b) ∧
    fLimit (mm b1) = (fLimit (mm b) + length (firedLevels b p sd))%nat ∧
    oPool (mm b1) = oPool (mm b) ∧
    buyRoot b1 = buyRoot b ∧ sellRoot b1 = sellRoot b ∧
    orderMap b1 = orderMap b ∧ tradeBuffer b1 = tradeBuffer b.
Proof.
  intros Hs Hb. unfold checkStopOrders. destruct sd.
  - destruct (stopLoopBuy_spec p (nodes (stopBuyRoot b)) (logStopCheck b p Side.Buy) [])
      as (b1 & Hrun & _ & _ & Hfr); [done|done|].
    pose proof (stopLoopBuy_effects p _ (logStopCheck b p Side.Buy) _ _ _ Hb Hrun)
      as (H1 & H2 & H3 & H4).
    eexists b1, _. split; [exact Hrun|]. cbv zeta. simpl in *.
    split; [by rewrite length_fmap|].
    destruct Hfr. done.
  - destruct (stopLoopSell_spec p (nodes (stopSellRoot b)) (logStopCheck b p Side.Sell) [])
      as (b1 & Hrun & _ & _ & Hfr); [done|done|].
    pose proof (stopLoopSell_effects p _ (logStopCheck b p Side.Sell) _ _ _ Hs Hrun)
      as (H1 & H2 & H3 & H4).
    eexists b1, _. split; [exact Hrun|]. cbv zeta. simpl in *.
    split; [by rewrite length_fmap|].
    destruct Hfr. done.
Qed.

Lemma X23_witness :
  (bst (stopSellRoot twoSellStops) ∧ bst (stopBuyRoot twoSellStops)) ∧
  ∃ b1 triggered,
    checkStopOrders twoSellStops 90 Side.Sell [] = Some (b1, triggered) ∧
    getStopOrderCount b1 = 0%nat ∧
    fOrder (mm b1) = [1; 2]%nat ++ fOrder (mm twoSellStops).
Proof.
  assert (bst (stopSellRoot twoSellStops)) as Hs.
  { unfold bst. vm_compute. repeat constructor. }
  assert (bst (stopBuyRoot twoSellStops)) as Hb.
  { unfold bst. vm_compute. repeat constructor. }
  split; [by split|].
  destruct (X23_trigger_pass_releases_fired_stops twoSellStops 90 Side.Sell Hs Hb)
    as (b1 & trig & Hrun & _ & Hix & Hfo & _).
  exists b1, trig. split; [exact Hrun|]. split.
  - unfold getStopOrderCount. rewrite Hix. vm_compute. reflexivity.
  - rewrite Hfo. vm_compute. reflexivity.
Defined.

(** * Orders that arrive without trading *)







